(** * A host document model for server-side rendering, and the code that
      drives it

    The development follows the sources of the repository.  Its first half
    holds the definitions:

    - [Js]: the few JavaScript primitives the sources rely on (primitive
      values, [String(v)], [Array.prototype.indexOf], [splice], [filter],
      [find], and [Set]s in insertion order);
    - [Host]: the node records of [engine-server/src/types] and the store
      that holds them, addressed by reference;
    - [Renderer]: the functions of [engine-server/src/renderer.ts];
    - [CompileTemplate], [ComponentTransformer], [TemplateLowering],
      [GenerateMarkup]: the pieces of the SSR compiler;
    - [Invariants]: the shapes of the store that the statements speak of;
    - [Scenario]: concrete stores, built with the renderer's own functions;
    - [Expected], [ExpectedEvents], [ExpectedLowering]: what the statements
      expect the attributes, a dispatch and the lowering to give;
    - [CustomElements]: the registry of custom elements of [renderer.ts];
    - [Api]: the calls on the renderer as data, and the stores that are
      well formed;
    - [Examples]: more concrete stores and calls.

    Its second half holds what is proved of them. *)

From stdpp Require Import gmap strings list fin_maps pretty.

Set Warnings "-register-all".

(* ===================================================================== *)
(** ** JavaScript primitives *)
(* ===================================================================== *)

Module Js.

(** Primitive values.  Numbers are restricted to the integers, which is all
    that the statements below need; what is said of their strings is said of
    the safe integers, see [safe]. *)
Inductive value :=
| VUndefined
| VNull
| VBool (b : bool)
| VNumber (z : Z)
| VString (s : string).

#[global] Instance value_eq_dec : EqDecision value.
Proof. solve_decision. Defined.

#[global] Instance value_inhabited : Inhabited value := populate VUndefined.

(** The double-quote character, for the messages that contain one. *)
Definition dquote : string := String.String (Ascii.ascii_of_nat 34) EmptyString.

(** [!!v] *)
Definition truthy (v : value) : bool :=
  match v with
  | VUndefined | VNull => false
  | VBool b => b
  | VNumber z => negb (z =? 0)%Z
  | VString s => negb (bool_decide (s = EmptyString))
  end.

(** [a ?? b] *)
Definition nullish (a b : value) : value :=
  match a with
  | VUndefined | VNull => b
  | _ => a
  end.

(** [String(v)].  An integer is written with all its digits, which is what
    JavaScript does for the safe integers; beyond them it rounds the
    digits, and from [1e21] on it writes an exponent. *)
Definition String (v : value) : string :=
  match v with
  | VUndefined => "undefined"
  | VNull => "null"
  | VBool true => "true"
  | VBool false => "false"
  | VNumber z => pretty z
  | VString s => s
  end.

(** The values of which [String] above is the string that JavaScript
    gives: every value but the numbers outside the safe integers
    ([Number.isSafeInteger]). *)
Definition safe (v : value) : bool :=
  match v with
  | VNumber z => (Z.abs z <? 2 ^ 53)%Z
  | _ => true
  end.

(** The names of the members of [Object.prototype], as the language defines
    it: a plain object [{}] inherits them, so that for these keys
    [key in {}] holds and [{}[key]] is a function ([Object.prototype]
    itself for [__proto__]) although the object has no property of its
    own. *)
Definition inherited (key : string) : bool :=
  bool_decide
    (key ∈ ["constructor"; "__defineGetter__"; "__defineSetter__"; "hasOwnProperty";
            "__lookupGetter__"; "__lookupSetter__"; "isPrototypeOf";
            "propertyIsEnumerable"; "toString"; "valueOf"; "__proto__";
            "toLocaleString"]).

(** [typeof v === 'string'] *)
Definition is_string (v : value) : bool :=
  match v with VString _ => true | _ => false end.

(** [a += s] for a string [s]: string concatenation after [ToPrimitive]. *)
Definition plus_string (a : value) (s : string) : value :=
  VString (String a +:+ s).

(** How a call ends: with a value, or with [throw new Error(message)]. *)
Inductive completion (A : Type) :=
| Return (a : A)
| Throw (message : string).

Arguments Return {A} a.
Arguments Throw {A} message.

Section Arrays.
Context {A : Type} `{EqDecision A}.

(** [arr.indexOf(x)]: the first index holding [x], [-1] when there is
    none. *)
Fixpoint indexOf_from (i : Z) (l : list A) (x : A) : Z :=
  match l with
  | [] => (-1)%Z
  | y :: l' => if decide (y = x) then i else indexOf_from (i + 1)%Z l' x
  end.

Definition indexOf (l : list A) (x : A) : Z := indexOf_from 0 l x.

(** [arr.splice(start, deleteCount, ...items)], the array left behind.  A
    negative [start] counts from the end. *)
Definition splice (l : list A) (start deleteCount : Z) (items : list A) : list A :=
  let len := Z.of_nat (length l) in
  let actualStart :=
    if (start <? 0)%Z then Z.max (len + start) 0 else Z.min start len in
  let actualDeleteCount :=
    Z.min (Z.max deleteCount 0) (len - actualStart) in
  take (Z.to_nat actualStart) l ++ items
    ++ drop (Z.to_nat (actualStart + actualDeleteCount)) l.

(** [arr[i]]: [None] stands for [undefined]. *)
Definition at_index (l : list A) (i : Z) : option A :=
  if (i <? 0)%Z then None else l !! Z.to_nat i.

(** [arr.push(x)] *)
Definition push (l : list A) (x : A) : list A := l ++ [x].

(** [arr.find(p)]: [None] stands for [undefined]. *)
Fixpoint find (p : A -> bool) (l : list A) : option A :=
  match l with
  | [] => None
  | y :: l' => if p y then Some y else find p l'
  end.

(** The index at which [find] stops, to write through the reference it
    returns. *)
Fixpoint findIndex (p : A -> bool) (l : list A) : option nat :=
  match l with
  | [] => None
  | y :: l' => if p y then Some 0 else S <$> findIndex p l'
  end.

(** [arr.filter(p)] *)
Fixpoint filter (p : A -> bool) (l : list A) : list A :=
  match l with
  | [] => []
  | y :: l' => if p y then y :: filter p l' else filter p l'
  end.

(** A [Set] keeps its members in insertion order; [add] of a member
    leaves it where it is. *)
Definition set_add (s : list A) (x : A) : list A :=
  if decide (x ∈ s) then s else s ++ [x].

Definition set_delete (s : list A) (x : A) : list A :=
  filter (fun y => bool_decide (y ≠ x)) s.

End Arrays.

End Js.

(* ===================================================================== *)
(** ** Host nodes and the store *)
(* ===================================================================== *)

Module Host.

(** Nodes are JavaScript objects: they are compared and shared by
    reference. *)
Definition ref := nat.

(** Modelled from the spec: the node types of [./types], a module that is
    not among the sources.  The spec's data model names the five shapes,
    and [renderer.ts] uses all five. *)
Inductive HostNodeType := Text | Comment | Raw | Element | ShadowRoot.

#[global] Instance HostNodeType_eq_dec : EqDecision HostNodeType.
Proof. solve_decision. Defined.

(** Modelled from the spec: the attribute records of [./types], with the
    three fields the spec gives and [renderer.ts] writes: a name, a
    namespace or [null] ([None]), and a value. *)
Record HostAttribute := mkAttr {
  name : string;
  attrNamespace : option string;
  value : Js.value;
}.

#[global] Instance HostAttribute_eq_dec : EqDecision HostAttribute.
Proof. solve_decision. Defined.

(** The functions held in a listener set.  [UserFn f] is a function the
    application passed in; [OnceFn c node type f] is the closure number [c]
    that [addEventListener] builds around [f] for the [once] option, with the
    [node] and [type] it captured. *)
Inductive Listener :=
| UserFn (f : nat)
| OnceFn (c : nat) (node : ref) (type : string) (f : nat).

#[global] Instance Listener_eq_dec : EqDecision Listener.
Proof. solve_decision. Defined.

(** Modelled from the spec: the node records of [./types], with the fields
    that the object literals of [renderer.ts] give them; one record serves
    the five shapes.  The fields named [host...] are the ones the sources
    reach through the [Host...Key] constants, taken to be symbols;
    [stringKeyed] holds the properties with a plain string key ([tagName]
    on an element, [mode] and [delegatesFocus] on a shadow root), which are
    the ones [key in node] can see.  [hostEventListeners] holds the
    properties that the listener table, a plain object [{}], has of its
    own; what it inherits is told by [Js.inherited].  Only elements and
    shadow roots own a children array; the other shapes keep [hostChildren]
    empty. *)
Record HostNode := mkNode {
  hostType : HostNodeType;
  stringKeyed : list (string * Js.value);
  hostNamespace : string;
  hostParent : option ref;
  hostShadowRoot : option ref;
  hostChildren : list ref;
  hostAttributes : list HostAttribute;
  hostEventListeners : gmap string (list Listener);
  hostValue : Js.value;
}.

#[global] Instance HostNode_inhabited : Inhabited HostNode :=
  populate (mkNode Text [] "" None None [] [] ∅ Js.VUndefined).

Definition with_parent (p : option ref) (n : HostNode) : HostNode :=
  mkNode (hostType n) (stringKeyed n) (hostNamespace n) p (hostShadowRoot n)
         (hostChildren n) (hostAttributes n) (hostEventListeners n) (hostValue n).

Definition with_children (c : list ref) (n : HostNode) : HostNode :=
  mkNode (hostType n) (stringKeyed n) (hostNamespace n) (hostParent n)
         (hostShadowRoot n) c (hostAttributes n) (hostEventListeners n) (hostValue n).

Definition with_attributes (a : list HostAttribute) (n : HostNode) : HostNode :=
  mkNode (hostType n) (stringKeyed n) (hostNamespace n) (hostParent n)
         (hostShadowRoot n) (hostChildren n) a (hostEventListeners n) (hostValue n).

Definition with_eventListeners (e : gmap string (list Listener)) (n : HostNode) : HostNode :=
  mkNode (hostType n) (stringKeyed n) (hostNamespace n) (hostParent n)
         (hostShadowRoot n) (hostChildren n) (hostAttributes n) e (hostValue n).

Definition with_shadowRoot (s : option ref) (n : HostNode) : HostNode :=
  mkNode (hostType n) (stringKeyed n) (hostNamespace n) (hostParent n)
         s (hostChildren n) (hostAttributes n) (hostEventListeners n) (hostValue n).

Definition with_value (v : Js.value) (n : HostNode) : HostNode :=
  mkNode (hostType n) (stringKeyed n) (hostNamespace n) (hostParent n)
         (hostShadowRoot n) (hostChildren n) (hostAttributes n)
         (hostEventListeners n) v.

Definition with_stringKeyed (k : list (string * Js.value)) (n : HostNode) : HostNode :=
  mkNode (hostType n) k (hostNamespace n) (hostParent n)
         (hostShadowRoot n) (hostChildren n) (hostAttributes n)
         (hostEventListeners n) (hostValue n).

(** The store: the objects allocated so far, the next free reference, the
    next free closure number, and what was written to the console. *)
Record Store := mkStore {
  heap : gmap ref HostNode;
  nextRef : ref;
  nextClosure : nat;
  console : list string;
}.

Definition empty : Store := mkStore ∅ 0 0 [].

(** Reading through a reference. *)
Definition get (st : Store) (r : ref) : HostNode := heap st !!! r.

(** Writing through a reference. *)
Definition update (r : ref) (f : HostNode -> HostNode) (st : Store) : Store :=
  mkStore (<[r := f (get st r)]> (heap st)) (nextRef st) (nextClosure st) (console st).

(** Allocating a new object. *)
Definition alloc (n : HostNode) (st : Store) : Store * ref :=
  (mkStore (<[nextRef st := n]> (heap st)) (S (nextRef st)) (nextClosure st) (console st),
   nextRef st).

Definition log (msg : string) (st : Store) : Store :=
  mkStore (heap st) (nextRef st) (nextClosure st) (console st ++ [msg]).

End Host.


(* ===================================================================== *)
(** ** [engine-server/src/renderer.ts] *)
(* ===================================================================== *)

Module Renderer.
Import Host.

(** [addEventListener]'s last argument: left out, a boolean, or an options
    object of which [capture] and [once] are read. *)
Inductive ListenerOptions :=
| OptionsOmitted
| UseCapture (b : bool)
| Options (capture once : bool).

(** What a listener does with the event proxy it is handed: these are the
    calls that [dispatchEvent] can observe.  A listener's body is the list
    of the calls it makes and it returns normally; a listener that throws
    (the exception would leave [dispatchEvent], which catches nothing), or
    that itself changes the tree or the listener sets, is outside the
    model. *)
Inductive ProxyCall := StopPropagation | StopImmediatePropagation | PreventDefault.

#[global] Instance ProxyCall_eq_dec : EqDecision ProxyCall.
Proof. solve_decision. Defined.

Record Event := mkEvent {
  eventType : string;
  composed : bool;
}.

(** [stop] and [stopImmediately], the two variables that the closures of
    [dispatchEvent] share. *)
Record Flags := mkFlags {
  stop : bool;
  stopImmediately : bool;
}.

(** What a call of [dispatchEvent] leaves behind: the store, the listeners
    it invoked (with the node it was at) in order, and how it ended: with
    the value it returned, or with an exception. *)
Record Dispatched := mkDispatched {
  after : Store;
  invoked : list (ref * Listener);
  returned : Js.completion bool;
}.

(** [getClassList]'s result. *)
Record DOMTokenList := mkTokenList {
  classList_add : list string -> Store -> Store;
  classList_remove : list string -> Store -> Store;
}.

(** [key in node], for the string keys of the node (members inherited from
    [Object.prototype] are left out of the model). *)
Definition key_in (key : string) (n : HostNode) : bool :=
  bool_decide (key ∈ (stringKeyed n).*1).

(** [node[key]] for a string key. *)
Fixpoint read_key (key : string) (fields : list (string * Js.value)) : Js.value :=
  match fields with
  | [] => Js.VUndefined
  | (k, v) :: rest => if decide (k = key) then v else read_key key rest
  end.

(** [node[key] = value] for a key the node has. *)
Fixpoint write_key (key : string) (v : Js.value) (fields : list (string * Js.value))
  : list (string * Js.value) :=
  match fields with
  | [] => []
  | (k, w) :: rest =>
      if decide (k = key) then (k, v) :: rest else (k, w) :: write_key key v rest
  end.

Definition tagName (n : HostNode) : Js.value := read_key "tagName" (stringKeyed n).

(** [attr.name === name && attr[HostNamespaceKey] === namespace], where the
    namespace argument may be [undefined] ([None]), [null] or a string. *)
Definition same_key (name : string) (namespace : option (option string))
    (attr : HostAttribute) : bool :=
  bool_decide (Host.name attr = name)
  && bool_decide (Some (attrNamespace attr) = namespace).

(** A parameter declared [namespace: string | null = null]. *)
Definition defaultNull (namespace : option (option string)) : option (option string) :=
  match namespace with
  | None => Some None
  | Some ns => Some ns
  end.

Definition set_attr_value (v : Js.value) (a : HostAttribute) : HostAttribute :=
  mkAttr (name a) (attrNamespace a) v.

Section Shared.

(** What the file imports from [@lwc/shared], from [./utils/classes] and
    from the environment. *)
Variable HTML_NAMESPACE : string.
Variable isBooleanAttribute : string -> Js.value -> bool.
Variable isGlobalHtmlAttribute : string -> bool.
Variable isAriaAttribute : string -> bool.
Variable htmlPropertyToAttribute : string -> string.
Variable classNameToTokenList : Js.value -> list string.
Variable tokenListToClassName : list string -> string.
Variable production : bool.

(** The body of each function that the application registers as a
    listener. *)
Variable body : nat -> list ProxyCall.

Definition createElement (tagName : string) (namespace : option string) (st : Store)
  : Store * ref :=
  alloc (mkNode Element [("tagName", Js.VString tagName)]
                (default HTML_NAMESPACE namespace) None None [] [] ∅ Js.VUndefined) st.

Definition insert (node parent : ref) (anchor : option ref) (st : Store) : Store :=
  let nodeParent := hostParent (get st node) in
  let st :=
    match nodeParent with
    | Some nodeParent =>
        if decide (nodeParent ≠ parent) then
          let nodeIndex := Js.indexOf (hostChildren (get st nodeParent)) node in
          update nodeParent
            (with_children (Js.splice (hostChildren (get st nodeParent)) nodeIndex 1 [])) st
        else st
    | None => st
    end in
  let st := update node (with_parent (Some parent)) st in
  let anchorIndex :=
    match anchor with
    | None => (-1)%Z
    | Some anchor => Js.indexOf (hostChildren (get st parent)) anchor
    end in
  if decide (anchorIndex = (-1)%Z) then
    update parent (with_children (Js.push (hostChildren (get st parent)) node)) st
  else
    update parent
      (with_children (Js.splice (hostChildren (get st parent)) anchorIndex 0 [node])) st.

Definition remove (node parent : ref) (st : Store) : Store :=
  let nodeIndex := Js.indexOf (hostChildren (get st parent)) node in
  update parent (with_children (Js.splice (hostChildren (get st parent)) nodeIndex 1 [])) st.

Definition cloneNode (node : ref) (st : Store) : Store * ref := (st, node).

Definition createFragment (html : Js.value) (st : Store) : Store * ref :=
  alloc (mkNode Raw [] "" None None [] [] ∅ html) st.

Definition createText (content : Js.value) (st : Store) : Store * ref :=
  alloc (mkNode Text [] "" None None [] [] ∅ (Js.VString (Js.String content))) st.

Definition createComment (content : Js.value) (st : Store) : Store * ref :=
  alloc (mkNode Comment [] "" None None [] [] ∅ content) st.

Definition nextSibling (node : ref) (st : Store) : option ref :=
  match hostParent (get st node) with
  | None => None
  | Some parent =>
      let nodeIndex := Js.indexOf (hostChildren (get st parent)) node in
      Js.at_index (hostChildren (get st parent)) (nodeIndex + 1)
  end.

Definition attachShadow (element : ref) (mode : string) (delegatesFocus : Js.value)
    (st : Store) : Store * ref :=
  let '(st, shadowRoot) :=
    alloc (mkNode ShadowRoot
                  [("mode", Js.VString mode);
                   ("delegatesFocus", Js.VBool (Js.truthy delegatesFocus))]
                  "" (Some element) None [] [] ∅ Js.VUndefined) st in
  (update element (with_shadowRoot (Some shadowRoot)) st, shadowRoot).

Definition getAttribute (element : ref) (name : string)
    (namespace : option (option string)) (st : Store) : Js.value :=
  let namespace := defaultNull namespace in
  match Js.find (same_key name namespace) (hostAttributes (get st element)) with
  | Some attribute => value attribute
  | None => Js.VNull
  end.

Definition setAttribute (element : ref) (name : string) (value : Js.value)
    (namespace : option (option string)) (st : Store) : Store :=
  let namespace := defaultNull namespace in
  let attribute := Js.findIndex (same_key name namespace) (hostAttributes (get st element)) in
  let namespace :=
    match namespace with
    | None => None
    | Some ns => ns
    end in
  match attribute with
  | None =>
      update element
        (with_attributes
           (Js.push (hostAttributes (get st element))
                    (mkAttr name namespace (Js.VString (Js.String value))))) st
  | Some i =>
      update element
        (with_attributes (alter (set_attr_value value) i (hostAttributes (get st element)))) st
  end.

Definition removeAttribute (element : ref) (name : string)
    (namespace : option (option string)) (st : Store) : Store :=
  update element
    (with_attributes
       (Js.filter
          (fun attr => bool_decide (Host.name attr ≠ name)
                       && bool_decide (Some (attrNamespace attr) ≠ namespace))
          (hostAttributes (get st element)))) st.

Definition unexpected_access (key : string) : string :=
  "Unexpected " +:+ Js.dquote +:+ key +:+ Js.dquote +:+ " property access from the renderer".

Definition unexpected_set (key : string) (value : Js.value) : string :=
  "Unexpected attempt to set " +:+ Js.dquote +:+ key +:+ "=" +:+ Js.String value
    +:+ Js.dquote +:+ " property from the renderer".

Definition getProperty (node : ref) (key : string) (st : Store) : Store * Js.value :=
  let n := get st node in
  let unexpected :=
    if production then (st, Js.VUndefined)
    else (log (unexpected_access key) st, Js.VUndefined) in
  if key_in key n then (st, read_key key (stringKeyed n))
  else if decide (hostType n = Element) then
    let attrName := htmlPropertyToAttribute key in
    if isBooleanAttribute attrName (tagName n) then
      (st, Js.nullish (getAttribute node attrName None st) (Js.VBool false))
    else if isGlobalHtmlAttribute attrName || isAriaAttribute attrName then
      (st, getAttribute node attrName None st)
    else if bool_decide (tagName n = Js.VString "input") && bool_decide (key = "value") then
      (st, Js.nullish (getAttribute node "value" None st) (Js.VString ""))
    else unexpected
  else unexpected.

Definition setProperty (node : ref) (key : string) (value : Js.value) (st : Store) : Store :=
  let n := get st node in
  let unexpected := if production then st else log (unexpected_set key value) st in
  if key_in key n then update node (with_stringKeyed (write_key key value (stringKeyed n))) st
  else if decide (hostType n = Element) then
    let attrName := htmlPropertyToAttribute key in
    if bool_decide (key = "innerHTML") then
      let '(st, raw) := alloc (mkNode Raw [] "" (Some node) None [] [] ∅ value) st in
      update node (with_children [raw]) st
    else if isBooleanAttribute attrName (tagName n) then
      if bool_decide (value = Js.VBool true)
      then setAttribute node attrName (Js.VString "") None st
      else removeAttribute node attrName None st
    else if isGlobalHtmlAttribute attrName || isAriaAttribute attrName then
      setAttribute node attrName value None st
    else if bool_decide (tagName n = Js.VString "input") && bool_decide (attrName = "value") then
      match value with
      | Js.VNull | Js.VUndefined => removeAttribute node "value" None st
      | _ => setAttribute node "value" value None st
      end
    else unexpected
  else unexpected.

Definition setText (node : ref) (content : Js.value) (st : Store) : Store :=
  match hostType (get st node) with
  | Text => update node (with_value content) st
  | Element =>
      let '(st, text) := alloc (mkNode Text [] "" (Some node) None [] [] ∅ content) st in
      update node (with_children [text]) st
  | _ => st
  end.

(** [getClassAttribute], the helper inside [getClassList]: the store in
    which the [class] attribute exists, and its index in the attributes. *)
Definition getClassAttribute (element : ref) (st : Store) : Store * nat :=
  let isClass := fun attr : HostAttribute =>
    bool_decide (name attr = "class") && bool_decide (attrNamespace attr = None) in
  match Js.findIndex isClass (hostAttributes (get st element)) with
  | Some i => (st, i)
  | None =>
      (update element
         (with_attributes
            (Js.push (hostAttributes (get st element)) (mkAttr "class" None (Js.VString "")))) st,
       length (hostAttributes (get st element)))
  end.

Definition classAttribute_value (element : ref) (i : nat) (st : Store) : Js.value :=
  match hostAttributes (get st element) !! i with
  | Some a => value a
  | None => Js.VUndefined
  end.

Definition getClassList (element : ref) : DOMTokenList :=
  {| classList_add := fun names st =>
       let '(st, classAttribute) := getClassAttribute element st in
       let tokenList := classNameToTokenList (classAttribute_value element classAttribute st) in
       let tokenList := foldl Js.set_add tokenList names in
       update element
         (with_attributes
            (alter (set_attr_value (Js.VString (tokenListToClassName tokenList)))
                   classAttribute (hostAttributes (get st element)))) st;
     classList_remove := fun names st =>
       let '(st, classAttribute) := getClassAttribute element st in
       let tokenList := classNameToTokenList (classAttribute_value element classAttribute st) in
       let tokenList := foldl Js.set_delete tokenList names in
       update element
         (with_attributes
            (alter (set_attr_value (Js.VString (tokenListToClassName tokenList)))
                   classAttribute (hostAttributes (get st element)))) st |}.

Definition setCSSStyleProperty (element : ref) (name value : string) (important : bool)
    (st : Store) : Store :=
  let isStyle := fun attr : HostAttribute =>
    bool_decide (Host.name attr = "style") && bool_decide (attrNamespace attr = None) in
  let styleAttribute := Js.findIndex isStyle (hostAttributes (get st element)) in
  let serializedProperty :=
    name +:+ ": " +:+ value +:+ (if important then " !important" else "") in
  match styleAttribute with
  | None =>
      update element
        (with_attributes
           (Js.push (hostAttributes (get st element))
                    (mkAttr "style" None (Js.VString serializedProperty)))) st
  | Some i =>
      update element
        (with_attributes
           (alter (fun a => set_attr_value
                              (Js.plus_string (Host.value a) ("; " +:+ serializedProperty)) a)
                  i (hostAttributes (get st element)))) st
  end.

Definition isConnected (node : ref) (st : Store) : bool :=
  negb (bool_decide (hostParent (get st node) = None)).

(** The three [TypeError]s of a listener table that gives, for the event
    type, a member inherited from [Object.prototype] instead of a [Set]:
    the messages are those of V8. *)
Definition delete_is_not_a_function : string :=
  "TypeError: eventListeners.delete is not a function".
Definition add_is_not_a_function : string :=
  "TypeError: node[HostEventListenersKey][type].add is not a function".
Definition callbacks_is_not_iterable : string :=
  "TypeError: callbacks is not iterable".

(** The store after the call, and how the call ended.  [eventListeners] is
    the set that the table has of its own, or else the member it inherits,
    which is truthy and has no [delete]. *)
Definition removeEventListener (node : ref) (type : string) (callback : Listener)
    (st : Store) : Store * Js.completion unit :=
  if decide (hostType (get st node) ≠ Element) then (st, Js.Return tt)
  else
    match hostEventListeners (get st node) !! type with
    | Some eventListeners =>
        (update node
           (fun n => with_eventListeners
                       (<[type := Js.set_delete eventListeners callback]> (hostEventListeners n)) n)
           st,
         Js.Return tt)
    | None =>
        if Js.inherited type then (st, Js.Throw delete_is_not_a_function)
        else (st, Js.Return tt)
    end.

(** The store after the call, and how the call ended.  [type in table]
    holds for a set of the table's own and for an inherited member; in the
    second case no set is made, and [add] is called on the member. *)
Definition addEventListener (node : ref) (type : string) (callback : nat)
    (useCaptureOrOptions : ListenerOptions) (st : Store) : Store * Js.completion unit :=
  if decide (hostType (get st node) ≠ Element) then (st, Js.Return tt)
  else
    let given :=
      match useCaptureOrOptions with
      | OptionsOmitted => false
      | UseCapture b => b
      | Options _ _ => true
      end in
    let capturing :=
      match useCaptureOrOptions with
      | UseCapture true => true
      | Options capture _ => capture
      | _ => false
      end in
    let once :=
      match useCaptureOrOptions with
      | Options _ once => once
      | _ => false
      end in
    if given && capturing then (st, Js.Return tt)
    else
      let '(savedCallback, st) :=
        if given && once then
          (OnceFn (nextClosure st) node type callback,
           mkStore (heap st) (nextRef st) (S (nextClosure st)) (console st))
        else (UserFn callback, st) in
      match hostEventListeners (get st node) !! type with
      | Some _ =>
          (update node
             (fun n => with_eventListeners
                         (alter (fun s => Js.set_add s savedCallback) type
                                (hostEventListeners n)) n)
             st,
           Js.Return tt)
      | None =>
          if Js.inherited type then (st, Js.Throw add_is_not_a_function)
          else
            let st :=
              update node
                (fun n => with_eventListeners (<[type := []]> (hostEventListeners n)) n) st in
            (update node
               (fun n => with_eventListeners
                           (alter (fun s => Js.set_add s savedCallback) type
                                  (hostEventListeners n)) n)
               st,
             Js.Return tt)
      end.

(** One call through the event proxy. *)
Definition proxy_call (fl : Flags) (c : ProxyCall) : Flags :=
  match c with
  | StopPropagation => mkFlags true (stopImmediately fl)
  | StopImmediatePropagation => mkFlags true true
  | PreventDefault => fl
  end.

(** The function a member of a listener set ends up running. *)
Definition callee (l : Listener) : nat :=
  match l with
  | UserFn f => f
  | OnceFn _ _ _ f => f
  end.

(** [callback(eventProxy)]: the closure built for [once] runs the function it
    wraps and then, in its [finally] block, removes itself; an exception of
    [removeEventListener] is the closure's. *)
Definition invoke (l : Listener) (fl : Flags) (st : Store)
  : Flags * Store * Js.completion unit :=
  match l with
  | UserFn f => (foldl proxy_call fl (body f), st, Js.Return tt)
  | OnceFn c node type f =>
      let '(st, ended) := removeEventListener node type (OnceFn c node type f) st in
      (foldl proxy_call fl (body f), st, ended)
  end.

(** [for (const callback of callbacks) if (!stopImmediately) callback(eventProxy)].
    The only member a call can delete from the set being walked is the one
    that is running, so the walk sees the members the set had on entry.  An
    exception ends the walk. *)
Fixpoint forCallbacks (currentNode : ref) (callbacks : list Listener)
    (fl : Flags) (st : Store) (inv : list (ref * Listener))
  : Flags * Store * list (ref * Listener) * Js.completion unit :=
  match callbacks with
  | [] => (fl, st, inv, Js.Return tt)
  | callback :: rest =>
      if stopImmediately fl then forCallbacks currentNode rest fl st inv
      else
        let '(fl, st, ended) := invoke callback fl st in
        match ended with
        | Js.Return _ => forCallbacks currentNode rest fl st (inv ++ [(currentNode, callback)])
        | Js.Throw message => (fl, st, inv ++ [(currentNode, callback)], Js.Throw message)
        end
  end.

(** The first statement of the loop of [dispatchEvent]: on an element,
    [callbacks] is what the listener table gives for the event type.  A set
    of the table's own is walked; an inherited member is truthy and cannot
    be iterated. *)
Definition atCurrentNode (event : Event) (currentNode : ref)
    (fl : Flags) (st : Store) (inv : list (ref * Listener))
  : Flags * Store * list (ref * Listener) * Js.completion unit :=
  if decide (hostType (get st currentNode) = Element) then
    match hostEventListeners (get st currentNode) !! eventType event with
    | Some callbacks => forCallbacks currentNode callbacks fl st inv
    | None =>
        if Js.inherited (eventType event)
        then (fl, st, inv, Js.Throw callbacks_is_not_iterable)
        else (fl, st, inv, Js.Return tt)
    end
  else (fl, st, inv, Js.Return tt).

(** The [do ... while] loop of [dispatchEvent]: the store, the listeners
    invoked and how the loop ended; [None] when [fuel] passes through the
    loop do not end it. *)
Fixpoint doWhile (fuel : nat) (event : Event) (currentNode : ref)
    (fl : Flags) (st : Store) (inv : list (ref * Listener))
  : option (Store * list (ref * Listener) * Js.completion unit) :=
  match fuel with
  | O => None
  | S fuel =>
      let '(fl, st, inv, ended) := atCurrentNode event currentNode fl st inv in
      match ended with
      | Js.Throw message => Some (st, inv, Js.Throw message)
      | Js.Return _ =>
          match hostParent (get st currentNode) with
          | None => Some (st, inv, Js.Return tt)
          | Some next =>
              if negb (stop fl)
                 && (negb (bool_decide (hostType (get st next) = ShadowRoot)) || composed event)
              then doWhile fuel event next fl st inv
              else Some (st, inv, Js.Return tt)
          end
      end
  end.

Definition dispatchEvent (fuel : nat) (target : ref) (event : Event) (st : Store)
  : option Dispatched :=
  if decide (hostType (get st target) ≠ Element) then Some (mkDispatched st [] (Js.Return true))
  else
    match doWhile fuel event target (mkFlags false false) st [] with
    | Some (st, inv, Js.Return _) => Some (mkDispatched st inv (Js.Return true))
    | Some (st, inv, Js.Throw message) => Some (mkDispatched st inv (Js.Throw message))
    | None => None
    end.

End Shared.

End Renderer.


(* ===================================================================== *)
(** ** The SSR compiler: [compileTemplate] *)
(* ===================================================================== *)

Module CompileTemplate.

(** Modelled from the spec: the severity levels of [@lwc/errors], whose
    declaration is not among the sources.  The spec gives them as Fatal,
    Error and Warning/Info. *)
Inductive DiagnosticLevel := Fatal | Error | Warning | Info.

#[global] Instance DiagnosticLevel_eq_dec : EqDecision DiagnosticLevel.
Proof. solve_decision. Defined.

Record CompilerDiagnostic := mkDiagnostic {
  message : string;
  level : DiagnosticLevel;
}.

Definition failure : string :=
  "Template compilation failure; see warnings in the console.".

(** [warning.level === DiagnosticLevel.Fatal || warning.level === DiagnosticLevel.Error] *)
Definition blocking (warning : CompilerDiagnostic) : bool :=
  bool_decide (level warning = Fatal) || bool_decide (level warning = Error).

(** The [for ... of warnings] loop: what it writes to the console, and
    [fatal] when it ends. *)
Fixpoint forWarnings (warnings : list CompilerDiagnostic) (console : list string)
    (fatal : bool) : list string * bool :=
  match warnings with
  | [] => (console, fatal)
  | warning :: rest =>
      forWarnings rest
        (console ++ ["Cannot compile: " +:+ message warning])
        (if blocking warning then true else fatal)
  end.

Section Compile.

(** The template IR, the options, and the two collaborators: the parser, and
    everything [compileTemplate] does once the diagnostics are behind it
    (lowering to a program, scope tokens, stylesheet imports, the
    compilation mode, printing), which ends in the generated code or in an
    exception of its own. *)
Variable Root Options CompilationMode : Type.
Variable parse : string -> Options -> option Root * list CompilerDiagnostic.
Variable generate : Root -> string -> Options -> CompilationMode -> Js.completion string.

(** The result is what was written to the console and how the call ended. *)
Definition compileTemplate (src filename : string) (options : Options)
    (compilationMode : CompilationMode) : list string * Js.completion string :=
  let '(root, warnings) := parse src options in
  let notRoot := negb (bool_decide (is_Some root)) in
  let '(console, thrown) :=
    if notRoot || negb (bool_decide (length warnings = 0)) then
      let fatal := notRoot in
      let '(console, fatal) := forWarnings warnings [] fatal in
      (console, fatal || notRoot)
    else ([], false) in
  if thrown then (console, Js.Throw failure)
  else
    match root with
    | Some root => (console, generate root filename options compilationMode)
    | None => (console, Js.Throw "TypeError: root is null")
    end.

End Compile.

End CompileTemplate.

(* ===================================================================== *)
(** ** The SSR compiler: [getChildAttrsOrProps] of the component
       transformer *)
(* ===================================================================== *)

Module ComponentTransformer.

(** Modelled from the spec: the IR of [@lwc/template-compiler] is not among
    the sources; its attribute and property nodes are taken with the fields
    that [getChildAttrsOrProps] reads.  First, [value.value] of an IR
    literal, by its [typeof]. *)
Inductive IrLiteral :=
| LString (s : string)
| LBoolean (b : bool)
| LNumber (z : Z).

(** The [value] of an IR attribute or property, by its [type]. *)
Inductive IrExpression :=
| Literal (v : IrLiteral)
| Identifier (name : string)
| MemberExpression (object : IrExpression) (property : string)
| OtherNode (type : string).

(** The [type] of the IR node itself. *)
Inductive IrType := Attribute | Property.


#[global] Instance IrType_eq_dec : EqDecision IrType.
Proof. solve_decision. Defined.

Record IrAttribute := mkIr {
  name : string;
  value : IrExpression;
  type : IrType;
}.

Definition node_type (e : IrExpression) : string :=
  match e with
  | Literal _ => "Literal"
  | Identifier _ => "Identifier"
  | MemberExpression _ _ => "MemberExpression"
  | OtherNode t => t
  end.

Section Lowering.

(** Expressions of the generated code that come out of [expressionIrToEs],
    and the transformer context. *)
Variable EsLowered TransformerContext : Type.
Variable isValidIdentifier : string -> bool.
Variable normalizeStyleAttributeValue : string -> string.
Variable normalizeClassAttributeValue : string -> string.
Variable expressionIrToEs : IrExpression -> TransformerContext -> EsLowered.

(** [b.identifier(name)] or [b.literal(name)] *)
Inductive EsKey :=
| KeyIdentifier (name : string)
| KeyLiteral (name : string).

Inductive EsExpression :=
| EsLiteral (v : Js.value)
| EsExpr (e : EsLowered).

(** [b.property('init', key, value)] *)
Record EsProperty := mkProperty {
  key : EsKey;
  init : EsExpression;
}.

Definition key_name (k : EsKey) : string :=
  match k with
  | KeyIdentifier n => n
  | KeyLiteral n => n
  end.

(** The callback handed to [attrs.map]: a property, [undefined] ([None]), or
    an exception. *)
Definition lowerAttr (cxt : TransformerContext) (a : IrAttribute)
  : Js.completion (option EsProperty) :=
  let key := if isValidIdentifier (name a) then KeyIdentifier (name a) else KeyLiteral (name a) in
  match value a with
  | Literal (LString s) =>
      if bool_decide (name a = "style") then
        Js.Return (Some (mkProperty key (EsLiteral (Js.VString (normalizeStyleAttributeValue s)))))
      else if bool_decide (name a = "class") then
        let literalValue := normalizeClassAttributeValue s in
        if bool_decide (literalValue = "") then Js.Return None
        else Js.Return (Some (mkProperty key (EsLiteral (Js.VString literalValue))))
      else Js.Return (Some (mkProperty key (EsLiteral (Js.VString s))))
  | Literal (LBoolean b) =>
      if bool_decide (name a = "class") then Js.Return None
      else
        Js.Return (Some (mkProperty key
                    (EsLiteral (if decide (type a = Attribute) then Js.VString ""
                                else Js.VBool b))))
  | Identifier _ | MemberExpression _ _ =>
      Js.Return (Some (mkProperty key (EsExpr (expressionIrToEs (value a) cxt))))
  | _ => Js.Throw ("Unimplemented child attr IR node type: " +:+ node_type (value a))
  end.

(** [attrs.map(...)]: the first exception ends it. *)
Fixpoint mapAttrs (cxt : TransformerContext) (attrs : list IrAttribute)
  : Js.completion (list (option EsProperty)) :=
  match attrs with
  | [] => Js.Return []
  | a :: rest =>
      match lowerAttr cxt a with
      | Js.Throw msg => Js.Throw msg
      | Js.Return p =>
          match mapAttrs cxt rest with
          | Js.Throw msg => Js.Throw msg
          | Js.Return ps => Js.Return (p :: ps)
          end
      end
  end.

(** The object expression, as the list of its properties. *)
Definition getChildAttrsOrProps (attrs : list IrAttribute) (cxt : TransformerContext)
  : Js.completion (list EsProperty) :=
  match mapAttrs cxt attrs with
  | Js.Throw msg => Js.Throw msg
  | Js.Return ps => Js.Return (omap id ps)
  end.

End Lowering.

Arguments EsLiteral {EsLowered} v.
Arguments EsExpr {EsLowered} e.
Arguments mkProperty {EsLowered} key init.
Arguments key {EsLowered} _.
Arguments init {EsLowered} _.

End ComponentTransformer.

(* ===================================================================== *)
(** ** The SSR compiler: the [Component] transformer, and lowering *)
(* ===================================================================== *)

Module TemplateLowering.
Import ComponentTransformer.

(** Modelled from the spec: the component node of the template IR, whose
    declaration is in [@lwc/template-compiler], with the fields that the
    [Component] transformer reads on an element that has no children. *)
Record IrComponent := mkComponent {
  componentName : string;
  properties : list IrAttribute;
  attributes : list IrAttribute;
}.

Section Lowering.
Variable EsLowered TransformerContext : Type.
Variable isValidIdentifier : string -> bool.
Variable normalizeStyleAttributeValue : string -> string.
Variable normalizeClassAttributeValue : string -> string.
Variable expressionIrToEs : IrExpression -> TransformerContext -> EsLowered.

(** The [Component] transformer on an element without children, as far as
    the two objects that it hands to [bYieldFromChildGenerator]:
    [getChildAttrsOrProps(node.properties, cxt)], then
    [getChildAttrsOrProps(node.attributes, cxt)].  The arguments are
    evaluated in this order, and an exception of either call leaves the
    transformer. *)
Definition Component (node : IrComponent) (cxt : TransformerContext)
  : Js.completion (list (EsProperty EsLowered) * list (EsProperty EsLowered)) :=
  match getChildAttrsOrProps EsLowered TransformerContext isValidIdentifier
          normalizeStyleAttributeValue normalizeClassAttributeValue expressionIrToEs
          (properties node) cxt with
  | Js.Throw msg => Js.Throw msg
  | Js.Return childProps =>
      match getChildAttrsOrProps EsLowered TransformerContext isValidIdentifier
              normalizeStyleAttributeValue normalizeClassAttributeValue expressionIrToEs
              (attributes node) cxt with
      | Js.Throw msg => Js.Throw msg
      | Js.Return childAttrs => Js.Return (childProps, childAttrs)
      end
  end.

(** Modelled from the spec: what [compileTemplate] does after the
    diagnostics, for a template whose content is one custom element without
    children.  [templateIrToEsTree] of [./ir-to-es] is not among the
    sources; by the spec (4.2, step 4) lowering a nested custom element
    builds [childProps] and [childAttrs], which is what the [Component]
    transformer above does, and an error that lowering raises for an IR
    shape that it does not implement is not caught on the way out
    (4.1, and the lowering coverage gap of section 7).  [print] stands for
    the stages that turn what was lowered into the generated code. *)
Definition lowerAndPrint
    (print : list (EsProperty EsLowered) * list (EsProperty EsLowered) -> string)
    (cxt : TransformerContext) (root : IrComponent) : Js.completion string :=
  match Component root cxt with
  | Js.Throw msg => Js.Throw msg
  | Js.Return lowered => Js.Return (print lowered)
  end.

End Lowering.

End TemplateLowering.

(* ===================================================================== *)
(** ** The SSR compiler: the synthesized [generateMarkup] *)
(* ===================================================================== *)

Module GenerateMarkup.

(** What stands for the template function: [tmpl], or [instance.render()]. *)
Inductive RenderCall := TmplIdentifier | InstanceRender.

(** The statements of the function that [bGenerateMarkup] builds, one
    constructor per statement of the template; [W] is the type of the
    statements spliced in for the wire adapters. *)
Inductive Stmt (W : Type) :=
| DefaultAttrs
| DefaultProps
| FilterProperties (publicFields privateFields : list string)
| NewInstance (cls : string)
| EstablishContextfulRelationship
| ConnectWire (w : W)
| SetInternals
| SetIsConnected
| IfConnectedCallback (consequent : list (Stmt W))
| MutationTrackerEnable
| CallConnectedCallback
| MutationTrackerDisable
| ConstTmplFn (e : RenderCall)
| YieldOpenTag
| ConstHostHasScopedStylesheets (cls : string)
| ConstHostScopeToken
| YieldRenderAttrs
| YieldCloseAngle
| YieldTmplFn (cls : string)
| YieldClosingTag.

Arguments DefaultAttrs {W}.
Arguments DefaultProps {W}.
Arguments FilterProperties {W} publicFields privateFields.
Arguments NewInstance {W} cls.
Arguments EstablishContextfulRelationship {W}.
Arguments ConnectWire {W} w.
Arguments SetInternals {W}.
Arguments SetIsConnected {W}.
Arguments IfConnectedCallback {W} consequent.
Arguments MutationTrackerEnable {W}.
Arguments CallConnectedCallback {W}.
Arguments MutationTrackerDisable {W}.
Arguments ConstTmplFn {W} e.
Arguments YieldOpenTag {W}.
Arguments ConstHostHasScopedStylesheets {W} cls.
Arguments ConstHostScopeToken {W}.
Arguments YieldRenderAttrs {W}.
Arguments YieldCloseAngle {W}.
Arguments YieldTmplFn {W} cls.
Arguments YieldClosingTag {W}.

(** The items of a program's body. *)
Inductive ModuleItem (W : Type) :=
| Existing (n : nat)
| ImportDefault (local source : string)
| ImportNamed (specifiers : list (string * string))
| ExportGenerateMarkup (body : list (Stmt W)).

Arguments Existing {W} n.
Arguments ImportDefault {W} local source.
Arguments ImportNamed {W} specifiers.
Arguments ExportGenerateMarkup {W} body.

(** Modelled from the spec: the component metadata of [./types], with the
    fields that [addGenerateMarkupExport] reads. *)
Record ComponentMetaState (WireAdapter : Type) := mkState {
  hasRenderMethod : bool;
  privateFields : list string;
  publicFields : list string;
  tmplExplicitImports : bool;
  lwcClassName : string;
  wireAdapters : list WireAdapter;
}.

Arguments hasRenderMethod {WireAdapter} _.
Arguments privateFields {WireAdapter} _.
Arguments publicFields {WireAdapter} _.
Arguments tmplExplicitImports {WireAdapter} _.
Arguments lwcClassName {WireAdapter} _.
Arguments wireAdapters {WireAdapter} _.

Section Synthesis.

Variable W WireAdapter : Type.
Variable bWireAdaptersPlumbing : list WireAdapter -> list W.
(** [pathParse(filename).name] *)
Variable pathName : string -> string.

(** The body of the exported [generateMarkup], in the order of the
    template. *)
Definition bGenerateMarkup (publicFields privateFields : list string) (cls : string)
    (connectWire : list W) (renderCall : RenderCall) : list (Stmt W) :=
  [DefaultAttrs;
   DefaultProps;
   FilterProperties publicFields privateFields;
   NewInstance cls;
   EstablishContextfulRelationship]
  ++ (ConnectWire <$> connectWire)
  ++ [SetInternals;
      SetIsConnected;
      IfConnectedCallback
        [MutationTrackerEnable; CallConnectedCallback; MutationTrackerDisable];
      ConstTmplFn renderCall;
      YieldOpenTag;
      ConstHostHasScopedStylesheets cls;
      ConstHostScopeToken;
      YieldRenderAttrs;
      YieldCloseAngle;
      YieldTmplFn cls;
      YieldClosingTag].

Definition runtimeImports : list (string * string) :=
  [("fallbackTmpl", "__fallbackTmpl");
   ("filterProperties", "__filterProperties");
   ("mutationTracker", "__mutationTracker");
   ("renderAttrs", "__renderAttrs");
   ("SYMBOL__SET_INTERNALS", "__SYMBOL__SET_INTERNALS");
   ("establishContextfulRelationship", "__establishContextfulRelationship");
   ("connectContext", "__connectContext")].

Definition addGenerateMarkupExport (program : list (ModuleItem W))
    (state : ComponentMetaState WireAdapter) (filename : string) : list (ModuleItem W) :=
  let classIdentifier := lwcClassName state in
  let renderCall := if hasRenderMethod state then InstanceRender else TmplIdentifier in
  let program :=
    if negb (tmplExplicitImports state) then
      let defaultTmplPath := "./" +:+ pathName filename +:+ ".html" in
      ImportDefault "tmpl" defaultTmplPath :: program
    else program in
  let connectWireAdapterCode :=
    if bool_decide (length (wireAdapters state) ≠ 0)
    then bWireAdaptersPlumbing (wireAdapters state)
    else [] in
  let program := ImportNamed runtimeImports :: program in
  let program :=
    ImportNamed [("hasScopedStaticStylesheets", "hasScopedStaticStylesheets")] :: program in
  program
    ++ [ExportGenerateMarkup
          (bGenerateMarkup (publicFields state) (privateFields state) classIdentifier
                           connectWireAdapterCode renderCall)].

(** Running the function through: the statements it executes, in order, for
    an instance that has a [connectedCallback] or has none.  A generator
    that is abandoned, or a step that throws, leaves a prefix of this. *)
Fixpoint exec (connectedCallback : bool) (s : Stmt W) : list (Stmt W) :=
  match s with
  | IfConnectedCallback consequent =>
      if connectedCallback then flat_map (exec connectedCallback) consequent else []
  | _ => [s]
  end.

Definition run (connectedCallback : bool) (body : list (Stmt W)) : list (Stmt W) :=
  flat_map (exec connectedCallback) body.

(** In a run [tr], [a] has happened before every occurrence of [b]. *)
Definition precedes (a b : Stmt W) (tr : list (Stmt W)) : Prop :=
  ∀ pre post, tr = pre ++ b :: post -> a ∈ pre.

(** In a run [tr], every occurrence of [b] has [a] directly before it, and
    [c] directly after it unless the run ends there. *)
Definition bracketed (a b c : Stmt W) (tr : list (Stmt W)) : Prop :=
  ∀ pre post, tr = pre ++ b :: post ->
    (∃ pre', pre = pre' ++ [a]) ∧ (post = [] ∨ ∃ post', post = c :: post').

(** In a run [tr], [a] happens, and once only. *)
Definition happens_once (a : Stmt W) (tr : list (Stmt W)) : Prop :=
  ∃ pre post, tr = pre ++ a :: post ∧ (a ∉ pre) ∧ (a ∉ post).

(** The function that a program exports, when it exports one. *)
Definition exported (program : list (ModuleItem W)) : option (list (Stmt W)) :=
  match last program with
  | Some (ExportGenerateMarkup body) => Some body
  | _ => None
  end.

End Synthesis.

End GenerateMarkup.

(* ===================================================================== *)
(** ** Shapes of the store that the statements speak of *)
(* ===================================================================== *)

Module Invariants.
Import Host.

(** Single ownership: no children array holds a node twice, and a node
    that is in the children of [p] has [p] as its parent.  A node is then
    in at most one children array, at most once. *)
Definition single_owner (st : Store) : Prop :=
  ∀ p, NoDup (hostChildren (get st p))
       ∧ ∀ n, n ∈ hostChildren (get st p) -> hostParent (get st n) = Some p.

(** The chain of parent links from [n], [n] first, cut after [fuel]
    nodes. *)
Fixpoint ancestry (st : Store) (fuel : nat) (n : ref) : list ref :=
  match fuel with
  | O => []
  | S fuel =>
      n :: match hostParent (get st n) with
           | Some p => ancestry st fuel p
           | None => []
           end
  end.

(** The chain of parent links from [n] ends, at a node without a parent,
    within [fuel] nodes. *)
Fixpoint rooted (st : Store) (fuel : nat) (n : ref) : bool :=
  match fuel with
  | O => false
  | S fuel =>
      match hostParent (get st n) with
      | Some p => rooted st fuel p
      | None => true
      end
  end.


(** The chain of parent links from [n], [n] first, up to the first shadow
    root above [n], which is left out with all that is above it. *)
Fixpoint below_boundary (st : Store) (fuel : nat) (n : ref) : list ref :=
  match fuel with
  | O => []
  | S fuel =>
      n :: match hostParent (get st n) with
           | Some p =>
               if decide (hostType (get st p) = ShadowRoot) then []
               else below_boundary st fuel p
           | None => []
           end
  end.

(** The listener set of node [m] for the event type [t], empty when the
    node has none. *)
Definition listeners_at (st : Store) (m : ref) (t : string) : list Listener :=
  default [] (hostEventListeners (get st m) !! t).

(** Every closure built for [once] is in the set of the node and type it
    captured, and in no other: [addEventListener] puts it nowhere else. *)
Definition wrappers_local (st : Store) : Prop :=
  ∀ m t c node type f,
    OnceFn c node type f ∈ listeners_at st m t -> node = m ∧ type = t.

(** The closures in the store were numbered before [nextClosure]. *)
Definition closures_fresh (st : Store) : Prop :=
  ∀ m t c node type f,
    OnceFn c node type f ∈ listeners_at st m t -> c < nextClosure st.

(** The listener calls [stopPropagation] or [stopImmediatePropagation]. *)
Definition stops (body : nat -> list Renderer.ProxyCall) (l : Listener) : bool :=
  bool_decide (Renderer.StopPropagation ∈ body (Renderer.callee l)
               ∨ Renderer.StopImmediatePropagation ∈ body (Renderer.callee l)).

(** The listener calls [stopImmediatePropagation]. *)
Definition stops_immediately (body : nat -> list Renderer.ProxyCall) (l : Listener) : bool :=
  bool_decide (Renderer.StopImmediatePropagation ∈ body (Renderer.callee l)).


(** What a dispatch may do to the store: node types and parent links stay,
    listener sets lose members. *)
Definition evolves (st st' : Store) : Prop :=
  (∀ x, hostType (get st' x) = hostType (get st x))
  ∧ (∀ x, hostParent (get st' x) = hostParent (get st x))
  ∧ (∀ m t, listeners_at st' m t `sublist_of` listeners_at st m t).

(** The listener table of node [m] gives, for the type [t], a set or
    nothing: it has a set of its own, or [t] is not the name of a member it
    inherits. *)
Definition iterable (st : Store) (m : ref) (t : string) : bool :=
  bool_decide (is_Some (hostEventListeners (get st m) !! t)) || negb (Js.inherited t).

(** The options that make a capturing listener, which [addEventListener]
    leaves out. *)
Definition capturing (options : Renderer.ListenerOptions) : bool :=
  match options with
  | Renderer.UseCapture true | Renderer.Options true _ => true
  | _ => false
  end.

(** The function that [addEventListener] puts in the set, if any: none
    when the listener is a capturing one, and none when the call throws. *)
Definition saved (node : ref) (type : string) (callback : nat)
    (options : Renderer.ListenerOptions) (st : Store) : option Listener :=
  if capturing options || negb (iterable st node type) then None
  else
    Some match options with
         | Renderer.Options _ true => OnceFn (nextClosure st) node type callback
         | _ => UserFn callback
         end.




(** What identifies an attribute on its element. *)
Definition attr_key (a : HostAttribute) : string * option string :=
  (name a, attrNamespace a).

(** At most one attribute per name and namespace. *)
Definition unique_attributes (st : Store) (element : ref) : Prop :=
  NoDup (attr_key <$> hostAttributes (get st element)).

(** Every attribute value is a string. *)
Definition string_values (st : Store) (element : ref) : Prop :=
  Forall (fun a => Js.is_string (value a) = true) (hostAttributes (get st element)).

(** The operations on the attributes of one element. *)
Inductive AttributeOp :=
| SetAttribute (name : string) (value : Js.value) (namespace : option (option string))
| RemoveAttribute (name : string) (namespace : option (option string))
| SetCSSStyleProperty (name value : string) (important : bool)
| ClassListAdd (names : list string)
| ClassListRemove (names : list string).

(** The operation passes strings only. *)
Definition passes_strings (op : AttributeOp) : Prop :=
  match op with
  | SetAttribute _ v _ => Js.is_string v = true
  | _ => True
  end.

Section Perform.
Variable classNameToTokenList : Js.value -> list string.
Variable tokenListToClassName : list string -> string.

Definition perform (element : ref) (st : Store) (op : AttributeOp) : Store :=
  match op with
  | SetAttribute name value namespace =>
      Renderer.setAttribute element name value namespace st
  | RemoveAttribute name namespace =>
      Renderer.removeAttribute element name namespace st
  | SetCSSStyleProperty name value important =>
      Renderer.setCSSStyleProperty element name value important st
  | ClassListAdd names =>
      Renderer.classList_add
        (Renderer.getClassList classNameToTokenList tokenListToClassName element) names st
  | ClassListRemove names =>
      Renderer.classList_remove
        (Renderer.getClassList classNameToTokenList tokenListToClassName element) names st
  end.

End Perform.
End Invariants.

(* ===================================================================== *)
(** ** Concrete stores, built with the renderer's own functions *)
(* ===================================================================== *)

Module Scenario.
Import Host Renderer.

Definition xhtml : string := "http://www.w3.org/1999/xhtml".

(** Two unattached elements, at references 0 and 1. *)
Definition two_elements : Store :=
  (createElement xhtml "span" None (createElement xhtml "div" None Host.empty).1).1.

(** Element 1 is the only child of element 0. *)
Definition parent_and_child : Store := insert 1 0 None two_elements.



(** An element chain that crosses a shadow root: the element 0 holds the
    element 1, which hosts the shadow root 2, which holds the element 3.
    Each element listens to [click]: 0 with the function 0, 1 with the
    function 10, 3 with the function 30. *)
Definition shadow_tree : Store :=
  insert 3 2 None
    (createElement xhtml "button" None
       (attachShadow 1 "open" Js.VUndefined
          (insert 1 0 None
             (createElement xhtml "x-host" None
                (createElement xhtml "x-outer" None Host.empty).1).1)).1).1.

Definition across_shadow_root : Store :=
  (addEventListener 0 "click" 0 OptionsOmitted
     (addEventListener 1 "click" 10 OptionsOmitted
        (addEventListener 3 "click" 30 OptionsOmitted shadow_tree).1).1).1.

(** Listeners that call nothing on the event. *)
Definition quiet : nat -> list ProxyCall := fun _ => [].



(** Element 0 with the attributes [id] and [title], both in the null
    namespace. *)
Definition two_attributes : Store :=
  setAttribute 0 "title" (Js.VString "b") None
    (setAttribute 0 "id" (Js.VString "a") None two_elements).

End Scenario.

(* ===================================================================== *)
(** ** What the statements expect of the attributes *)
(* ===================================================================== *)

Module Expected.
Import Host.

(** One declaration of a [style] attribute, as [setCSSStyleProperty] is
    asked to add it: the property, its value, and whether it is
    important. *)
Definition declaration (d : string * string * bool) : string :=
  d.1.1 +:+ ": " +:+ d.1.2 +:+ (if d.2 then " !important" else "").

(** The text of a [style] attribute that holds the declarations. *)
Definition declarations (ds : list (string * string * bool)) : string :=
  String.concat "; " (declaration <$> ds).

(** The attributes hold one of that name and namespace. *)
Definition has_key (name : string) (namespace : option string) (l : list HostAttribute)
  : Prop :=
  (name, namespace) ∈ Invariants.attr_key <$> l.

(** The element has an attribute of that name and namespace. *)
Definition has_attribute (st : Store) (element : ref) (name : string)
    (namespace : option string) : Prop :=
  has_key name namespace (hostAttributes (get st element)).

#[global] Instance has_attribute_dec st element name namespace :
  Decision (has_attribute st element name namespace).
Proof. unfold has_attribute, has_key. apply _. Defined.

End Expected.

(* ===================================================================== *)
(** ** What the statements expect of a dispatch *)
(* ===================================================================== *)

Module ExpectedEvents.
Import Host Invariants.

(** The options under which [addEventListener] stores the callback
    itself. *)
Definition plain (options : Renderer.ListenerOptions) : Prop :=
  options = Renderer.OptionsOmitted
  ∨ options = Renderer.UseCapture false
  ∨ options = Renderer.Options false false.


(** The members of a listener set that a dispatch runs: all up to and
    including the first that calls [stopImmediatePropagation]. *)
Fixpoint heard (body : nat -> list Renderer.ProxyCall) (ls : list Listener) : list Listener :=
  match ls with
  | [] => []
  | l :: ls => l :: if stops_immediately body l then [] else heard body ls
  end.


(** The listeners that run, with the node they run at, when an event of
    type [t] visits the nodes of [nodes] in turn, as the listener sets of
    the store [st] tell: on each element the members that are heard, and no
    further node once one of them has stopped the propagation. *)
Fixpoint trace (body : nat -> list Renderer.ProxyCall) (st : Store) (t : string)
    (nodes : list ref) : list (ref * Listener) :=
  match nodes with
  | [] => []
  | n :: nodes =>
      let ls :=
        if decide (hostType (get st n) = Element) then heard body (listeners_at st n t)
        else [] in
      (pair n <$> ls) ++ if existsb (stops body) ls then [] else trace body st t nodes
  end.


End ExpectedEvents.

(* ===================================================================== *)
(** ** What the statements expect of [getChildAttrsOrProps] *)
(* ===================================================================== *)

Module ExpectedLowering.
Import ComponentTransformer.

(** The attribute has a value that [getChildAttrsOrProps] knows how to
    lower: a string or boolean literal, an identifier or a member
    expression. *)
Definition lowerable (a : IrAttribute) : bool :=
  match value a with
  | Literal (LString _) | Literal (LBoolean _) | Identifier _ | MemberExpression _ _ => true
  | _ => false
  end.

(** The attribute is a [class] that would render empty: one with a boolean
    literal, or with a string literal that normalizes to the empty
    string. *)
Definition empty_class (normalizeClassAttributeValue : string -> string) (a : IrAttribute)
  : bool :=
  bool_decide (name a = "class")
  && match value a with
     | Literal (LString s) => bool_decide (normalizeClassAttributeValue s = "")
     | Literal (LBoolean _) => true
     | _ => false
     end.

End ExpectedLowering.

(* ===================================================================== *)
(** ** [engine-server/src/renderer.ts]: the custom elements *)
(* ===================================================================== *)

Module CustomElements.
Import Host.

(** Constructors are functions: they are compared by reference, and stand
    here as numbers. *)
Definition CustomElementConstructor := nat.

(** The two module-level tables: [registry], an object without a prototype
    that is keyed by tag name, and [reverseRegistry], a [WeakMap] keyed by
    constructor. *)
Record Registry := mkRegistry {
  registry : gmap string CustomElementConstructor;
  reverseRegistry : gmap CustomElementConstructor string;
}.

Definition empty : Registry := mkRegistry ∅ ∅.

(** [throw new TypeError(message)] is written with the name of the class
    before the message. *)
Definition invalid_registration : string := "TypeError: Invalid Registration".
Definition invalid_construction : string := "TypeError: Invalid Construction".

Section Registry.

Variable HTML_NAMESPACE : string.
(** [StringToLowerCase.call(name)] *)
Variable StringToLowerCase : string -> string.

(** The tables after the call, and how the call ended. *)
Definition registerCustomElement (name : string) (ctor : CustomElementConstructor)
    (reg : Registry) : Registry * Js.completion unit :=
  if bool_decide (name ≠ StringToLowerCase name) || bool_decide (is_Some (registry reg !! name))
  then (reg, Js.Throw invalid_registration)
  else (mkRegistry (<[name := ctor]> (registry reg)) (<[ctor := name]> (reverseRegistry reg)),
        Js.Return tt).

(** [new C()] for a class [C] that extends [HTMLElementImpl]: [constructor]
    is [C]. *)
Definition HTMLElementImpl (constructor : CustomElementConstructor) (reg : Registry)
    (st : Store) : Store * Js.completion ref :=
  match reverseRegistry reg !! constructor with
  | Some tagName =>
      if bool_decide (tagName = "") then (st, Js.Throw invalid_construction)
      else
        let '(st, element) := Renderer.createElement HTML_NAMESPACE tagName None st in
        (st, Js.Return element)
  | None => (st, Js.Throw invalid_construction)
  end.

Definition defineCustomElement (name : string) (constructor : CustomElementConstructor)
    (reg : Registry) : Registry * Js.completion unit :=
  registerCustomElement name constructor reg.

(** [None] stands for [undefined]. *)
Definition getCustomElement (name : string) (reg : Registry)
  : option CustomElementConstructor :=
  registry reg !! name.

(** The tables after a series of [defineCustomElement] calls, each given as
    the name and the constructor it was passed; the calls that throw leave
    the tables as they were. *)
Definition defineAll (calls : list (string * CustomElementConstructor)) (reg : Registry)
  : Registry :=
  foldl (fun reg call => (defineCustomElement call.1 call.2 reg).1) reg calls.

End Registry.

(** What holds of the two tables together: the name that the reverse table
    gives for a constructor is registered to that constructor, and every
    registered name is in lower case. *)
Definition consistent (StringToLowerCase : string -> string) (reg : Registry) : Prop :=
  (∀ c n, reverseRegistry reg !! c = Some n -> registry reg !! n = Some c)
  ∧ (∀ n c, registry reg !! n = Some c -> StringToLowerCase n = n).

End CustomElements.

(* ===================================================================== *)
(** ** The calls on the renderer, and the stores they build *)
(* ===================================================================== *)

Module Api.
Import Host Renderer.

(** The calls that the engine makes on the renderer to build and change the
    document.  The operations on the attributes of one element are those of
    [Invariants.AttributeOp]; the function handed to [removeEventListener]
    is one the application holds. *)
Inductive Call :=
| CreateElement (tagName : string) (namespace : option string)
| CreateText (content : Js.value)
| CreateComment (content : Js.value)
| CreateFragment (html : Js.value)
| Insert (node parent : ref) (anchor : option ref)
| Remove (node parent : ref)
| AttachShadow (element : ref) (mode : string) (delegatesFocus : Js.value)
| GetProperty (node : ref) (key : string)
| SetProperty (node : ref) (key : string) (value : Js.value)
| SetText (node : ref) (content : Js.value)
| OnAttributes (element : ref) (op : Invariants.AttributeOp)
| AddEventListener (node : ref) (type : string) (callback : nat) (options : ListenerOptions)
| RemoveEventListener (node : ref) (type : string) (callback : nat)
| DispatchEvent (fuel : nat) (target : ref) (event : Event).

(** The node type has a children array. *)
Definition container (t : HostNodeType) : bool :=
  bool_decide (t = Element) || bool_decide (t = ShadowRoot).

(** The reference is to an object that was created. *)
Definition created (st : Store) (r : ref) : bool := bool_decide (r < nextRef st).

(** The call hands the renderer objects that were created, and of the
    types that the signature of the function asks for. *)
Definition well_typed (st : Store) (c : Call) : bool :=
  match c with
  | CreateElement _ _ | CreateText _ | CreateComment _ | CreateFragment _ => true
  | Insert node parent anchor =>
      created st node && created st parent && container (hostType (get st parent))
      && match anchor with
         | Some a => created st a
         | None => true
         end
  | Remove node parent =>
      created st node && created st parent && container (hostType (get st parent))
  | AttachShadow element _ _ | OnAttributes element _ =>
      created st element && bool_decide (hostType (get st element) = Element)
  | GetProperty node _ | SetProperty node _ _ | SetText node _
  | AddEventListener node _ _ _ | RemoveEventListener node _ _ | DispatchEvent _ node _ =>
      created st node
  end.

Section Run.

Variable HTML_NAMESPACE : string.
Variable isBooleanAttribute : string -> Js.value -> bool.
Variable isGlobalHtmlAttribute : string -> bool.
Variable isAriaAttribute : string -> bool.
Variable htmlPropertyToAttribute : string -> string.
Variable classNameToTokenList : Js.value -> list string.
Variable tokenListToClassName : list string -> string.
Variable production : bool.
Variable body : nat -> list ProxyCall.

(** The store after the call, whether it returned or threw.  A dispatch
    that does not end within its fuel leaves no store behind; it is given
    the one it started from. *)
Definition call (st : Store) (c : Call) : Store :=
  match c with
  | CreateElement tagName namespace => (createElement HTML_NAMESPACE tagName namespace st).1
  | CreateText content => (createText content st).1
  | CreateComment content => (createComment content st).1
  | CreateFragment html => (createFragment html st).1
  | Insert node parent anchor => insert node parent anchor st
  | Remove node parent => remove node parent st
  | AttachShadow element mode delegatesFocus =>
      (attachShadow element mode delegatesFocus st).1
  | GetProperty node key =>
      (getProperty isBooleanAttribute isGlobalHtmlAttribute isAriaAttribute
                   htmlPropertyToAttribute production node key st).1
  | SetProperty node key value =>
      setProperty isBooleanAttribute isGlobalHtmlAttribute isAriaAttribute
                  htmlPropertyToAttribute production node key value st
  | SetText node content => setText node content st
  | OnAttributes element op =>
      Invariants.perform classNameToTokenList tokenListToClassName element st op
  | AddEventListener node type callback options =>
      (addEventListener node type callback options st).1
  | RemoveEventListener node type callback =>
      (removeEventListener node type (UserFn callback) st).1
  | DispatchEvent fuel target event =>
      match dispatchEvent body fuel target event st with
      | Some r => after r
      | None => st
      end
  end.

(** The store after a series of calls, when each of them is well typed
    where it is made. *)
Fixpoint calls (cs : list Call) (st : Store) : option Store :=
  match cs with
  | [] => Some st
  | c :: cs => if well_typed st c then calls cs (call st c) else None
  end.

End Run.

(** What holds of one node of the store: its children, its parent and its
    shadow root were created, only elements and shadow roots have children
    or are parents, the closures in its listener sets are where they belong
    and were numbered, only elements have listeners or attributes, and no
    two attributes have the same name and namespace. *)
Record node_ok (st : Store) (r : ref) (n : HostNode) : Prop := {
  ok_children : ∀ c, c ∈ hostChildren n -> c < nextRef st;
  ok_container : hostChildren n ≠ [] -> container (hostType n) = true;
  ok_parent : ∀ p, hostParent n = Some p ->
                   p < nextRef st ∧ container (hostType (get st p)) = true;
  ok_shadowRoot : ∀ s, hostShadowRoot n = Some s -> s < nextRef st;
  ok_listeners : ∀ t c node type f,
      OnceFn c node type f ∈ default [] (hostEventListeners n !! t) ->
      node = r ∧ type = t ∧ c < nextClosure st;
  ok_element : hostType n ≠ Element ->
               (∀ t, default [] (hostEventListeners n !! t) = []) ∧ hostAttributes n = [];
  ok_attributes : NoDup (Invariants.attr_key <$> hostAttributes n);
}.

(** What holds of the store: the references given out so far are those of
    the objects it holds, and every node is as above. *)
Definition well_formed (st : Store) : Prop :=
  (∀ r, is_Some (heap st !! r) ↔ r < nextRef st)
  ∧ ∀ r, node_ok st r (get st r).

End Api.

(* ===================================================================== *)
(** ** More concrete stores, and calls *)
(* ===================================================================== *)

Module Examples.
Import Host Renderer Api.

(** Stand-ins for the functions of [@lwc/shared]: [hidden] is the one
    boolean attribute, [title] the one global attribute, and a property has
    the name of its attribute. *)
Definition isBooleanAttribute (attrName : string) (tagName : Js.value) : bool :=
  bool_decide (attrName = "hidden").
Definition isGlobalHtmlAttribute (attrName : string) : bool :=
  bool_decide (attrName = "title").
Definition isAriaAttribute (attrName : string) : bool := false.
Definition htmlPropertyToAttribute (key : string) : string := key.

(** An [input] element, at reference 0. *)
Definition one_input : Store := (createElement Scenario.xhtml "input" None Host.empty).1.


(** The calls that build [Scenario.two_elements]. *)
Definition two_creations : list Call :=
  [CreateElement "div" None; CreateElement "span" None].

(** A session: two elements, the second put under the first and given a
    shadow root, an attribute and a listener for one [click]; then a text
    for the first, which takes the second out of its children, and a
    [click] on the second. *)
Definition session : list Call :=
  [CreateElement "div" None;
   CreateElement "span" None;
   Insert 1 0 None;
   AttachShadow 1 "open" Js.VUndefined;
   OnAttributes 1 (Invariants.SetAttribute "id" (Js.VString "a") None);
   AddEventListener 1 "click" 7 (Options false true);
   SetText 0 (Js.VString "x");
   DispatchEvent 3 1 (mkEvent "click" true)].

(** The renderer's calls, with the stand-ins above, in production mode and
    with listeners that call nothing. *)
Definition calls (cs : list Call) (st : Store) : option Store :=
  Api.calls Scenario.xhtml isBooleanAttribute isGlobalHtmlAttribute isAriaAttribute
            htmlPropertyToAttribute (fun _ => []) (fun _ => "") true Scenario.quiet cs st.

End Examples.

(* ===================================================================== *)
(** ** Proof steps that recur *)
(* ===================================================================== *)

Module Tactics.

(** Membership in a run written as concrete pieces around the wire
    statements. *)
Ltac not_in_run H :=
  repeat match type of H with
         | _ ∈ _ ++ _ => apply elem_of_app in H as [H|H]
         | _ ∈ _ <$> _ => apply list_elem_of_fmap in H as (? & ? & ?); discriminate
         | _ ∈ _ :: _ => apply elem_of_cons in H as [H|H]; [discriminate|]
         | _ ∈ [] => by apply elem_of_nil in H
         | _ ∈ (if ?c then _ else _) => destruct c
         end.

(** The step [a] of a run that is written as [pre], [a] and the rest. *)
Ltac once_at pre :=
  exists pre; eexists; split;
  [rewrite <- ?app_assoc; reflexivity
  |split; let H := fresh in intros H; not_in_run H].

End Tactics.

(* ===================================================================== *)
(** * Properties *)
(* ===================================================================== *)

(** ** Arrays *)

Module JsFacts.

Section Arrays.
Context {A : Type} `{EqDecision A}.
Implicit Types (l : list A) (x : A).

Lemma indexOf_from_notin l x i : x ∉ l -> Js.indexOf_from i l x = (-1)%Z.
Proof.
  revert i. induction l as [|y l IH]; intros i Hx; simpl; [done|].
  apply not_elem_of_cons in Hx as [Hne Hx].
  destruct (decide (y = x)); [congruence|]. by apply IH.
Qed.

Lemma indexOf_notin l x : x ∉ l -> Js.indexOf l x = (-1)%Z.
Proof. apply indexOf_from_notin. Qed.

(** When [x] is a member, [indexOf] is the position of its first
    occurrence. *)
Lemma indexOf_from_in l x i :
  x ∈ l ->
  ∃ k : nat, Js.indexOf_from i l x = (i + Z.of_nat k)%Z
             ∧ l !! k = Some x ∧ x ∉ take k l.
Proof.
  revert i. induction l as [|y l IH]; intros i Hx; [by apply elem_of_nil in Hx|].
  simpl. destruct (decide (y = x)) as [->|Hne].
  - exists 0. split; [lia|]. split; [done|]. simpl. apply not_elem_of_nil.
  - apply elem_of_cons in Hx as [Hx|Hx]; [congruence|].
    destruct (IH (i + 1)%Z Hx) as (k & Hk & Hl & Hn).
    exists (S k). split; [lia|]. split; [done|].
    simpl. apply not_elem_of_cons. split; [congruence|done].
Qed.

Lemma indexOf_in l x :
  x ∈ l ->
  ∃ k : nat, Js.indexOf l x = Z.of_nat k ∧ l !! k = Some x ∧ x ∉ take k l.
Proof.
  intros Hx. destruct (indexOf_from_in l x 0 Hx) as (k & Hk & Hl & Hn).
  exists k. split; [|done]. unfold Js.indexOf. lia.
Qed.

Lemma indexOf_nonneg_or l x : Js.indexOf l x = (-1)%Z ∨ (0 <= Js.indexOf l x)%Z.
Proof.
  destruct (decide (x ∈ l)) as [Hx|Hx].
  - right. destruct (indexOf_in l x Hx) as (k & -> & _). lia.
  - left. by apply indexOf_notin.
Qed.

Lemma indexOf_minus_one l x : Js.indexOf l x = (-1)%Z -> x ∉ l.
Proof.
  intros Hi Hx. destruct (indexOf_in l x Hx) as (k & Hk & _). lia.
Qed.

(** [splice(k, 1)] at a position of the array deletes that position. *)
Lemma splice_delete_at l (k : nat) :
  k < length l -> Js.splice l (Z.of_nat k) 1 [] = take k l ++ drop (S k) l.
Proof.
  intros Hk. unfold Js.splice.
  destruct (Z.ltb_spec (Z.of_nat k) 0) as [?|_]; [lia|].
  rewrite Z.min_l by lia. rewrite Z.max_l by lia.
  rewrite Z.min_l by lia. rewrite Nat2Z.id.
  replace (Z.to_nat (Z.of_nat k + 1)) with (S k) by lia. done.
Qed.

(** [splice(-1, 1)] deletes the last member. *)
Lemma splice_minus_one l : Js.splice l (-1) 1 [] = take (length l - 1) l.
Proof.
  unfold Js.splice. replace (-1 <? 0)%Z with true by done.
  destruct l as [|a l]; [done|].
  rewrite (drop_ge (a :: l)) by (simpl length; lia).
  rewrite !app_nil_r. f_equal. simpl length. lia.
Qed.

(** [splice(k, 0, x)] at a position of the array inserts before it. *)
Lemma splice_insert_at l (k : nat) x :
  k <= length l -> Js.splice l (Z.of_nat k) 0 [x] = take k l ++ x :: drop k l.
Proof.
  intros Hk. unfold Js.splice.
  destruct (Z.ltb_spec (Z.of_nat k) 0) as [?|_]; [lia|].
  rewrite Z.min_l by lia. rewrite Z.max_l by lia.
  rewrite Z.min_l by lia. rewrite Nat2Z.id.
  replace (Z.to_nat (Z.of_nat k + 0)) with k by lia. done.
Qed.

(** Pushing a new member and splicing it out at its [indexOf] gives the
    array back. *)
Lemma splice_indexOf_push l x :
  x ∉ l -> Js.splice (Js.push l x) (Js.indexOf (Js.push l x) x) 1 [] = l.
Proof.
  intros Hx. unfold Js.push.
  destruct (indexOf_in (l ++ [x]) x) as (k & Hk & Hl & Hn); [set_solver|].
  assert (k = length l) as ->.
  { destruct (decide (k < length l)) as [Hlt|Hge].
    - rewrite lookup_app_l in Hl by done.
      exfalso. apply Hx. by eapply list_elem_of_lookup_2.
    - apply lookup_lt_Some in Hl. rewrite length_app in Hl. simpl in Hl. lia. }
  rewrite Hk. rewrite splice_delete_at by (rewrite length_app; simpl; lia).
  rewrite take_app_length. rewrite drop_ge by (rewrite length_app; simpl; lia).
  by rewrite app_nil_r.
Qed.

Lemma elem_of_js_filter (p : A -> bool) l x : x ∈ Js.filter p l ↔ x ∈ l ∧ p x = true.
Proof.
  induction l as [|y l IH]; simpl.
  - split; [intros Hx; by apply elem_of_nil in Hx|intros [Hx _]; by apply elem_of_nil in Hx].
  - destruct (p y) eqn:Hp.
    + rewrite !elem_of_cons, IH. split.
      * intros [->|[? ?]]; auto.
      * intros [[->|?] ?]; auto.
    + rewrite elem_of_cons, IH. split.
      * intros [? ?]; auto.
      * intros [[->|?] ?]; [congruence|auto].
Qed.

Lemma js_filter_sublist (p : A -> bool) l : Js.filter p l `sublist_of` l.
Proof.
  induction l as [|y l IH]; simpl; [constructor|].
  destruct (p y); [by constructor|by apply sublist_cons].
Qed.

Lemma findIndex_Some (p : A -> bool) l i :
  Js.findIndex p l = Some i -> ∃ a, l !! i = Some a ∧ p a = true.
Proof.
  revert i. induction l as [|y l IH]; intros i; simpl; [done|].
  destruct (p y) eqn:Hp.
  - intros [= <-]. eauto.
  - destruct (Js.findIndex p l) as [j|] eqn:Hj; simpl; [|done].
    intros [= <-]. simpl. by apply IH.
Qed.

Lemma findIndex_None (p : A -> bool) l a :
  Js.findIndex p l = None -> a ∈ l -> p a = false.
Proof.
  induction l as [|y l IH]; simpl; intros Hf Ha; [by apply elem_of_nil in Ha|].
  destruct (p y) eqn:Hp; [done|].
  destruct (Js.findIndex p l) eqn:Hj; simpl in Hf; [done|].
  apply elem_of_cons in Ha as [->|Ha]; [done|by apply IH].
Qed.

End Arrays.

End JsFacts.

(** ** The store *)

Module HostFacts.
Import Host.

Lemma get_update r f st r' :
  get (update r f st) r' = if decide (r = r') then f (get st r) else get st r'.
Proof.
  unfold get, update. simpl. destruct (decide (r = r')) as [->|Hne].
  - by rewrite lookup_total_insert_eq.
  - by rewrite lookup_total_insert_ne.
Qed.

Lemma get_update_eq r f st : get (update r f st) r = f (get st r).
Proof. rewrite get_update. by destruct (decide (r = r)). Qed.

Lemma get_update_ne r f st r' : r ≠ r' -> get (update r f st) r' = get st r'.
Proof. intros Hne. rewrite get_update. by destruct (decide (r = r')). Qed.

Lemma update_update r f g st : update r f (update r g st) = update r (fun n => f (g n)) st.
Proof.
  unfold update. simpl. f_equal. rewrite insert_insert_eq. f_equal.
  unfold get. simpl. by rewrite lookup_total_insert_eq.
Qed.

Lemma update_ext r f g st : f (get st r) = g (get st r) -> update r f st = update r g st.
Proof. intros H. unfold update. by rewrite H. Qed.

End HostFacts.

(** ** The renderer: tree operations *)

Module TreeFacts.
Import Host Renderer HostFacts JsFacts.

(** [insert] leaves the children of [parent] alone until it adds [node] to
    them: the array it splices first belongs to another node. *)
Lemma insert_children_parent st node parent anchor :
  hostChildren (get (insert node parent anchor st) parent)
  = let c := hostChildren (get st parent) in
    let anchorIndex :=
      match anchor with
      | None => (-1)%Z
      | Some a => Js.indexOf c a
      end in
    if decide (anchorIndex = (-1)%Z) then Js.push c node
    else Js.splice c anchorIndex 0 [node].
Proof.
  unfold insert.
  set (st1 := match hostParent (get st node) with
              | Some np =>
                  if decide (np ≠ parent) then
                    update np (with_children
                      (Js.splice (hostChildren (get st np))
                                 (Js.indexOf (hostChildren (get st np)) node) 1 [])) st
                  else st
              | None => st
              end).
  assert (Hc1 : hostChildren (get st1 parent) = hostChildren (get st parent)).
  { subst st1. destruct (hostParent (get st node)) as [np|]; [|done].
    destruct (decide (np ≠ parent)) as [Hne|]; [|done].
    by rewrite get_update_ne. }
  set (st2 := update node (with_parent (Some parent)) st1).
  assert (Hc2 : hostChildren (get st2 parent) = hostChildren (get st parent)).
  { subst st2. rewrite get_update. destruct (decide (node = parent)) as [->|]; simpl; done. }
  rewrite Hc2. simpl.
  destruct (decide (_ = (-1)%Z)); rewrite get_update_eq; simpl; by rewrite ?Hc2.
Qed.

(** C8.  For every parent and every node that is not among the parent's
    children, [insert(node, parent, null)] followed by
    [remove(node, parent)] gives back the children array of [parent] as it
    was: the same references in the same order. *)
Theorem insert_then_remove_restores_children st node parent :
  node ∉ hostChildren (get st parent) ->
  hostChildren (get (remove node parent (insert node parent None st)) parent)
  = hostChildren (get st parent).
Proof.
  intros Hnotin. unfold remove. rewrite get_update_eq. simpl.
  rewrite insert_children_parent. simpl.
  by apply splice_indexOf_push.
Qed.

Lemma insert_then_remove_restores_children_witness :
  (1 ∉ hostChildren (get Scenario.two_elements 0))
  ∧ hostChildren (get (remove 1 0 (insert 1 0 None Scenario.two_elements)) 0)
    = hostChildren (get Scenario.two_elements 0).
Proof.
  assert (H : 1 ∉ hostChildren (get Scenario.two_elements 0)).
  { vm_compute. apply not_elem_of_nil. }
  split; [exact H|].
  exact (insert_then_remove_restores_children Scenario.two_elements 1 0 H).
Defined.

(** C10.  [cloneNode(n)] returns [n] itself and leaves the store as it is:
    no object is allocated, and a write through the returned reference is
    a write to [n]. *)
Theorem cloneNode_returns_the_node_itself st node :
  cloneNode node st = (st, node)
  ∧ nextRef (cloneNode node st).1 = nextRef st
  ∧ ∀ f, get (update (cloneNode node st).2 f (cloneNode node st).1) node
         = f (get st node).
Proof.
  split; [done|]. split; [done|]. intros f. simpl. apply get_update_eq.
Qed.

End TreeFacts.

(** ** The renderer: single ownership under [insert] *)

Module OwnershipFacts.
Import Host Renderer Invariants HostFacts JsFacts TreeFacts.

(** What [indexOf] followed by [splice(_, 1)] leaves of an array. *)
Lemma splice_indexOf_shape (c : list ref) (x : ref) :
  (∃ k, c !! k = Some x ∧ (x ∉ take k c)
        ∧ Js.splice c (Js.indexOf c x) 1 [] = take k c ++ drop (S k) c)
  ∨ ((x ∉ c) ∧ Js.splice c (Js.indexOf c x) 1 [] = take (length c - 1) c).
Proof.
  destruct (decide (x ∈ c)) as [Hx|Hx].
  - left. destruct (indexOf_in c x Hx) as (k & Hk & Hl & Hn).
    exists k. split; [done|]. split; [done|].
    rewrite Hk. apply splice_delete_at. by eapply lookup_lt_Some.
  - right. split; [done|]. rewrite (indexOf_notin c x Hx). apply splice_minus_one.
Qed.

Lemma splice_indexOf_sublist (c : list ref) (x : ref) :
  Js.splice c (Js.indexOf c x) 1 [] `sublist_of` c.
Proof.
  destruct (splice_indexOf_shape c x) as [(k & _ & _ & ->)|[_ ->]].
  - rewrite <- (take_drop k c) at 3. apply sublist_app; [done|].
    replace (S k) with (k + 1) by lia. rewrite <- drop_drop. apply sublist_drop.
  - apply sublist_take.
Qed.

Lemma splice_indexOf_notin (c : list ref) (x : ref) :
  NoDup c -> x ∉ Js.splice c (Js.indexOf c x) 1 [].
Proof.
  intros Hnd. destruct (splice_indexOf_shape c x) as [(k & Hl & Hn & ->)|[Hx ->]].
  - rewrite <- (take_drop_middle c k x Hl) in Hnd.
    apply NoDup_app in Hnd as (_ & Hdisj & Hnd2).
    apply NoDup_cons in Hnd2 as [Hx2 _].
    intros [Hin|Hin]%elem_of_app; [by apply Hn|by apply Hx2].
  - intros Hin. apply Hx. eapply elem_of_sublist; [exact Hin|apply sublist_take].
Qed.

(** What [insert] makes of the children of [parent]: [node] put in at some
    position. *)
Lemma inserted_shape (c : list ref) (anchor : option ref) (node : ref) :
  let anchorIndex :=
    match anchor with
    | None => (-1)%Z
    | Some a => Js.indexOf c a
    end in
  ∃ k, k <= length c
       ∧ (if decide (anchorIndex = (-1)%Z) then Js.push c node
          else Js.splice c anchorIndex 0 [node])
         = take k c ++ node :: drop k c.
Proof.
  simpl. destruct anchor as [a|].
  - destruct (decide (a ∈ c)) as [Ha|Ha].
    + destruct (indexOf_in c a Ha) as (k & Hk & Hl & _).
      apply lookup_lt_Some in Hl. exists k. split; [lia|].
      rewrite Hk. destruct (decide (Z.of_nat k = (-1)%Z)); [lia|].
      apply splice_insert_at. lia.
    + rewrite (indexOf_notin c a Ha). exists (length c). split; [done|].
      destruct (decide (_ = _)); [|done].
      unfold Js.push. by rewrite take_ge, drop_ge by lia.
  - exists (length c). split; [done|].
    destruct (decide (_ = _)); [|done].
    unfold Js.push. by rewrite take_ge, drop_ge by lia.
Qed.

(** The children of a node other than [parent] after [insert]: spliced when
    the node was the parent of [node], untouched otherwise. *)
Lemma insert_children_other st node parent anchor q :
  q ≠ parent ->
  hostChildren (get (insert node parent anchor st) q)
  = if decide (hostParent (get st node) = Some q)
    then Js.splice (hostChildren (get st q)) (Js.indexOf (hostChildren (get st q)) node) 1 []
    else hostChildren (get st q).
Proof.
  intros Hq. unfold insert.
  set (st1 := match hostParent (get st node) with
              | Some np =>
                  if decide (np ≠ parent) then
                    update np (with_children
                      (Js.splice (hostChildren (get st np))
                                 (Js.indexOf (hostChildren (get st np)) node) 1 [])) st
                  else st
              | None => st
              end).
  set (st2 := update node (with_parent (Some parent)) st1).
  assert (Hc1 : hostChildren (get st1 q)
                = if decide (hostParent (get st node) = Some q)
                  then Js.splice (hostChildren (get st q))
                                 (Js.indexOf (hostChildren (get st q)) node) 1 []
                  else hostChildren (get st q)).
  { subst st1. destruct (hostParent (get st node)) as [np|].
    - destruct (decide (np ≠ parent)) as [Hne|Heq].
      + rewrite get_update. destruct (decide (np = q)) as [->|Hnq].
        * destruct (decide (Some q = Some q)); [done|congruence].
        * destruct (decide (Some np = Some q)); [congruence|done].
      + destruct (decide (Some np = Some q)) as [[= ->]|]; [|done].
        exfalso. apply Heq. done.
    - destruct (decide (None = Some q)); done. }
  assert (Hc2 : hostChildren (get st2 q) = hostChildren (get st1 q)).
  { subst st2. rewrite get_update. destruct (decide (node = q)) as [->|]; done. }
  destruct (decide (_ = (-1)%Z)); rewrite get_update_ne by done; by rewrite Hc2, Hc1.
Qed.

(** The parent pointers after [insert]. *)
Lemma insert_parent st node parent anchor m :
  hostParent (get (insert node parent anchor st) m)
  = if decide (m = node) then Some parent else hostParent (get st m).
Proof.
  unfold insert.
  set (st1 := match hostParent (get st node) with
              | Some np =>
                  if decide (np ≠ parent) then
                    update np (with_children
                      (Js.splice (hostChildren (get st np))
                                 (Js.indexOf (hostChildren (get st np)) node) 1 [])) st
                  else st
              | None => st
              end).
  set (st2 := update node (with_parent (Some parent)) st1).
  assert (Hp1 : ∀ x, hostParent (get st1 x) = hostParent (get st x)).
  { intros x. subst st1. destruct (hostParent (get st node)) as [np|]; [|done].
    destruct (decide (np ≠ parent)); [|done].
    rewrite get_update. destruct (decide (np = x)) as [->|]; done. }
  assert (Hp2 : hostParent (get st2 m)
                = if decide (m = node) then Some parent else hostParent (get st m)).
  { subst st2. rewrite get_update. destruct (decide (node = m)) as [->|Hne].
    - destruct (decide (m = m)); [done|congruence].
    - destruct (decide (m = node)); [congruence|]. apply Hp1. }
  destruct (decide (_ = (-1)%Z)); rewrite get_update;
    destruct (decide (parent = m)) as [->|]; simpl; exact Hp2.
Qed.



Lemma ancestry_prefix st k k' m x : x ∈ ancestry st k m -> k <= k' -> x ∈ ancestry st k' m.
Proof.
  revert k' m. induction k as [|k IH]; intros k' m Hx Hle; [by apply elem_of_nil in Hx|].
  destruct k' as [|k']; [lia|]. simpl in *.
  apply elem_of_cons in Hx as [->|Hx]; [apply elem_of_cons; by left|].
  apply elem_of_cons; right.
  destruct (hostParent (get st m)) as [p|]; [|done]. apply IH; [done|lia].
Qed.


(** [insert] keeps single ownership when the node is not already under
    the destination. *)
Lemma insert_single_owner st node parent anchor :
  single_owner st ->
  hostParent (get st node) ≠ Some parent ->
  single_owner (insert node parent anchor st).
Proof.
  intros Hso Hnp.
  assert (Hnotin : node ∉ hostChildren (get st parent)).
  { intros Hin. apply Hnp. by apply (Hso parent). }
  intros q. destruct (decide (q = parent)) as [->|Hq].
  - rewrite insert_children_parent.
    destruct (inserted_shape (hostChildren (get st parent)) anchor node) as (k & Hk & Hshape).
    simpl in *. rewrite Hshape. clear Hshape.
    destruct (Hso parent) as [Hnd Hpar]. split.
    + rewrite <- (take_drop k (hostChildren (get st parent))) in Hnd, Hnotin.
      apply NoDup_app in Hnd as (Hnd1 & Hdisj & Hnd2).
      apply NoDup_app. split; [done|]. split.
      * intros x Hx [->|Hx2]%elem_of_cons.
        -- apply Hnotin. apply elem_of_app. by left.
        -- by apply (Hdisj x).
      * apply NoDup_cons. split; [|done].
        intros Hin. apply Hnotin. apply elem_of_app. by right.
    + intros n Hn. rewrite insert_parent.
      destruct (decide (n = node)) as [->|Hne]; [done|].
      apply Hpar.
      rewrite <- (take_drop k (hostChildren (get st parent))).
      apply elem_of_app in Hn as [Hn|Hn]; [apply elem_of_app; by left|].
      apply elem_of_cons in Hn as [->|Hn]; [congruence|apply elem_of_app; by right].
  - rewrite insert_children_other by done.
    destruct (Hso q) as [Hnd Hpar].
    destruct (decide (hostParent (get st node) = Some q)) as [Hold|Hold].
    + split.
      * eapply sublist_NoDup; [exact Hnd|apply splice_indexOf_sublist].
      * intros n Hn. rewrite insert_parent.
        destruct (decide (n = node)) as [->|Hne].
        -- exfalso. by apply (splice_indexOf_notin _ node Hnd).
        -- apply Hpar. eapply elem_of_sublist; [exact Hn|apply splice_indexOf_sublist].
    + split; [done|]. intros n Hn. rewrite insert_parent.
      destruct (decide (n = node)) as [->|Hne]; [|by apply Hpar].
      exfalso. apply Hold. by apply Hpar.
Qed.


End OwnershipFacts.

(** ** Concrete runs of the tree operations *)

Module TreeRuns.
Import Host Renderer Invariants HostFacts JsFacts OwnershipFacts.

Lemma two_elements_children p : hostChildren (get Scenario.two_elements p) = [].
Proof.
  unfold get, Scenario.two_elements, createElement, alloc, Host.empty. simpl.
  destruct (decide (p = 1)) as [->|H1]; [by rewrite lookup_total_insert_eq|].
  rewrite lookup_total_insert_ne by done.
  destruct (decide (p = 0)) as [->|H0]; [by rewrite lookup_total_insert_eq|].
  rewrite lookup_total_insert_ne by done.
  by rewrite lookup_total_empty.
Qed.

Lemma two_elements_single_owner : single_owner Scenario.two_elements.
Proof.
  intros p. rewrite two_elements_children. split; [constructor|].
  intros n Hn. by apply elem_of_nil in Hn.
Qed.





End TreeRuns.

(** ** The renderer: attributes *)

Module AttributeFacts.
Import Host Renderer HostFacts JsFacts.

(** What [removeAttribute] keeps: the attributes that differ from the
    arguments in name and in namespace, both. *)
Lemma removeAttribute_keeps st element name namespace a :
  a ∈ hostAttributes (get (removeAttribute element name namespace st) element)
  ↔ a ∈ hostAttributes (get st element)
    ∧ Host.name a ≠ name ∧ Some (attrNamespace a) ≠ namespace.
Proof.
  unfold removeAttribute. rewrite get_update_eq. simpl.
  rewrite elem_of_js_filter. rewrite andb_true_iff, !bool_decide_eq_true. tauto.
Qed.

(** C1 at a failing input.  On an element with the attributes [id] and
    [title], both in the null namespace, [removeAttribute(element, "id",
    null)] drops [title] with [id]: nothing is left, and [getAttribute] no
    longer finds [title]. *)
Theorem removeAttribute_drops_attribute_of_same_namespace :
  getAttribute 0 "title" (Some None) Scenario.two_attributes = Js.VString "b"
  ∧ hostAttributes (get (removeAttribute 0 "id" (Some None) Scenario.two_attributes) 0) = []
  ∧ getAttribute 0 "title" (Some None)
      (removeAttribute 0 "id" (Some None) Scenario.two_attributes) = Js.VNull.
Proof. vm_compute. done. Qed.

(** Updating an attribute stores the argument as it is. *)
Lemma setAttribute_update_raw st element name v namespace i :
  Js.findIndex (same_key name (defaultNull namespace)) (hostAttributes (get st element))
  = Some i ->
  hostAttributes (get (setAttribute element name v namespace st) element)
  = alter (set_attr_value v) i (hostAttributes (get st element)).
Proof.
  intros Hi. unfold setAttribute. rewrite Hi. by rewrite get_update_eq.
Qed.

(** Creating an attribute stores [String(value)]. *)
Lemma setAttribute_create_coerces st element name v namespace :
  Js.findIndex (same_key name (defaultNull namespace)) (hostAttributes (get st element))
  = None ->
  ∃ ns, hostAttributes (get (setAttribute element name v namespace st) element)
        = hostAttributes (get st element) ++ [mkAttr name ns (Js.VString (Js.String v))].
Proof.
  intros Hi. unfold setAttribute. rewrite Hi. rewrite get_update_eq. simpl.
  unfold Js.push. eauto.
Qed.

(** C9 at a failing input.  Setting [title] to the number 5 on a new
    element stores the string "5"; setting it to 5 once the attribute
    exists stores the number 5, which is no string.  [setProperty]
    reaches the same place for a global HTML attribute. *)
Theorem setAttribute_update_does_not_coerce :
  hostAttributes (get (setAttribute 0 "title" (Js.VNumber 5) None Scenario.two_elements) 0)
  = [mkAttr "title" None (Js.VString "5")]
  ∧ hostAttributes
      (get (setAttribute 0 "title" (Js.VNumber 5) None
              (setAttribute 0 "title" (Js.VString "a") None Scenario.two_elements)) 0)
    = [mkAttr "title" None (Js.VNumber 5)]
  ∧ hostAttributes
      (get (setProperty (fun _ _ => false) (fun a => bool_decide (a = "title"))
                        (fun _ => false) (fun key => key) true
                        0 "title" (Js.VNumber 5)
              (setAttribute 0 "title" (Js.VString "a") None Scenario.two_elements)) 0)
    = [mkAttr "title" None (Js.VNumber 5)].
Proof. vm_compute. done. Qed.

End AttributeFacts.

(** ** [compileTemplate]: when it fails *)

Module CompileFacts.
Import CompileTemplate.

Lemma forWarnings_spec warnings console fatal :
  forWarnings warnings console fatal
  = (console ++ ((fun w => "Cannot compile: " +:+ message w) <$> warnings),
     fatal || existsb blocking warnings).
Proof.
  revert console fatal. induction warnings as [|w ws IH]; intros console fatal; simpl.
  - by rewrite app_nil_r, orb_false_r.
  - rewrite IH. rewrite <- app_assoc. simpl. f_equal.
    destruct (blocking w), fatal; simpl; done.
Qed.

Lemma existsb_blocking warnings :
  existsb blocking warnings = true
  ↔ ∃ w, w ∈ warnings ∧ (level w = Fatal ∨ level w = Error).
Proof.
  rewrite existsb_exists. split.
  - intros (w & Hin & Hb). exists w. split; [by apply list_elem_of_In|].
    unfold blocking in Hb. apply orb_true_iff in Hb as [Hb|Hb];
      apply bool_decide_eq_true in Hb; auto.
  - intros (w & Hin & Hl). exists w. split; [by apply list_elem_of_In|].
    unfold blocking. apply orb_true_iff.
    destruct Hl as [Hl|Hl]; [left|right]; by apply bool_decide_eq_true.
Qed.

Lemma not_root {Root : Type} (root : option Root) :
  negb (bool_decide (is_Some root))
  = match root with Some _ => false | None => true end.
Proof.
  destruct root as [r|]; case_bool_decide as H; simpl; try done.
  all: try (exfalso; apply H; eauto); try (exfalso; by destruct H).
Qed.

Lemma no_warnings (warnings : list CompilerDiagnostic) :
  negb (bool_decide (length warnings = 0))
  = match warnings with [] => false | _ :: _ => true end.
Proof. destruct warnings; by case_bool_decide. Qed.

Section Gate.
Variable Root Options CompilationMode : Type.
Variable parse : string -> Options -> option Root * list CompilerDiagnostic.
Variable generate : Root -> string -> Options -> CompilationMode -> Js.completion string.

(** C7, as the code has it.  [compileTemplate] ends in the
    compilation-failure error exactly when the parser hands back no root or
    a warning whose level is Fatal or Error (the later stages raising errors
    of their own, not this one).  With a root and only warnings of lower
    levels, every warning is written to the console and the call ends as
    the later stages end: with the generated code when they return it, and
    with their exception when they throw one. *)
Theorem compileTemplate_fails_iff_no_root_or_blocking_warning
    (src filename : string) (options : Options) (mode : CompilationMode) :
  (∀ root, generate root filename options mode ≠ Js.Throw failure) ->
  ((compileTemplate Root Options CompilationMode parse generate src filename options mode).2
   = Js.Throw failure
   ↔ (parse src options).1 = None
     ∨ ∃ w, w ∈ (parse src options).2 ∧ (level w = Fatal ∨ level w = Error))
  ∧ (∀ root,
       (parse src options).1 = Some root ->
       (∀ w, w ∈ (parse src options).2 -> level w ≠ Fatal ∧ level w ≠ Error) ->
       compileTemplate Root Options CompilationMode parse generate src filename options mode
       = ((fun w => "Cannot compile: " +:+ message w) <$> (parse src options).2,
          generate root filename options mode)
       ∧ (∀ code, generate root filename options mode = Js.Return code ->
            (compileTemplate Root Options CompilationMode parse generate
               src filename options mode).2 = Js.Return code)
       ∧ (∀ msg, generate root filename options mode = Js.Throw msg ->
            (compileTemplate Root Options CompilationMode parse generate
               src filename options mode).2 = Js.Throw msg)).
Proof.
  intros Hgen.
  assert (Hlow : ∀ root,
            (parse src options).1 = Some root ->
            (∀ w, w ∈ (parse src options).2 -> level w ≠ Fatal ∧ level w ≠ Error) ->
            compileTemplate Root Options CompilationMode parse generate
              src filename options mode
            = ((fun w => "Cannot compile: " +:+ message w) <$> (parse src options).2,
               generate root filename options mode)).
  { unfold compileTemplate.
    destruct (parse src options) as [root warnings]. simpl.
    rewrite forWarnings_spec, not_root, no_warnings. simpl.
    intros r [= ->] Hlow. simpl.
    destruct warnings as [|w ws]; simpl; [done|].
    destruct (blocking w || existsb blocking ws) eqn:Hb; simpl; [|done].
    exfalso. apply (existsb_blocking (w :: ws)) in Hb as (w' & Hin & Hl).
    destruct (Hlow w' Hin) as [HnF HnE]. destruct Hl; done. }
  split.
  - clear Hlow. unfold compileTemplate.
    destruct (parse src options) as [root warnings]. simpl.
    rewrite forWarnings_spec, not_root, no_warnings. simpl.
    destruct root as [root|]; simpl.
    + destruct warnings as [|w ws]; simpl.
      * split; [intros H; by apply Hgen in H|].
        intros [?|(w & Hw & _)]; [done|by apply elem_of_nil in Hw].
      * destruct (blocking w || existsb blocking ws) eqn:Hb; simpl.
        -- split; [|done]. intros _. right.
           apply (existsb_blocking (w :: ws)). exact Hb.
        -- split; [intros H; by apply Hgen in H|].
           intros [?|Hex]; [done|].
           apply (existsb_blocking (w :: ws)) in Hex. simpl in Hex. congruence.
    + split; [auto|done].
  - intros root Hroot Hlevels. rewrite (Hlow root Hroot Hlevels). simpl.
    split; [done|]. split; [by intros code ->|by intros msg ->].
Qed.

End Gate.

(** A parser that returns a root and one warning of level Warning, and
    later stages that return code: the warning is written and the code is
    the result.  The same with a second warning, of level Error: the result
    is the compilation-failure error. *)
Lemma compileTemplate_fails_iff_no_root_or_blocking_warning_witness :
  compileTemplate unit unit unit
    (fun _ _ => (Some tt, [mkDiagnostic "unknown attribute" Warning]))
    (fun _ _ _ _ => Js.Return "export default tmpl")
    "<template></template>" "cmp.html" tt tt
  = (["Cannot compile: unknown attribute"], Js.Return "export default tmpl")
  ∧ (compileTemplate unit unit unit
       (fun _ _ => (Some tt, [mkDiagnostic "unknown attribute" Warning;
                              mkDiagnostic "unknown directive" Error]))
       (fun _ _ _ _ => Js.Return "export default tmpl")
       "<template></template>" "cmp.html" tt tt).2
    = Js.Throw failure.
Proof.
  split.
  - refine (proj1 (proj2 (compileTemplate_fails_iff_no_root_or_blocking_warning
                            unit unit unit
                            (fun _ _ => (Some tt, [mkDiagnostic "unknown attribute" Warning]))
                            (fun _ _ _ _ => Js.Return "export default tmpl")
                            "<template></template>" "cmp.html" tt tt _) tt _ _)).
    + intros root. discriminate.
    + reflexivity.
    + intros w Hw. apply list_elem_of_singleton in Hw. subst w. simpl.
      split; discriminate.
  - refine (proj2 (proj1 (compileTemplate_fails_iff_no_root_or_blocking_warning
                            unit unit unit
                            (fun _ _ => (Some tt, [mkDiagnostic "unknown attribute" Warning;
                                                   mkDiagnostic "unknown directive" Error]))
                            (fun _ _ _ _ => Js.Return "export default tmpl")
                            "<template></template>" "cmp.html" tt tt _)) _).
    + intros root. discriminate.
    + right. exists (mkDiagnostic "unknown directive" Error). split.
      * apply elem_of_cons. right. apply elem_of_cons. by left.
      * by right.
Defined.

(** C7 as stated fails: the parser returns a root and one warning of level
    Warning, the root being a custom element with a property whose value
    is a call expression, which [getChildAttrsOrProps] does not implement.
    The warning is written, and compilation ends in the error of the
    lowering, not in generated code. *)
Lemma compileTemplate_with_a_warning_ends_in_the_lowering_error :
  compileTemplate TemplateLowering.IrComponent unit unit
    (fun _ _ =>
       (Some (TemplateLowering.mkComponent "x-child"
                [ComponentTransformer.mkIr "label"
                   (ComponentTransformer.OtherNode "CallExpression")
                   ComponentTransformer.Property]
                []),
        [mkDiagnostic "unknown attribute" Warning]))
    (fun root _ _ _ =>
       TemplateLowering.lowerAndPrint unit unit (fun _ => true) (fun s => s) (fun s => s)
         (fun _ _ => tt) (fun _ => "export default tmpl") tt root)
    "<template><x-child label={label()}></x-child></template>" "cmp.html" tt tt
  = (["Cannot compile: unknown attribute"],
     Js.Throw "Unimplemented child attr IR node type: CallExpression").
Proof. vm_compute. reflexivity. Qed.

End CompileFacts.

(** ** The synthesized [generateMarkup]: the order of its steps *)

Module GenerateMarkupFacts.
Import GenerateMarkup Tactics.

Section Lists.
Context {A : Type}.
Implicit Types (l pre post : list A) (a b : A).

(** A member that occurs once splits the list in one way only. *)
Lemma unique_split X Y pre post b :
  X ++ b :: Y = pre ++ b :: post -> b ∉ X -> b ∉ Y -> pre = X ∧ post = Y.
Proof.
  revert pre. induction X as [|x X IH]; intros pre Heq HX HY.
  - destruct pre as [|p pre]; simpl in Heq.
    + by inversion Heq.
    + inversion Heq; subst. exfalso. apply HY. apply elem_of_app. right.
      apply elem_of_cons. by left.
  - apply not_elem_of_cons in HX as [Hne HX].
    destruct pre as [|p pre]; simpl in Heq.
    + inversion Heq; subst. done.
    + inversion Heq; subst. destruct (IH pre) as [-> ->]; done.
Qed.

(** What comes before the first [a] holds no [b]: then every [b] comes
    after an [a]. *)
Lemma before_first X Y pre post a b :
  X ++ a :: Y = pre ++ b :: post -> b ∉ X -> b ≠ a -> a ∈ pre.
Proof.
  revert pre. induction X as [|x X IH]; intros pre Heq HX Hne.
  - destruct pre as [|p pre]; simpl in Heq.
    + inversion Heq; subst. done.
    + inversion Heq; subst. apply elem_of_cons. by left.
  - apply not_elem_of_cons in HX as [Hnx HX].
    destruct pre as [|p pre]; simpl in Heq.
    + inversion Heq; subst. done.
    + inversion Heq; subst. apply elem_of_cons. right. by apply IH.
Qed.

End Lists.

Section Order.
Variable W WireAdapter : Type.
Variable bWireAdaptersPlumbing : list WireAdapter -> list W.
Variable pathName : string -> string.

Lemma flat_map_exec_wires (cc : bool) (ws : list W) :
  flat_map (exec W cc) (ConnectWire <$> ws) = ConnectWire <$> ws.
Proof. induction ws as [|w ws IH]; csimpl; [done|]. by rewrite IH. Qed.

(** The statements executed, from first to last. *)
Lemma run_bGenerateMarkup cc publicFields privateFields cls ws renderCall :
  run W cc (bGenerateMarkup W publicFields privateFields cls ws renderCall)
  = [DefaultAttrs; DefaultProps; FilterProperties publicFields privateFields;
     NewInstance cls; EstablishContextfulRelationship]
    ++ (ConnectWire <$> ws)
    ++ [SetInternals; SetIsConnected]
    ++ (if cc then [MutationTrackerEnable; CallConnectedCallback; MutationTrackerDisable]
        else [])
    ++ [ConstTmplFn renderCall; YieldOpenTag; ConstHostHasScopedStylesheets cls;
        ConstHostScopeToken; YieldRenderAttrs; YieldCloseAngle; YieldTmplFn cls;
        YieldClosingTag].
Proof.
  unfold run, bGenerateMarkup.
  rewrite !flat_map_app, flat_map_exec_wires. simpl. by destruct cc.
Qed.

Lemma addGenerateMarkupExport_exports program state filename :
  exported W (addGenerateMarkupExport W WireAdapter bWireAdaptersPlumbing pathName
                program state filename)
  = Some (bGenerateMarkup W (publicFields state) (privateFields state) (lwcClassName state)
            (if bool_decide (length (wireAdapters state) ≠ 0)
             then bWireAdaptersPlumbing (wireAdapters state) else [])
            (if hasRenderMethod state then InstanceRender else TmplIdentifier)).
Proof.
  unfold exported, addGenerateMarkupExport. by rewrite last_snoc.
Qed.

End Order.

Section Claim.
Variable W WireAdapter : Type.
Variable bWireAdaptersPlumbing : list WireAdapter -> list W.
Variable pathName : string -> string.

(** C4.  The function that [addGenerateMarkupExport] adds to the program
    takes these steps, for an instance with or without a
    [connectedCallback].  In a run that is not cut short, each of them is
    taken: the parent-context relationship is established, every statement
    spliced in for the wire adapters is executed, the internal state is
    assigned, [connectedCallback] is called when the instance has one, with
    the mutation tracker enabled and disabled, the opening tag and the host
    attributes are yielded and the template function is invoked, each once.
    And they are taken in this order, in every run and in every part of a
    run that a throwing step or an abandoned generator leaves ([tr] is a
    prefix of the full run): each statement spliced in for the wire adapters
    comes after the parent-context relationship is established and before
    the internal state is assigned, never after it; [connectedCallback] has
    the mutation tracker enabled directly before it and disabled directly
    after it, and all of this before the template function is invoked; the
    opening tag and the host attributes are yielded before the template
    function is invoked. *)
Theorem generateMarkup_steps_in_order
    (program : list (ModuleItem W)) (state : ComponentMetaState WireAdapter)
    (filename : string) :
  let wires :=
    if bool_decide (length (wireAdapters state) ≠ 0)
    then bWireAdaptersPlumbing (wireAdapters state) else [] in
  let cls := lwcClassName state in
  ∃ body,
    exported W (addGenerateMarkupExport W WireAdapter bWireAdaptersPlumbing pathName
                  program state filename) = Some body
    ∧ ∀ cc : bool,
        (happens_once W EstablishContextfulRelationship (run W cc body)
         ∧ (∀ w, w ∈ wires -> ConnectWire w ∈ run W cc body)
         ∧ happens_once W SetInternals (run W cc body)
         ∧ (cc = true ->
            happens_once W MutationTrackerEnable (run W cc body)
            ∧ happens_once W CallConnectedCallback (run W cc body)
            ∧ happens_once W MutationTrackerDisable (run W cc body))
         ∧ happens_once W YieldOpenTag (run W cc body)
         ∧ happens_once W YieldRenderAttrs (run W cc body)
         ∧ happens_once W (YieldTmplFn cls) (run W cc body))
        ∧ ∀ tr : list (Stmt W),
            tr `prefix_of` run W cc body ->
            (∀ w, w ∈ wires ->
               precedes W EstablishContextfulRelationship (ConnectWire w) tr
               ∧ precedes W (ConnectWire w) SetInternals tr
               ∧ ∀ pre post, tr = pre ++ ConnectWire w :: post -> SetInternals ∉ pre)
            ∧ precedes W EstablishContextfulRelationship SetInternals tr
            ∧ bracketed W MutationTrackerEnable CallConnectedCallback MutationTrackerDisable tr
            ∧ (cc = false -> CallConnectedCallback ∉ tr)
            ∧ (cc = true -> precedes W MutationTrackerDisable (YieldTmplFn cls) tr)
            ∧ precedes W SetInternals (YieldTmplFn cls) tr
            ∧ precedes W YieldOpenTag (YieldTmplFn cls) tr
            ∧ precedes W YieldRenderAttrs (YieldTmplFn cls) tr
            ∧ (cc = true -> precedes W CallConnectedCallback (YieldTmplFn cls) tr).
Proof.
  intros wires cls. eexists. split; [apply addGenerateMarkupExport_exports|].
  fold wires. fold cls.
  intros cc. split.
  { rewrite run_bGenerateMarkup. fold wires. fold cls.
    split; [|split; [|split; [|split; [|split; [|split]]]]].
    - once_at [@DefaultAttrs W; DefaultProps;
               FilterProperties (publicFields state) (privateFields state); NewInstance cls].
    - intros w Hw. apply elem_of_app. right. apply elem_of_app. left.
      apply list_elem_of_fmap. by exists w.
    - once_at ([@DefaultAttrs W; DefaultProps;
                FilterProperties (publicFields state) (privateFields state); NewInstance cls;
                EstablishContextfulRelationship] ++ (ConnectWire <$> wires)).
    - intros ->. split; [|split].
      + once_at ([@DefaultAttrs W; DefaultProps;
                  FilterProperties (publicFields state) (privateFields state);
                  NewInstance cls; EstablishContextfulRelationship]
                 ++ (ConnectWire <$> wires) ++ [SetInternals; SetIsConnected]).
      + once_at ([@DefaultAttrs W; DefaultProps;
                  FilterProperties (publicFields state) (privateFields state);
                  NewInstance cls; EstablishContextfulRelationship]
                 ++ (ConnectWire <$> wires)
                 ++ [SetInternals; SetIsConnected; MutationTrackerEnable]).
      + once_at ([@DefaultAttrs W; DefaultProps;
                  FilterProperties (publicFields state) (privateFields state);
                  NewInstance cls; EstablishContextfulRelationship]
                 ++ (ConnectWire <$> wires)
                 ++ [SetInternals; SetIsConnected; MutationTrackerEnable;
                     CallConnectedCallback]).
    - once_at ([@DefaultAttrs W; DefaultProps;
                FilterProperties (publicFields state) (privateFields state);
                NewInstance cls; EstablishContextfulRelationship]
               ++ (ConnectWire <$> wires) ++ [SetInternals; SetIsConnected]
               ++ (if cc then [MutationTrackerEnable; CallConnectedCallback;
                               MutationTrackerDisable] else [])
               ++ [ConstTmplFn (if hasRenderMethod state then InstanceRender
                                else TmplIdentifier)]).
    - once_at ([@DefaultAttrs W; DefaultProps;
                FilterProperties (publicFields state) (privateFields state);
                NewInstance cls; EstablishContextfulRelationship]
               ++ (ConnectWire <$> wires) ++ [SetInternals; SetIsConnected]
               ++ (if cc then [MutationTrackerEnable; CallConnectedCallback;
                               MutationTrackerDisable] else [])
               ++ [ConstTmplFn (if hasRenderMethod state then InstanceRender
                                else TmplIdentifier);
                   YieldOpenTag; ConstHostHasScopedStylesheets cls; ConstHostScopeToken]).
    - once_at ([@DefaultAttrs W; DefaultProps;
                FilterProperties (publicFields state) (privateFields state);
                NewInstance cls; EstablishContextfulRelationship]
               ++ (ConnectWire <$> wires) ++ [SetInternals; SetIsConnected]
               ++ (if cc then [MutationTrackerEnable; CallConnectedCallback;
                               MutationTrackerDisable] else [])
               ++ [ConstTmplFn (if hasRenderMethod state then InstanceRender
                                else TmplIdentifier);
                   YieldOpenTag; ConstHostHasScopedStylesheets cls; ConstHostScopeToken;
                   YieldRenderAttrs; YieldCloseAngle]). }
  intros tr [rest Hrun]. rewrite run_bGenerateMarkup in Hrun.
  set (FP := FilterProperties (publicFields state) (privateFields state)) in *.
  set (RC := ConstTmplFn (if hasRenderMethod state then InstanceRender else TmplIdentifier)) in *.
  assert (Hsplit : ∀ pre post b, tr = pre ++ b :: post ->
            [DefaultAttrs; DefaultProps; FP; NewInstance cls; EstablishContextfulRelationship]
            ++ (ConnectWire <$> wires) ++ [SetInternals; SetIsConnected]
            ++ (if cc then [MutationTrackerEnable; CallConnectedCallback;
                            MutationTrackerDisable] else [])
            ++ [RC; YieldOpenTag; ConstHostHasScopedStylesheets cls; ConstHostScopeToken;
                YieldRenderAttrs; YieldCloseAngle; YieldTmplFn cls; YieldClosingTag]
            = pre ++ b :: (post ++ rest)).
  { intros pre post b ->. rewrite Hrun. by rewrite <- app_assoc. }
  clear Hrun.
  repeat split.
  - (* a wire statement comes after the relationship is established *)
    intros pre post Htr. apply Hsplit in Htr.
    eapply (before_first [DefaultAttrs; DefaultProps; FP; NewInstance cls]);
      [exact Htr| |discriminate].
    intros Hin. subst FP. not_in_run Hin.
  - (* and before the internal state is assigned *)
    intros pre post Htr. apply Hsplit in Htr.
    apply list_elem_of_split in H as (w1 & w2 & Hw). rewrite Hw in Htr.
    rewrite fmap_app, fmap_cons in Htr.
    eapply (before_first
              ([DefaultAttrs; DefaultProps; FP; NewInstance cls;
                EstablishContextfulRelationship] ++ (ConnectWire <$> w1)));
      [rewrite <- Htr; by rewrite <- !app_assoc| |discriminate].
    intros Hin. subst FP. not_in_run Hin.
  - (* and never after it *)
    intros pre post Htr Hin. apply Hsplit in Htr.
    apply list_elem_of_split in Hin as (p1 & p2 & ->).
    rewrite <- app_assoc in Htr. simpl in Htr.
    destruct (unique_split
                ([DefaultAttrs; DefaultProps; FP; NewInstance cls;
                  EstablishContextfulRelationship] ++ (ConnectWire <$> wires))
                _ _ _ _ ltac:(rewrite <- Htr; by rewrite <- !app_assoc)) as [_ Hpost].
    + intros Hin. subst FP. not_in_run Hin.
    + intros Hin. subst RC. not_in_run Hin.
    + assert (Hw : ConnectWire w ∈ p2 ++ ConnectWire w :: post ++ rest).
      { apply elem_of_app. right. apply elem_of_cons. by left. }
      rewrite Hpost in Hw. subst RC. not_in_run Hw.
  - (* the relationship is established before the internal state is assigned *)
    intros pre post Htr. apply Hsplit in Htr.
    eapply (before_first [DefaultAttrs; DefaultProps; FP; NewInstance cls]);
      [exact Htr| |discriminate].
    intros Hin. subst FP. not_in_run Hin.
  - (* the tracker is enabled directly before connectedCallback *)
    apply Hsplit in H. destruct cc.
    + destruct (unique_split
                  ([DefaultAttrs; DefaultProps; FP; NewInstance cls;
                    EstablishContextfulRelationship] ++ (ConnectWire <$> wires)
                   ++ [SetInternals; SetIsConnected; MutationTrackerEnable])
                  _ _ _ _ ltac:(rewrite <- H; by rewrite <- !app_assoc)) as [-> _].
      * intros Hin. subst FP. not_in_run Hin.
      * intros Hin. subst RC. not_in_run Hin.
      * exists ([DefaultAttrs; DefaultProps; FP; NewInstance cls;
                 EstablishContextfulRelationship] ++ (ConnectWire <$> wires)
                ++ [SetInternals; SetIsConnected]).
        by rewrite <- !app_assoc.
    + exfalso.
      assert (Hin : CallConnectedCallback ∈ pre ++ CallConnectedCallback :: post ++ rest).
      { apply elem_of_app. right. apply elem_of_cons. by left. }
      rewrite <- H in Hin. subst FP RC. not_in_run Hin.
  - (* and disabled directly after it *)
    apply Hsplit in H. destruct cc.
    + destruct (unique_split
                  ([DefaultAttrs; DefaultProps; FP; NewInstance cls;
                    EstablishContextfulRelationship] ++ (ConnectWire <$> wires)
                   ++ [SetInternals; SetIsConnected; MutationTrackerEnable])
                  _ _ _ _ ltac:(rewrite <- H; by rewrite <- !app_assoc)) as [_ Hpost].
      * intros Hin. subst FP. not_in_run Hin.
      * intros Hin. subst RC. not_in_run Hin.
      * destruct post as [|c post]; [by left|right].
        simpl in Hpost. inversion Hpost; subst. eauto.
    + exfalso.
      assert (Hin : CallConnectedCallback ∈ pre ++ CallConnectedCallback :: post ++ rest).
      { apply elem_of_app. right. apply elem_of_cons. by left. }
      rewrite <- H in Hin. subst FP RC. not_in_run Hin.
  - (* no connectedCallback, no call *)
    intros -> Hin. apply list_elem_of_split in Hin as (pre & post & Htr).
    apply Hsplit in Htr.
    assert (Hin : CallConnectedCallback ∈ pre ++ CallConnectedCallback :: post ++ rest).
    { apply elem_of_app. right. apply elem_of_cons. by left. }
    rewrite <- Htr in Hin. subst FP RC. not_in_run Hin.
  - (* the tracker is disabled before the template function is invoked *)
    intros -> pre post Htr. apply Hsplit in Htr.
    eapply (before_first
              ([DefaultAttrs; DefaultProps; FP; NewInstance cls;
                EstablishContextfulRelationship] ++ (ConnectWire <$> wires)
               ++ [SetInternals; SetIsConnected; MutationTrackerEnable;
                   CallConnectedCallback]));
      [rewrite <- Htr; by rewrite <- !app_assoc| |discriminate].
    intros Hin. subst FP. not_in_run Hin.
  - (* the internal state is assigned before the template function is invoked *)
    intros pre post Htr. apply Hsplit in Htr.
    eapply (before_first
              ([DefaultAttrs; DefaultProps; FP; NewInstance cls;
                EstablishContextfulRelationship] ++ (ConnectWire <$> wires)));
      [rewrite <- Htr; by rewrite <- !app_assoc| |discriminate].
    intros Hin. subst FP. not_in_run Hin.
  - (* the opening tag is yielded before the template function is invoked *)
    intros pre post Htr. apply Hsplit in Htr.
    eapply (before_first
              ([DefaultAttrs; DefaultProps; FP; NewInstance cls;
                EstablishContextfulRelationship] ++ (ConnectWire <$> wires)
               ++ [SetInternals; SetIsConnected]
               ++ (if cc then [MutationTrackerEnable; CallConnectedCallback;
                               MutationTrackerDisable] else [])
               ++ [RC]));
      [rewrite <- Htr; by rewrite <- !app_assoc| |discriminate].
    intros Hin. subst FP RC. not_in_run Hin.
  - (* the host attributes are yielded before the template function is invoked *)
    intros pre post Htr. apply Hsplit in Htr.
    eapply (before_first
              ([DefaultAttrs; DefaultProps; FP; NewInstance cls;
                EstablishContextfulRelationship] ++ (ConnectWire <$> wires)
               ++ [SetInternals; SetIsConnected]
               ++ (if cc then [MutationTrackerEnable; CallConnectedCallback;
                               MutationTrackerDisable] else [])
               ++ [RC; YieldOpenTag; ConstHostHasScopedStylesheets cls;
                   ConstHostScopeToken]));
      [rewrite <- Htr; by rewrite <- !app_assoc| |discriminate].
    intros Hin. subst FP RC. not_in_run Hin.
  - (* connectedCallback is called before the template function is invoked *)
    intros -> pre post Htr. apply Hsplit in Htr.
    eapply (before_first
              ([DefaultAttrs; DefaultProps; FP; NewInstance cls;
                EstablishContextfulRelationship] ++ (ConnectWire <$> wires)
               ++ [SetInternals; SetIsConnected; MutationTrackerEnable]));
      [rewrite <- Htr; by rewrite <- !app_assoc| |discriminate].
    intros Hin. subst FP. not_in_run Hin.
Qed.

End Claim.

End GenerateMarkupFacts.

(** ** Boolean attribute values: lowering, and [setProperty] *)

Module BooleanFacts.
Import Host Renderer HostFacts JsFacts.

Section Find.
Context {A : Type}.

Lemma find_findIndex_None (p : A -> bool) (l : list A) :
  Js.findIndex p l = None -> Js.find p l = None.
Proof.
  induction l as [|y l IH]; simpl; [done|].
  destruct (p y); [done|].
  destruct (Js.findIndex p l); simpl; [done|]. intros _. by apply IH.
Qed.

(** Writing through the reference that [find] returned: [find] returns the
    written object afterwards, when the write leaves the test as it is. *)
Lemma find_alter (p : A -> bool) (f : A -> A) (l : list A) (i : nat) :
  (∀ a, p (f a) = p a) ->
  Js.findIndex p l = Some i -> Js.find p (alter f i l) = f <$> l !! i.
Proof.
  intros Hp. revert i. induction l as [|y l IH]; intros i; simpl; [done|].
  destruct (p y) eqn:Hy.
  - intros [= <-]. simpl. by rewrite Hp, Hy.
  - destruct (Js.findIndex p l) as [j|]; simpl; [|done].
    intros [= <-]. simpl. rewrite Hy. by apply IH.
Qed.

Lemma find_push_new (p : A -> bool) (l : list A) (a : A) :
  Js.findIndex p l = None -> p a = true -> Js.find p (l ++ [a]) = Some a.
Proof.
  intros Hn Ha. induction l as [|y l IH]; simpl in *; [by rewrite Ha|].
  destruct (p y); [done|].
  destruct (Js.findIndex p l); simpl in Hn; [done|]. by apply IH.
Qed.

Lemma find_none (p : A -> bool) (l : list A) :
  (∀ a, a ∈ l -> p a = false) -> Js.find p l = None.
Proof.
  induction l as [|y l IH]; intros Hall; simpl; [done|].
  rewrite (Hall y) by (apply elem_of_cons; by left).
  apply IH. intros a Ha. apply Hall. apply elem_of_cons. by right.
Qed.

End Find.

Lemma same_key_set_attr_value name namespace v a :
  same_key name namespace (set_attr_value v a) = same_key name namespace a.
Proof. done. Qed.

(** [getAttribute] after [setAttribute] with a string. *)
Lemma getAttribute_setAttribute_string st element name s :
  getAttribute element name None (setAttribute element name (Js.VString s) None st)
  = Js.VString s.
Proof.
  unfold getAttribute, setAttribute. simpl defaultNull.
  destruct (Js.findIndex _ _) as [i|] eqn:Hi; rewrite get_update_eq; simpl.
  - rewrite (find_alter _ _ _ i (same_key_set_attr_value name (Some None) (Js.VString s)) Hi).
    destruct (findIndex_Some _ _ _ Hi) as (a & -> & _). done.
  - unfold Js.push. rewrite (find_push_new _ _ _ Hi); [done|].
    unfold same_key. simpl. by rewrite !bool_decide_eq_true_2.
Qed.

(** [getAttribute] after [removeAttribute] without a namespace argument. *)
Lemma getAttribute_removeAttribute st element name :
  getAttribute element name None (removeAttribute element name None st) = Js.VNull.
Proof.
  unfold getAttribute, removeAttribute. rewrite get_update_eq. simpl.
  rewrite find_none; [done|].
  intros a [_ Hp]%elem_of_js_filter. apply andb_true_iff in Hp as [Hname _].
  apply bool_decide_eq_true in Hname. unfold same_key.
  by rewrite (bool_decide_eq_false_2 _ Hname).
Qed.

Section Lowered.
Import ComponentTransformer.
Variable EsLowered TransformerContext : Type.
Variable isValidIdentifier : string -> bool.
Variable normalizeStyleAttributeValue : string -> string.
Variable normalizeClassAttributeValue : string -> string.
Variable expressionIrToEs : IrExpression -> TransformerContext -> EsLowered.

Abbreviation mapAttrs :=
  (mapAttrs EsLowered TransformerContext isValidIdentifier normalizeStyleAttributeValue
            normalizeClassAttributeValue expressionIrToEs).
Abbreviation lowerAttr :=
  (lowerAttr EsLowered TransformerContext isValidIdentifier normalizeStyleAttributeValue
             normalizeClassAttributeValue expressionIrToEs).
Abbreviation getChildAttrsOrProps :=
  (getChildAttrsOrProps EsLowered TransformerContext isValidIdentifier
                        normalizeStyleAttributeValue normalizeClassAttributeValue
                        expressionIrToEs).

Lemma mapAttrs_middle cxt pre a post ps :
  mapAttrs cxt (pre ++ a :: post) = Js.Return ps ->
  ∃ ps1 p ps2,
    mapAttrs cxt pre = Js.Return ps1 ∧ lowerAttr cxt a = Js.Return p
    ∧ mapAttrs cxt post = Js.Return ps2 ∧ ps = ps1 ++ p :: ps2.
Proof.
  revert ps. induction pre as [|x pre IH]; intros ps; simpl.
  - destruct (lowerAttr cxt a) as [p|]; [|done].
    destruct (mapAttrs cxt post) as [ps2|]; [|done].
    intros [= <-]. exists [], p, ps2. done.
  - destruct (lowerAttr cxt x) as [q|]; [|done].
    destruct (mapAttrs cxt (pre ++ a :: post)) as [ps'|]; [|done].
    intros [= <-]. destruct (IH ps' eq_refl) as (ps1 & p & ps2 & -> & Hp & Hpost & ->).
    exists (q :: ps1), p, ps2. done.
Qed.

(** Lowering an attribute or property whose value is a boolean literal,
    wherever it stands among the others. *)
Lemma boolean_literal_lowered cxt pre post name b type props :
  getChildAttrsOrProps (pre ++ mkIr name (Literal (LBoolean b)) type :: post) cxt
  = Js.Return props ->
  ∃ ps1 ps2,
    getChildAttrsOrProps pre cxt = Js.Return ps1
    ∧ getChildAttrsOrProps post cxt = Js.Return ps2
    ∧ props
      = ps1
        ++ (if decide (name = "class") then []
            else [mkProperty
                    (if isValidIdentifier name then KeyIdentifier name else KeyLiteral name)
                    (EsLiteral (if decide (type = Attribute) then Js.VString ""
                                else Js.VBool b))])
        ++ ps2.
Proof.
  unfold ComponentTransformer.getChildAttrsOrProps.
  destruct (mapAttrs cxt (pre ++ _ :: post)) as [ps|] eqn:Hmap; [|done].
  intros [= <-].
  apply mapAttrs_middle in Hmap as (ps1 & p & ps2 & -> & Hp & -> & ->).
  exists (omap id ps1), (omap id ps2). split; [done|]. split; [done|].
  rewrite omap_app. f_equal. simpl.
  unfold ComponentTransformer.lowerAttr in Hp. simpl in Hp.
  case_bool_decide as Hclass.
  - inversion Hp; subst p. by destruct (decide (name = "class")).
  - inversion Hp; subst p. by destruct (decide (name = "class")).
Qed.

End Lowered.

Section Rendered.
Variable isBooleanAttribute : string -> Js.value -> bool.
Variable isGlobalHtmlAttribute : string -> bool.
Variable isAriaAttribute : string -> bool.
Variable htmlPropertyToAttribute : string -> string.
Variable production : bool.

Abbreviation setProperty :=
  (setProperty isBooleanAttribute isGlobalHtmlAttribute isAriaAttribute
               htmlPropertyToAttribute production).

(** [setProperty] on a property that reflects a boolean attribute. *)
Lemma setProperty_boolean st node key v :
  key_in key (get st node) = false ->
  hostType (get st node) = Element ->
  key ≠ "innerHTML" ->
  isBooleanAttribute (htmlPropertyToAttribute key) (tagName (get st node)) = true ->
  setProperty node key v st
  = if bool_decide (v = Js.VBool true)
    then setAttribute node (htmlPropertyToAttribute key) (Js.VString "") None st
    else removeAttribute node (htmlPropertyToAttribute key) None st.
Proof.
  intros Hkey Hty Hinner Hbool. unfold Renderer.setProperty.
  rewrite Hkey. destruct (decide (hostType (get st node) = Element)); [|done].
  rewrite (bool_decide_eq_false_2 _ Hinner). by rewrite Hbool.
Qed.

End Rendered.

(** C3, as the code has it.  Lowering ([getChildAttrsOrProps]): an
    attribute or property whose value is a boolean literal contributes, at
    its place among the others, nothing when its name is [class], the
    empty string when it is an attribute, whatever the boolean is, and the
    boolean itself when it is a property; so never the strings "true" or
    "false".  Rendering ([setProperty] on a property that reflects a boolean
    attribute): [true] leaves the attribute present with the empty string as
    its value, and any other value, [false] among them, leaves it absent. *)
Theorem boolean_values_lowered_and_rendered
    (EsLowered TransformerContext : Type)
    (isValidIdentifier : string -> bool)
    (normalizeStyleAttributeValue normalizeClassAttributeValue : string -> string)
    (expressionIrToEs : ComponentTransformer.IrExpression -> TransformerContext -> EsLowered)
    (isBooleanAttribute : string -> Js.value -> bool)
    (isGlobalHtmlAttribute isAriaAttribute : string -> bool)
    (htmlPropertyToAttribute : string -> string)
    (production : bool) :
  (∀ cxt pre post name b type props,
     ComponentTransformer.getChildAttrsOrProps EsLowered TransformerContext isValidIdentifier
       normalizeStyleAttributeValue normalizeClassAttributeValue expressionIrToEs
       (pre ++ ComponentTransformer.mkIr name
                 (ComponentTransformer.Literal (ComponentTransformer.LBoolean b)) type
            :: post) cxt
     = Js.Return props ->
     ∃ ps1 ps2,
       ComponentTransformer.getChildAttrsOrProps EsLowered TransformerContext
         isValidIdentifier normalizeStyleAttributeValue normalizeClassAttributeValue
         expressionIrToEs pre cxt = Js.Return ps1
       ∧ ComponentTransformer.getChildAttrsOrProps EsLowered TransformerContext
           isValidIdentifier normalizeStyleAttributeValue normalizeClassAttributeValue
           expressionIrToEs post cxt = Js.Return ps2
       ∧ props
         = ps1
           ++ (if decide (name = "class") then []
               else [ComponentTransformer.mkProperty
                       (if isValidIdentifier name
                        then ComponentTransformer.KeyIdentifier name
                        else ComponentTransformer.KeyLiteral name)
                       (ComponentTransformer.EsLiteral
                          (if decide (type = ComponentTransformer.Attribute)
                           then Js.VString "" else Js.VBool b))])
           ++ ps2)
  ∧ (∀ st node key v,
       key_in key (get st node) = false ->
       hostType (get st node) = Element ->
       key ≠ "innerHTML" ->
       isBooleanAttribute (htmlPropertyToAttribute key) (tagName (get st node)) = true ->
       getAttribute node (htmlPropertyToAttribute key) None
         (setProperty isBooleanAttribute isGlobalHtmlAttribute isAriaAttribute
                      htmlPropertyToAttribute production node key v st)
       = if bool_decide (v = Js.VBool true) then Js.VString "" else Js.VNull).
Proof.
  split.
  - intros cxt pre post name b type props. apply boolean_literal_lowered.
  - intros st node key v Hkey Hty Hinner Hbool.
    rewrite (setProperty_boolean _ _ _ _ _ st node key v Hkey Hty Hinner Hbool).
    case_bool_decide.
    + apply getAttribute_setAttribute_string.
    + apply getAttribute_removeAttribute.
Qed.

(** Lowering: of the attributes [hidden] (true) and [disabled] (false) and
    the property [checked] (false), the middle one is lowered to
    [disabled: ''] between what the other two give.  Rendering: the element
    at reference 0 gets its [hidden] property set to [true], which leaves
    the attribute with the empty string, and then to [false], which leaves
    it absent. *)
Lemma boolean_values_lowered_and_rendered_witness :
  let lower :=
    ComponentTransformer.getChildAttrsOrProps unit unit
      (fun _ => true) (fun s => s) (fun s => s) (fun _ _ => tt) in
  let boolean name b type :=
    ComponentTransformer.mkIr name
      (ComponentTransformer.Literal (ComponentTransformer.LBoolean b)) type in
  let key name v :=
    ComponentTransformer.mkProperty (ComponentTransformer.KeyIdentifier name)
      (ComponentTransformer.EsLiteral v) in
  let set v :=
    setProperty (fun a _ => bool_decide (a = "hidden")) (fun _ => false) (fun _ => false)
                (fun key => key) true 0 "hidden" v in
  (∃ ps1 ps2,
     lower [boolean "hidden" true ComponentTransformer.Attribute] tt = Js.Return ps1
     ∧ lower [boolean "checked" false ComponentTransformer.Property] tt = Js.Return ps2
     ∧ [key "hidden" (Js.VString ""); key "disabled" (Js.VString "");
        key "checked" (Js.VBool false)]
       = ps1 ++ [key "disabled" (Js.VString "")] ++ ps2)
  ∧ getAttribute 0 "hidden" None (set (Js.VBool true) Scenario.two_elements)
    = Js.VString ""
  ∧ getAttribute 0 "hidden" None
      (set (Js.VBool false) (set (Js.VBool true) Scenario.two_elements))
    = Js.VNull.
Proof.
  pose proof (boolean_values_lowered_and_rendered
                unit unit (fun _ => true) (fun s => s) (fun s => s) (fun _ _ => tt)
                (fun a _ => bool_decide (a = "hidden")) (fun _ => false) (fun _ => false)
                (fun key => key) true) as [Hlowered Hrendered].
  split; [|split].
  - exact (Hlowered tt
             [ComponentTransformer.mkIr "hidden"
                (ComponentTransformer.Literal (ComponentTransformer.LBoolean true))
                ComponentTransformer.Attribute]
             [ComponentTransformer.mkIr "checked"
                (ComponentTransformer.Literal (ComponentTransformer.LBoolean false))
                ComponentTransformer.Property]
             "disabled" false ComponentTransformer.Attribute _ eq_refl).
  - refine (Hrendered Scenario.two_elements 0 "hidden" (Js.VBool true) _ _ _ _).
    + vm_compute. reflexivity.
    + vm_compute. reflexivity.
    + discriminate.
    + vm_compute. reflexivity.
  - refine (Hrendered _ 0 "hidden" (Js.VBool false) _ _ _ _).
    + vm_compute. reflexivity.
    + vm_compute. reflexivity.
    + discriminate.
    + vm_compute. reflexivity.
Defined.

(** C3 as stated fails in lowering: the attribute [hidden] with the boolean
    literal [false] is lowered to [hidden: ''], the presence marker, not
    left out. *)
Lemma false_boolean_attribute_is_lowered_to_presence :
  ComponentTransformer.getChildAttrsOrProps unit unit
    (fun _ => true) (fun s => s) (fun s => s) (fun _ _ => tt)
    [ComponentTransformer.mkIr "hidden"
       (ComponentTransformer.Literal (ComponentTransformer.LBoolean false))
       ComponentTransformer.Attribute] tt
  = Js.Return [ComponentTransformer.mkProperty (ComponentTransformer.KeyIdentifier "hidden")
                 (ComponentTransformer.EsLiteral (Js.VString ""))].
Proof. reflexivity. Qed.

End BooleanFacts.

(** ** The renderer: listeners and [dispatchEvent] *)

Module DispatchFacts.
Import Host Renderer Invariants HostFacts JsFacts.

Lemma filter_ext_elem {A} (P Q : A -> Prop) `{∀ x, Decision (P x)} `{∀ x, Decision (Q x)}
    (l : list A) :
  (∀ x, x ∈ l -> P x ↔ Q x) -> filter P l = filter Q l.
Proof.
  induction l as [|x l IH]; intros Hl; [done|].
  rewrite !filter_cons. rewrite IH by (intros y Hy; apply Hl; by right).
  destruct (decide (P x)) as [HP|HP], (decide (Q x)) as [HQ|HQ]; try done.
  - destruct HQ. apply Hl; [left|done].
  - destruct HP. apply Hl; [left|done].
Qed.

(** What [set_delete] leaves. *)
Lemma set_delete_sublist (s : list Listener) (l : Listener) :
  Js.set_delete s l `sublist_of` s.
Proof. apply js_filter_sublist. Qed.

Lemma elem_of_set_delete (s : list Listener) (l x : Listener) :
  x ∈ Js.set_delete s l ↔ x ∈ s ∧ x ≠ l.
Proof.
  unfold Js.set_delete. rewrite elem_of_js_filter. by rewrite bool_decide_eq_true.
Qed.

Lemma js_filter_stdpp (p : Listener -> bool) (s : list Listener) :
  Js.filter p s = filter (fun x => p x = true) s.
Proof.
  induction s as [|y s IH]; simpl; [done|].
  destruct (p y) eqn:Hp.
  - rewrite filter_cons_True by done. by rewrite IH.
  - rewrite filter_cons_False by (by rewrite Hp). done.
Qed.



(** The store that [removeEventListener] leaves. *)
Lemma removeEventListener_store node type l st :
  (removeEventListener node type l st).1
  = if decide (hostType (get st node) ≠ Element) then st
    else
      match hostEventListeners (get st node) !! type with
      | Some eventListeners =>
          update node
            (fun n => with_eventListeners
                        (<[type := Js.set_delete eventListeners l]> (hostEventListeners n)) n)
            st
      | None => st
      end.
Proof.
  unfold removeEventListener. destruct (decide _); [done|].
  destruct (_ !! type); [done|]. by destruct (Js.inherited type).
Qed.

(** How [removeEventListener] ends. *)
Lemma removeEventListener_ended node type l st :
  (removeEventListener node type l st).2
  = if bool_decide (hostType (get st node) = Element) && negb (iterable st node type)
    then Js.Throw delete_is_not_a_function
    else Js.Return tt.
Proof.
  unfold removeEventListener, iterable.
  destruct (decide (hostType (get st node) ≠ Element)) as [Hty|Hty].
  - by rewrite bool_decide_eq_false_2.
  - apply dec_stable in Hty. rewrite (bool_decide_eq_true_2 _ Hty).
    destruct (_ !! type) as [s|].
    + by rewrite bool_decide_eq_true_2 by by eexists.
    + rewrite bool_decide_eq_false_2 by (by intros [? ?]). by destruct (Js.inherited type).
Qed.

(** [removeEventListener], seen through the listener sets. *)
Lemma removeEventListener_listeners node type l st m t :
  listeners_at (removeEventListener node type l st).1 m t
  = if decide (m = node ∧ t = type ∧ hostType (get st node) = Element)
    then Js.set_delete (listeners_at st m t) l
    else listeners_at st m t.
Proof.
  rewrite removeEventListener_store. unfold listeners_at.
  destruct (decide (hostType (get st node) ≠ Element)) as [Hty|Hty].
  { destruct (decide _) as [(_ & _ & ?)|]; [done|done]. }
  apply dec_stable in Hty.
  destruct (hostEventListeners (get st node) !! type) as [s|] eqn:Hs.
  - rewrite get_update. destruct (decide (node = m)) as [<-|Hm].
    + simpl. destruct (decide (t = type)) as [->|Ht].
      * rewrite lookup_insert_eq, Hs. simpl.
        destruct (decide _) as [_|Hn]; [done|]. exfalso. by apply Hn.
      * rewrite lookup_insert_ne by done.
        destruct (decide _) as [(_ & ? & _)|]; [done|done].
    + destruct (decide _) as [(? & _ & _)|]; [congruence|done].
  - destruct (decide _) as [(-> & -> & _)|]; [|done].
    rewrite Hs. done.
Qed.

Lemma removeEventListener_type node type l st x :
  hostType (get (removeEventListener node type l st).1 x) = hostType (get st x).
Proof.
  rewrite removeEventListener_store.
  destruct (decide _); [done|].
  destruct (_ !! _); [|done].
  rewrite get_update. by destruct (decide (node = x)) as [<-|].
Qed.

Lemma removeEventListener_parent node type l st x :
  hostParent (get (removeEventListener node type l st).1 x) = hostParent (get st x).
Proof.
  rewrite removeEventListener_store.
  destruct (decide _); [done|].
  destruct (_ !! _); [|done].
  rewrite get_update. by destruct (decide (node = x)) as [<-|].
Qed.

Lemma evolves_refl st : evolves st st.
Proof. done. Qed.

Lemma evolves_trans st1 st2 st3 : evolves st1 st2 -> evolves st2 st3 -> evolves st1 st3.
Proof.
  intros (Ht1 & Hp1 & Hl1) (Ht2 & Hp2 & Hl2). split; [|split].
  - intros x. by rewrite Ht2.
  - intros x. by rewrite Hp2.
  - intros m t. trans (listeners_at st2 m t); [apply Hl2|apply Hl1].
Qed.

Lemma rooted_ext st st' k n :
  (∀ x, hostParent (get st' x) = hostParent (get st x)) ->
  rooted st' k n = rooted st k n.
Proof.
  intros Hp. revert n. induction k as [|k IH]; intros n; simpl; [done|].
  rewrite Hp. destruct (hostParent (get st n)); [apply IH|done].
Qed.

Lemma evolves_rooted st st' k n : evolves st st' -> rooted st' k n = rooted st k n.
Proof. intros (_ & Hp & _). by apply rooted_ext. Qed.

Lemma evolves_ancestry st st' k n : evolves st st' -> ancestry st' k n = ancestry st k n.
Proof.
  intros (_ & Hp & _). revert n. induction k as [|k IH]; intros n; simpl; [done|].
  rewrite Hp. destruct (hostParent (get st n)); [by rewrite IH|done].
Qed.

Lemma evolves_below_boundary st st' k n :
  evolves st st' -> below_boundary st' k n = below_boundary st k n.
Proof.
  intros (Ht & Hp & _). revert n. induction k as [|k IH]; intros n; simpl; [done|].
  rewrite Hp. destruct (hostParent (get st n)) as [p|]; [|done].
  rewrite Ht. destruct (decide _); [done|]. by rewrite IH.
Qed.


(** *** The listener sets under the other operations *)

Lemma listeners_at_update r f st m t :
  (∀ n, hostEventListeners (f n) = hostEventListeners n) ->
  listeners_at (update r f st) m t = listeners_at st m t.
Proof.
  intros Hf. unfold listeners_at. rewrite get_update.
  destruct (decide (r = m)) as [->|]; [by rewrite Hf|done].
Qed.

Lemma get_alloc n st x :
  get (alloc n st).1 x = if decide (x = nextRef st) then n else get st x.
Proof.
  unfold get, alloc. simpl. destruct (decide (x = nextRef st)) as [->|Hne].
  - by rewrite lookup_total_insert_eq.
  - by rewrite lookup_total_insert_ne.
Qed.

Lemma listeners_at_alloc n st m t :
  hostEventListeners n = ∅ ->
  listeners_at (alloc n st).1 m t
  = if decide (m = nextRef st) then [] else listeners_at st m t.
Proof.
  intros Hn. unfold listeners_at. rewrite get_alloc.
  destruct (decide (m = nextRef st)); [|done]. by rewrite Hn, lookup_empty.
Qed.

Lemma listeners_at_empty m t : listeners_at Host.empty m t = [].
Proof. unfold listeners_at, get, Host.empty. simpl. by rewrite lookup_total_empty. Qed.

Lemma listeners_at_createElement ns tag namespace st m t :
  listeners_at (createElement ns tag namespace st).1 m t
  = if decide (m = nextRef st) then [] else listeners_at st m t.
Proof. unfold createElement. by apply listeners_at_alloc. Qed.

Lemma listeners_at_insert node parent anchor st m t :
  listeners_at (insert node parent anchor st) m t = listeners_at st m t.
Proof.
  unfold insert.
  destruct (decide (_ = (-1)%Z)); rewrite listeners_at_update by done;
    rewrite listeners_at_update by done;
    destruct (hostParent (get st node)) as [np|]; try done;
    destruct (decide (np ≠ parent)); try done; by rewrite listeners_at_update.
Qed.


(** What [addEventListener] does on an element: nothing for a capturing
    listener; otherwise it builds the closure for [once] and then either
    puts the function in the set, which it makes when there is none, or
    throws. *)
Lemma addEventListener_shape node type callback options st :
  hostType (get st node) = Element ->
  let st0 :=
    match options with
    | Options false true =>
        mkStore (heap st) (nextRef st) (S (nextClosure st)) (console st)
    | _ => st
    end in
  addEventListener node type callback options st
  = match saved node type callback options st with
    | Some l =>
        (update node
           (fun n => with_eventListeners
                       (<[type := Js.set_add (listeners_at st node type) l]>
                          (hostEventListeners n)) n)
           st0,
         Js.Return tt)
    | None =>
        (st0,
         if capturing options then Js.Return tt else Js.Throw add_is_not_a_function)
    end.
Proof.
  intros Hty. unfold addEventListener, saved, iterable, listeners_at.
  destruct (decide (hostType (get st node) ≠ Element)); [done|].
  assert (Hreg : ∀ l (st0 : Store),
            heap st0 = heap st ->
            match hostEventListeners (get st0 node) !! type with
            | Some _ =>
                (update node
                   (fun n => with_eventListeners
                               (alter (fun s => Js.set_add s l) type (hostEventListeners n)) n)
                   st0,
                 Js.Return tt)
            | None =>
                if Js.inherited type then (st0, Js.Throw add_is_not_a_function)
                else
                  (update node
                     (fun n => with_eventListeners
                                 (alter (fun s => Js.set_add s l) type
                                        (hostEventListeners n)) n)
                     (update node
                        (fun n => with_eventListeners
                                    (<[type := []]> (hostEventListeners n)) n) st0),
                   Js.Return tt)
            end
            = if negb (bool_decide (is_Some (hostEventListeners (get st node) !! type))
                       || negb (Js.inherited type))
              then (st0, Js.Throw add_is_not_a_function)
              else
                (update node
                   (fun n => with_eventListeners
                               (<[type := Js.set_add
                                            (default [] (hostEventListeners (get st node) !! type))
                                            l]>
                                  (hostEventListeners n)) n)
                   st0,
                 Js.Return tt)).
  { intros l st0 Hheap.
    assert (Hget : ∀ x, get st0 x = get st x) by (intros x; unfold get; by rewrite Hheap).
    rewrite Hget.
    destruct (hostEventListeners (get st node) !! type) as [s|] eqn:Hs.
    - rewrite bool_decide_eq_true_2 by by eexists. simpl. f_equal.
      apply update_ext. rewrite Hget. f_equal.
      apply map_eq. intros k. destruct (decide (k = type)) as [->|Hk].
      + by rewrite lookup_alter_eq, lookup_insert_eq, Hs.
      + by rewrite lookup_alter_ne, lookup_insert_ne.
    - rewrite bool_decide_eq_false_2 by (by intros [? ?]). simpl.
      destruct (Js.inherited type); simpl; [done|]. f_equal.
      rewrite update_update. apply update_ext. rewrite Hget.
      unfold with_eventListeners. simpl. f_equal.
      apply map_eq. intros k. destruct (decide (k = type)) as [->|Hk].
      + by rewrite lookup_alter_eq, !lookup_insert_eq.
      + by rewrite lookup_alter_ne, !lookup_insert_ne. }
  destruct options as [ | [ | ] | [ | ] [ | ] ]; simpl; try done;
    rewrite Hreg by done;
    by destruct (negb (bool_decide _ || negb _)).
Qed.

Lemma addEventListener_listeners node type callback options st m t :
  hostType (get st node) = Element ->
  listeners_at (addEventListener node type callback options st).1 m t
  = match saved node type callback options st with
    | Some l =>
        if decide (m = node ∧ t = type) then Js.set_add (listeners_at st m t) l
        else listeners_at st m t
    | None => listeners_at st m t
    end.
Proof.
  intros Hty. rewrite (addEventListener_shape _ _ _ _ _ Hty).
  assert (H0 : ∀ x, get match options with
                        | Options false true =>
                            mkStore (heap st) (nextRef st) (S (nextClosure st)) (console st)
                        | _ => st
                        end x = get st x).
  { intros x. by destruct options as [ | [ | ] | [ | ] [ | ] ]. }
  destruct (saved node type callback options st) as [l|]; simpl.
  - unfold listeners_at. rewrite get_update, !H0.
    destruct (decide (node = m)) as [<-|Hm]; simpl.
    + destruct (decide (t = type)) as [->|Ht].
      * rewrite lookup_insert_eq. simpl. by rewrite decide_True.
      * rewrite lookup_insert_ne by done. rewrite decide_False; [done|]. by intros [_ ?].
    + rewrite decide_False; [done|]. intros [? _]. congruence.
  - unfold listeners_at. by rewrite H0.
Qed.

Lemma addEventListener_type node type callback options st x :
  hostType (get (addEventListener node type callback options st).1 x) = hostType (get st x).
Proof.
  destruct (decide (hostType (get st node) = Element)) as [Hty|Hty].
  2: { unfold addEventListener. by rewrite decide_True. }
  rewrite (addEventListener_shape _ _ _ _ _ Hty).
  assert (H0 : ∀ x, get match options with
                        | Options false true =>
                            mkStore (heap st) (nextRef st) (S (nextClosure st)) (console st)
                        | _ => st
                        end x = get st x).
  { intros y. by destruct options as [ | [ | ] | [ | ] [ | ] ]. }
  destruct (saved node type callback options st) as [l|]; simpl; [|by rewrite H0].
  rewrite get_update, !H0. by destruct (decide (node = x)) as [<-|].
Qed.


(** How [addEventListener] ends. *)
Lemma addEventListener_ended node type callback options st :
  (addEventListener node type callback options st).2
  = if bool_decide (hostType (get st node) = Element) && negb (capturing options)
       && negb (iterable st node type)
    then Js.Throw add_is_not_a_function
    else Js.Return tt.
Proof.
  destruct (decide (hostType (get st node) = Element)) as [Hty|Hty].
  2: { unfold addEventListener. rewrite decide_True by done.
       by rewrite bool_decide_eq_false_2. }
  rewrite (addEventListener_shape _ _ _ _ _ Hty), (bool_decide_eq_true_2 _ Hty).
  unfold saved. destruct (capturing options); simpl; [done|].
  by destruct (iterable st node type).
Qed.

Lemma elem_of_set_add (s : list Listener) (l x : Listener) :
  x ∈ Js.set_add s l ↔ x ∈ s ∨ x = l.
Proof.
  unfold Js.set_add. destruct (decide (l ∈ s)) as [Hl|Hl].
  - split; [auto|]. intros [?| ->]; done.
  - rewrite elem_of_app, list_elem_of_singleton. done.
Qed.

(** *** Chains of parent links *)





(** *** The two invariants of the listener sets *)

Lemma wrappers_local_subset st st' :
  (∀ m t x, x ∈ listeners_at st' m t -> x ∈ listeners_at st m t) ->
  wrappers_local st -> wrappers_local st'.
Proof. intros Hsub Hw m t c node type f Hin. apply (Hw m t c node type f). by apply Hsub. Qed.

Lemma closures_fresh_subset st st' :
  (∀ m t x, x ∈ listeners_at st' m t -> x ∈ listeners_at st m t) ->
  nextClosure st <= nextClosure st' ->
  closures_fresh st -> closures_fresh st'.
Proof.
  intros Hsub Hle Hf m t c node type f Hin.
  pose proof (Hf m t c node type f (Hsub _ _ _ Hin)). lia.
Qed.


Lemma closures_fresh_empty : closures_fresh Host.empty.
Proof. intros m t c node type f Hin. rewrite listeners_at_empty in Hin. by apply elem_of_nil in Hin. Qed.


Lemma closures_fresh_createElement ns tag namespace st :
  closures_fresh st -> closures_fresh (createElement ns tag namespace st).1.
Proof.
  apply closures_fresh_subset; [|done]. intros m t x. rewrite listeners_at_createElement.
  destruct (decide _); [intros H; by apply elem_of_nil in H|done].
Qed.



Lemma addEventListener_not_element node type callback options st :
  hostType (get st node) ≠ Element ->
  addEventListener node type callback options st = (st, Js.Return tt).
Proof.
  intros Hty. unfold addEventListener.
  by destruct (decide (hostType (get st node) ≠ Element)).
Qed.

(** What [addEventListener] saves is the callback itself, or the closure
    that it has just numbered. *)
Lemma saved_Some node type callback options st l :
  saved node type callback options st = Some l ->
  (l = UserFn callback ∧ options ≠ Options false true)
  ∨ (l = OnceFn (nextClosure st) node type callback ∧ options = Options false true).
Proof.
  unfold saved. destruct (_ || _) eqn:Hc; [done|]. intros [= <-].
  destruct options as [ | [ | ] | [ | ] [ | ] ]; simpl in *; try done; auto.
Qed.

Lemma wrappers_local_addEventListener node type callback options st :
  wrappers_local st -> wrappers_local (addEventListener node type callback options st).1.
Proof.
  intros Hw. destruct (decide (hostType (get st node) = Element)) as [Hty|Hty];
    [|by rewrite addEventListener_not_element].
  intros m t c node' type' f Hin.
  rewrite addEventListener_listeners in Hin by done.
  destruct (saved node type callback options st) as [l|] eqn:Hsaved;
    [|by apply (Hw m t c node' type' f)].
  destruct (decide (m = node ∧ t = type)) as [[-> ->]|];
    [|by apply (Hw m t c node' type' f)].
  apply elem_of_set_add in Hin as [Hin|Heq]; [by apply (Hw node type c node' type' f)|].
  subst l.
  apply saved_Some in Hsaved as [[Hl _]|[Hl _]]; by inversion Hl.
Qed.

Lemma wrappers_local_removeEventListener node type l st :
  wrappers_local st -> wrappers_local (removeEventListener node type l st).1.
Proof.
  apply wrappers_local_subset. intros m t x. rewrite removeEventListener_listeners.
  destruct (decide _); [|done]. intros Hx. by apply elem_of_set_delete in Hx as [Hx _].
Qed.

(** The closure for [once] is numbered before the listener table is
    looked at: the number is used up also when the call then throws. *)
Lemma addEventListener_nextClosure node type callback options st :
  hostType (get st node) = Element ->
  nextClosure (addEventListener node type callback options st).1
  = match options with
    | Options false true => S (nextClosure st)
    | _ => nextClosure st
    end.
Proof.
  intros Hty. rewrite (addEventListener_shape _ _ _ _ _ Hty).
  destruct (saved node type callback options st); simpl;
    by destruct options as [ | [ | ] | [ | ] [ | ] ].
Qed.

Lemma closures_fresh_addEventListener node type callback options st :
  closures_fresh st -> closures_fresh (addEventListener node type callback options st).1.
Proof.
  intros Hf. destruct (decide (hostType (get st node) = Element)) as [Hty|Hty];
    [|by rewrite addEventListener_not_element].
  intros m t c node' type' f Hin.
  rewrite addEventListener_nextClosure by done.
  rewrite addEventListener_listeners in Hin by done.
  assert (Hold : OnceFn c node' type' f ∈ listeners_at st m t ->
            c < match options with
                | Options false true => S (nextClosure st)
                | _ => nextClosure st
                end).
  { intros Hx. pose proof (Hf m t c node' type' f Hx).
    destruct options as [ | [ | ] | [ | ] [ | ] ]; lia. }
  destruct (saved node type callback options st) as [l|] eqn:Hsaved; [|by apply Hold].
  destruct (decide (m = node ∧ t = type)) as [[-> ->]|]; [|by apply Hold].
  apply elem_of_set_add in Hin as [Hin|Heq]; [by apply Hold|].
  subst l.
  apply saved_Some in Hsaved as [[Hl _]|[Hl ->]]; inversion Hl; lia.
Qed.

Section Dispatch.
Variable body : nat -> list ProxyCall.

Lemma foldl_proxy_call_iff fl cs :
  (stop (foldl proxy_call fl cs) = true
   ↔ stop fl = true ∨ StopPropagation ∈ cs ∨ StopImmediatePropagation ∈ cs)
  ∧ (stopImmediately (foldl proxy_call fl cs) = true
     ↔ stopImmediately fl = true ∨ StopImmediatePropagation ∈ cs).
Proof.
  revert fl. induction cs as [|c cs IH]; intros fl; simpl.
  - split; (split; [auto|]).
    + intros [?|[H|H]]; [done|by apply elem_of_nil in H|by apply elem_of_nil in H].
    + intros [?|H]; [done|by apply elem_of_nil in H].
  - destruct (IH (proxy_call fl c)) as [IH1 IH2]. rewrite IH1, IH2.
    rewrite !elem_of_cons. destruct c; simpl; intuition congruence.
Qed.

Lemma foldl_proxy_call fl cs :
  stop (foldl proxy_call fl cs)
  = stop fl || bool_decide (StopPropagation ∈ cs ∨ StopImmediatePropagation ∈ cs)
  ∧ stopImmediately (foldl proxy_call fl cs)
    = stopImmediately fl || bool_decide (StopImmediatePropagation ∈ cs).
Proof.
  destruct (foldl_proxy_call_iff fl cs) as [H1 H2].
  split; apply eq_true_iff_eq; rewrite orb_true_iff, bool_decide_eq_true; tauto.
Qed.

Lemma invoke_once c node type f fl st :
  invoke body (OnceFn c node type f) fl st
  = (foldl proxy_call fl (body f),
     (removeEventListener node type (OnceFn c node type f) st).1,
     (removeEventListener node type (OnceFn c node type f) st).2).
Proof. simpl. by destruct (removeEventListener _ _ _ _). Qed.

Lemma invoke_flags l fl st :
  stop (invoke body l fl st).1.1 = stop fl || stops body l
  ∧ stopImmediately (invoke body l fl st).1.1 = stopImmediately fl || stops_immediately body l.
Proof.
  destruct l as [f|c node type f]; [|rewrite invoke_once]; simpl; apply foldl_proxy_call.
Qed.

Lemma invoke_listeners l fl st m t :
  listeners_at (invoke body l fl st).1.2 m t
  = match l with
    | UserFn _ => listeners_at st m t
    | OnceFn c node type f =>
        if decide (m = node ∧ t = type ∧ hostType (get st node) = Element)
        then Js.set_delete (listeners_at st m t) l
        else listeners_at st m t
    end.
Proof.
  destruct l as [f|c node type f]; [done|]. rewrite invoke_once. simpl.
  apply removeEventListener_listeners.
Qed.

Lemma invoke_evolves l fl st : evolves st (invoke body l fl st).1.2.
Proof.
  split; [|split].
  - intros x. destruct l as [f|c node type f]; [done|]. rewrite invoke_once. simpl.
    apply removeEventListener_type.
  - intros x. destruct l as [f|c node type f]; [done|]. rewrite invoke_once. simpl.
    apply removeEventListener_parent.
  - intros m t. rewrite invoke_listeners. destruct l; [done|].
    destruct (decide _); [apply set_delete_sublist|done].
Qed.

(** A listener returns, but for a closure built for [once] whose node has
    no set for its type and inherits a member of that name. *)
Lemma invoke_ended l fl st :
  (invoke body l fl st).2
  = match l with
    | UserFn _ => Js.Return tt
    | OnceFn c node type f =>
        if bool_decide (hostType (get st node) = Element) && negb (iterable st node type)
        then Js.Throw delete_is_not_a_function
        else Js.Return tt
    end.
Proof.
  destruct l as [f|c node type f]; [done|]. rewrite invoke_once. simpl.
  apply removeEventListener_ended.
Qed.

(** A set that the table has stays. *)
Lemma removeEventListener_iterable node type l st m t :
  iterable st m t = true -> iterable (removeEventListener node type l st).1 m t = true.
Proof.
  unfold iterable. rewrite removeEventListener_store.
  destruct (Js.inherited t); [|by rewrite !orb_true_r]. rewrite !orb_false_r.
  rewrite !bool_decide_eq_true. intros Hs.
  destruct (decide _); [done|].
  destruct (hostEventListeners (get st node) !! type) eqn:Hty; [|done].
  rewrite get_update. destruct (decide (node = m)) as [<-|]; [|done]. simpl.
  destruct (decide (t = type)) as [->|]; [by rewrite lookup_insert_eq|].
  by rewrite lookup_insert_ne.
Qed.

Lemma invoke_iterable l fl st m t :
  iterable st m t = true -> iterable (invoke body l fl st).1.2 m t = true.
Proof.
  destruct l as [f|c node type f]; [done|]. rewrite invoke_once. simpl.
  apply removeEventListener_iterable.
Qed.

(** The loop over a listener set: the members it invokes are members of the
    set, in their order; the store evolves; [stop] stays set, and is set
    once an invoked member stops the propagation.  This holds also of a
    walk that an exception ends. *)
Lemma forCallbacks_spec cur cbs fl st inv :
  ∃ fl' st' ls ended,
    forCallbacks body cur cbs fl st inv = (fl', st', inv ++ (pair cur <$> ls), ended)
    ∧ ls `sublist_of` cbs
    ∧ evolves st st'
    ∧ (stop fl = true -> stop fl' = true)
    ∧ (stopImmediately fl' = true -> stopImmediately fl = true ∨ stop fl' = true)
    ∧ (∀ l, l ∈ ls -> stops body l = true -> stop fl' = true).
Proof.
  revert fl st inv. induction cbs as [|cb cbs IH]; intros fl st inv; simpl.
  - exists fl, st, [], (Js.Return tt). rewrite app_nil_r.
    split; [done|]. split; [done|]. split; [apply evolves_refl|].
    split; [done|]. split; [auto|].
    intros l Hl. by apply elem_of_nil in Hl.
  - destruct (stopImmediately fl) eqn:Himm.
    + destruct (IH fl st inv)
        as (fl' & st' & ls & ended & -> & Hsub & Hev & Hstop & Himm' & Hls).
      exists fl', st', ls, ended.
      split; [done|]. split; [by apply sublist_cons|]. split; [done|].
      split; [done|]. split; [auto|done].
    + pose proof (invoke_flags cb fl st) as [Hs1 Hi1].
      pose proof (invoke_evolves cb fl st) as Hev1.
      destruct (invoke body cb fl st) as [[fl1 st1] ended1] eqn:Hinv.
      simpl in Hs1, Hi1, Hev1.
      assert (Himm1 : stopImmediately fl1 = true -> stop fl1 = true).
      { intros H1. rewrite Hs1. rewrite Hi1, Himm in H1. simpl in H1.
        unfold stops_immediately in H1. apply bool_decide_eq_true in H1.
        unfold stops. rewrite (bool_decide_eq_true_2 _); [by rewrite orb_true_r|by right]. }
      destruct ended1 as [[]|message].
      * destruct (IH fl1 st1 (inv ++ [(cur, cb)]))
          as (fl' & st' & ls & ended & -> & Hsub & Hev & Hstop & Himm' & Hls).
        exists fl', st', (cb :: ls), ended. rewrite <- app_assoc. simpl.
        split; [done|]. split; [by apply sublist_skip|].
        split; [by apply (evolves_trans st st1 st')|].
        split; [intros Hfl; apply Hstop; by rewrite Hs1, Hfl|].
        split.
        -- intros Hfl'. right. destruct (Himm' Hfl') as [H1|H1]; [|done].
           by apply Hstop, Himm1.
        -- intros l [->|Hl]%elem_of_cons Hst.
           ++ apply Hstop. rewrite Hs1, Hst. by rewrite orb_true_r.
           ++ by apply (Hls l).
      * exists fl1, st1, [cb], (Js.Throw message). simpl.
        split; [done|]. split; [apply sublist_skip, sublist_nil_l|].
        split; [done|]. split; [intros Hfl; by rewrite Hs1, Hfl|].
        split; [intros H1; right; by apply Himm1|].
        intros l Hl%list_elem_of_singleton Hst. subst l. rewrite Hs1, Hst.
        by rewrite orb_true_r.
Qed.

(** One pass through the loop body. *)
Lemma doWhile_S k ev cur fl st inv :
  doWhile body (S k) ev cur fl st inv
  = let '(fl1, st1, inv1, ended) := atCurrentNode body ev cur fl st inv in
    match ended with
    | Js.Throw message => Some (st1, inv1, Js.Throw message)
    | Js.Return _ =>
        match hostParent (get st1 cur) with
        | None => Some (st1, inv1, Js.Return tt)
        | Some next =>
            if negb (stop fl1)
               && (negb (bool_decide (hostType (get st1 next) = ShadowRoot)) || composed ev)
            then doWhile body k ev next fl1 st1 inv1
            else Some (st1, inv1, Js.Return tt)
        end
    end.
Proof. done. Qed.

(** The first statement of the loop body, with the listener set read
    through [listeners_at]. *)
Lemma atCurrentNode_listeners ev cur fl st inv :
  atCurrentNode body ev cur fl st inv
  = if decide (hostType (get st cur) = Element) then
      if iterable st cur (eventType ev)
      then forCallbacks body cur (listeners_at st cur (eventType ev)) fl st inv
      else (fl, st, inv, Js.Throw callbacks_is_not_iterable)
    else (fl, st, inv, Js.Return tt).
Proof.
  unfold atCurrentNode, iterable, listeners_at.
  destruct (decide _); [|done].
  destruct (hostEventListeners (get st cur) !! eventType ev) as [s|].
  - by rewrite bool_decide_eq_true_2 by by eexists.
  - rewrite bool_decide_eq_false_2 by (by intros [? ?]).
    by destruct (Js.inherited (eventType ev)).
Qed.

(** What one pass does at the current node. *)
Lemma visit_spec ev cur fl st inv :
  ∃ fl1 st1 ls ended,
    atCurrentNode body ev cur fl st inv = (fl1, st1, inv ++ (pair cur <$> ls), ended)
    ∧ ls `sublist_of` listeners_at st cur (eventType ev)
    ∧ (ls ≠ [] -> hostType (get st cur) = Element)
    ∧ evolves st st1
    ∧ (stop fl = true -> stop fl1 = true)
    ∧ (∀ l, l ∈ ls -> stops body l = true -> stop fl1 = true).
Proof.
  rewrite atCurrentNode_listeners.
  assert (Hnone : ∀ ended : Js.completion unit,
            ∃ fl1 st1 ls (ended' : Js.completion unit),
              (fl, st, inv, ended) = (fl1, st1, inv ++ (pair cur <$> ls), ended')
              ∧ ls `sublist_of` listeners_at st cur (eventType ev)
              ∧ (ls ≠ [] -> hostType (get st cur) = Element)
              ∧ evolves st st1
              ∧ (stop fl = true -> stop fl1 = true)
              ∧ (∀ l, l ∈ ls -> stops body l = true -> stop fl1 = true)).
  { intros ended. exists fl, st, [], ended. rewrite app_nil_r. split; [done|].
    split; [apply sublist_nil_l|]. split; [done|]. split; [apply evolves_refl|].
    split; [done|]. intros l Hl. by apply elem_of_nil in Hl. }
  destruct (decide (hostType (get st cur) = Element)) as [Hty|Hty]; [|apply Hnone].
  destruct (iterable st cur (eventType ev)); [|apply Hnone].
  destruct (forCallbacks_spec cur (listeners_at st cur (eventType ev)) fl st inv)
    as (fl1 & st1 & ls & ended & -> & Hsub & Hev & Hstop & _ & Hls).
  exists fl1, st1, ls, ended. split; [done|]. split; [done|]. split; [done|].
  split; [done|]. split; done.
Qed.

(** The loop ends when the chain of parent links does. *)
Lemma doWhile_total k ev cur fl st inv :
  rooted st k cur = true -> is_Some (doWhile body k ev cur fl st inv).
Proof.
  revert cur fl st inv. induction k as [|k IH]; intros cur fl st inv Hr; [done|].
  rewrite doWhile_S.
  destruct (visit_spec ev cur fl st inv) as (fl1 & st1 & ls & ended & -> & _ & _ & Hev & _).
  destruct ended as [[]|message]; [|eauto].
  simpl in Hr. destruct Hev as (Ht & Hp & Hl). rewrite Hp.
  destruct (hostParent (get st cur)) as [p|]; [|eauto].
  destruct (_ && _); [|eauto].
  apply IH. by rewrite (evolves_rooted st st1).
Qed.

(** What the loop does: it adds invocations; the store evolves; every
    invocation is of a listener that an element on the chain had for the
    event type; when the event is not composed they are all below the
    shadow root; and nothing is invoked above a node where an invoked
    listener stopped the propagation.  This holds however the loop ends. *)
Lemma doWhile_spec k ev cur fl st inv st' inv' ended :
  doWhile body k ev cur fl st inv = Some (st', inv', ended) ->
  ∃ new,
    inv' = inv ++ new
    ∧ evolves st st'
    ∧ (∀ x, x ∈ new ->
         x.1 ∈ ancestry st k cur
         ∧ hostType (get st x.1) = Element
         ∧ x.2 ∈ listeners_at st x.1 (eventType ev))
    ∧ (composed ev = false -> ∀ x, x ∈ new -> x.1 ∈ below_boundary st k cur)
    ∧ (∀ pre m l post, new = pre ++ (m, l) :: post -> stops body l = true ->
         ∀ x, x ∈ post -> x.1 = m).
Proof.
  revert cur fl st inv st' inv' ended.
  induction k as [|k IH]; intros cur fl st inv st' inv' ended; [done|].
  rewrite doWhile_S.
  destruct (visit_spec ev cur fl st inv)
    as (fl1 & st1 & ls & ended1 & -> & Hsub & Hty & Hev & Hstop & Hls).
  assert (Hhere : ∀ x, x ∈ pair cur <$> ls ->
            x.1 = cur ∧ hostType (get st x.1) = Element
            ∧ x.2 ∈ listeners_at st x.1 (eventType ev)).
  { intros x (l & -> & Hl)%list_elem_of_fmap. simpl. split; [done|]. split.
    - apply Hty. intros ->. by apply elem_of_nil in Hl.
    - eapply elem_of_sublist; [exact Hl|exact Hsub]. }
  assert (Hdone : ∀ e : Js.completion unit,
            Some (st1, inv ++ (pair cur <$> ls), e) = Some (st', inv', ended) ->
            ∃ new, inv' = inv ++ new ∧ evolves st st'
              ∧ (∀ x, x ∈ new -> x.1 ∈ ancestry st (S k) cur
                   ∧ hostType (get st x.1) = Element
                   ∧ x.2 ∈ listeners_at st x.1 (eventType ev))
              ∧ (composed ev = false -> ∀ x, x ∈ new -> x.1 ∈ below_boundary st (S k) cur)
              ∧ (∀ pre m l post, new = pre ++ (m, l) :: post -> stops body l = true ->
                   ∀ x, x ∈ post -> x.1 = m)).
  { intros e [= <- <- _]. exists (pair cur <$> ls). split; [done|]. split; [done|].
    split; [|split].
    - intros x Hx. destruct (Hhere x Hx) as (Hc & Hel & Hin).
      split; [|done]. rewrite Hc. simpl. apply elem_of_cons. by left.
    - intros _ x Hx. destruct (Hhere x Hx) as (Hc & _).
      rewrite Hc. simpl. apply elem_of_cons. by left.
    - intros pre m l post Heq _ x Hx.
      assert (Hm : (m, l) ∈ pair cur <$> ls)
        by (rewrite Heq; apply elem_of_app; right; apply elem_of_cons; by left).
      assert (Hx' : x ∈ pair cur <$> ls)
        by (rewrite Heq; apply elem_of_app; right; apply elem_of_cons; by right).
      destruct (Hhere _ Hm) as (Hm1 & _). destruct (Hhere _ Hx') as (Hx1 & _).
      simpl in Hm1. congruence. }
  destruct ended1 as [[]|message]; [|apply Hdone].
  pose proof Hev as (Ht & Hp & Hl). rewrite Hp.
  destruct (hostParent (get st cur)) as [p|] eqn:Hpar; [|apply Hdone].
  destruct (negb (stop fl1)) eqn:Hnstop; simpl; [|apply Hdone].
  destruct (negb (bool_decide (hostType (get st1 p) = ShadowRoot)) || composed ev) eqn:Hgo;
    [|apply Hdone].
  clear Hdone. intros Hrec.
  apply IH in Hrec as (new & -> & Hev' & Hin & Hbelow & Hhalt).
  exists ((pair cur <$> ls) ++ new). split; [by rewrite app_assoc|].
  split; [by apply (evolves_trans st st1 st')|].
  split; [|split].
  - intros x [Hx|Hx]%elem_of_app.
    + destruct (Hhere x Hx) as (Hc & Hel & Hlx).
      split; [|done]. rewrite Hc. simpl. apply elem_of_cons. by left.
    + destruct (Hin x Hx) as (Ha & Hel & Hlx).
      split; [|split].
      * simpl. rewrite Hpar. apply elem_of_cons. right.
        by rewrite <- (evolves_ancestry st st1).
      * by rewrite <- Ht.
      * eapply elem_of_sublist; [exact Hlx|apply Hl].
  - intros Hcomp x [Hx|Hx]%elem_of_app.
    + destruct (Hhere x Hx) as (Hc & _). rewrite Hc. simpl. apply elem_of_cons. by left.
    + simpl. rewrite Hpar. apply elem_of_cons. right.
      rewrite Hcomp, orb_false_r in Hgo. apply negb_true_iff in Hgo.
      apply bool_decide_eq_false in Hgo. rewrite Ht in Hgo.
      destruct (decide (hostType (get st p) = ShadowRoot)); [done|].
      rewrite <- (evolves_below_boundary st st1) by done. by apply Hbelow.
  - intros pre m l post Heq Hst x Hx.
    apply app_eq_inv in Heq as [(kk & Hls1 & Hpost)|(kk & Hpre & Hnew)].
    + destruct kk as [|y kk]; simpl in Hpost.
      * apply (Hhalt [] m l post); by rewrite <- ?Hpost.
      * inversion Hpost; subst y post. exfalso.
        assert (Hm : (m, l) ∈ pair cur <$> ls)
          by (rewrite Hls1; apply elem_of_app; right; apply elem_of_cons; by left).
        apply list_elem_of_fmap in Hm as (l' & [= -> ->] & Hl').
        apply negb_true_iff in Hnstop. rewrite (Hls l' Hl' Hst) in Hnstop. done.
    + by apply (Hhalt kk m l post).
Qed.

Lemma invoke_quiet l fl st : stops body l = false -> (invoke body l fl st).1.1 = fl.
Proof.
  intros Hq. destruct (invoke_flags l fl st) as [Hs Hi].
  assert (Hqi : stops_immediately body l = false).
  { unfold stops in Hq. apply bool_decide_eq_false in Hq.
    apply bool_decide_eq_false. intros H. apply Hq. by right. }
  rewrite Hq, orb_false_r in Hs. rewrite Hqi, orb_false_r in Hi.
  destruct (invoke body l fl st).1.1 as [a b], fl as [a' b']. simpl in *. congruence.
Qed.

(** A member of the set of node [cur] for the type [ty] returns, when the
    closures in the set are where they belong. *)
Lemma invoke_returns cur ty l fl st :
  (∀ c node type f, l = OnceFn c node type f -> node = cur ∧ type = ty) ->
  iterable st cur ty = true ->
  (invoke body l fl st).2 = Js.Return tt.
Proof.
  intros Hw Hit. rewrite invoke_ended. destruct l as [f|c node type f]; [done|].
  destruct (Hw c node type f eq_refl) as [-> ->]. by rewrite Hit, andb_false_r.
Qed.

(** The loop over a listener set none of whose members stops the
    propagation, where the closures in the set are where they belong: every
    member is invoked, the flags stay, and the listener sets of the other
    nodes and types stay. *)
Lemma forCallbacks_quiet cur ty cbs fl st inv :
  (∀ l, l ∈ cbs -> stops body l = false) ->
  stopImmediately fl = false ->
  (∀ c node type f, OnceFn c node type f ∈ cbs -> node = cur ∧ type = ty) ->
  iterable st cur ty = true ->
  ∃ st',
    forCallbacks body cur cbs fl st inv = (fl, st', inv ++ (pair cur <$> cbs), Js.Return tt)
    ∧ evolves st st'
    ∧ ∀ m t, ¬ (m = cur ∧ t = ty) -> listeners_at st' m t = listeners_at st m t.
Proof.
  revert st inv. induction cbs as [|cb cbs IH]; intros st inv Hq Himm Hw Hit; simpl.
  - exists st. rewrite app_nil_r. split; [done|]. split; [apply evolves_refl|done].
  - rewrite Himm.
    assert (Hcb : stops body cb = false) by (apply Hq; apply elem_of_cons; by left).
    pose proof (invoke_quiet cb fl st Hcb) as Hfl.
    pose proof (invoke_evolves cb fl st) as Hev1.
    pose proof (fun m t => invoke_listeners cb fl st m t) as Hl1.
    pose proof (invoke_iterable cb fl st cur ty Hit) as Hit1.
    pose proof (invoke_returns cur ty cb fl st) as Hret.
    destruct (invoke body cb fl st) as [[fl1 st1] ended1].
    simpl in Hfl, Hev1, Hl1, Hit1, Hret. subst fl1.
    rewrite Hret; [|by intros c node type f ->; apply (Hw c node type f); left|done].
    destruct (IH st1 (inv ++ [(cur, cb)])) as (st' & -> & Hev & Hloc);
      [intros l Hl; apply Hq; apply elem_of_cons; by right|done| |done|].
    { intros c node type f Hin. apply (Hw c node type f). apply elem_of_cons. by right. }
    exists st'. rewrite <- app_assoc. split; [done|].
    split; [by apply (evolves_trans st st1 st')|].
    intros m t Hmt. rewrite Hloc by done.
    rewrite Hl1. destruct cb as [f|c node type f]; [done|].
    destruct (decide _) as [(-> & -> & _)|]; [|done].
    exfalso. apply Hmt. apply (Hw c node type f). apply elem_of_cons. by left.
Qed.





(** *** A closure built for [once] *)

Section Once.
Variable n : ref.
Variable t : string.
Variable w : Listener.
Hypothesis w_once : ∃ c f, w = OnceFn c n t f.










End Once.


End Dispatch.

End DispatchFacts.

(** ** Concrete dispatches *)

Module DispatchRuns.
Import Host Renderer Invariants HostFacts DispatchFacts.


Lemma two_elements_closures_fresh : closures_fresh Scenario.two_elements.
Proof.
  unfold Scenario.two_elements.
  apply closures_fresh_createElement, closures_fresh_createElement, closures_fresh_empty.
Qed.


Lemma two_elements_listeners m t : listeners_at Scenario.two_elements m t = [].
Proof.
  unfold Scenario.two_elements. rewrite !listeners_at_createElement.
  repeat case_decide; auto using listeners_at_empty.
Qed.

(** C5 at a failing input.  An event whose type is [toString], dispatched
    at a new element: the listener table of the element is a plain object,
    which gives [Object.prototype.toString] for that type, and the loop over
    it throws; the call does not return [true].  The element cannot listen
    to such an event either: [addEventListener] throws and registers
    nothing.  With the type [click] the same dispatch returns [true].  It
    is the same in the tree with a shadow root, for a composed event
    dispatched at the element inside the shadow root. *)
Theorem dispatchEvent_throws_for_an_inherited_event_type :
  hostType (get Scenario.two_elements 0) = Element
  ∧ dispatchEvent Scenario.quiet 1 0 (mkEvent "toString" false) Scenario.two_elements
    = Some (mkDispatched Scenario.two_elements [] (Js.Throw callbacks_is_not_iterable))
  ∧ addEventListener 0 "toString" 7 OptionsOmitted Scenario.two_elements
    = (Scenario.two_elements, Js.Throw add_is_not_a_function)
  ∧ dispatchEvent Scenario.quiet 1 0 (mkEvent "click" false) Scenario.two_elements
    = Some (mkDispatched Scenario.two_elements [] (Js.Return true))
  ∧ hostType (get Scenario.across_shadow_root 3) = Element
  ∧ dispatchEvent Scenario.quiet 4 3 (mkEvent "toString" true) Scenario.across_shadow_root
    = Some (mkDispatched Scenario.across_shadow_root [] (Js.Throw callbacks_is_not_iterable)).
Proof. repeat split; vm_compute; reflexivity. Qed.




End DispatchRuns.

(** ** The renderer: what the attribute operations keep *)

Module AttributeInvariants.
Import Host Renderer Invariants HostFacts JsFacts.

Lemma keys_alter (f : HostAttribute -> HostAttribute) i (l : list HostAttribute) :
  (∀ a, attr_key (f a) = attr_key a) ->
  attr_key <$> alter f i l = attr_key <$> l.
Proof.
  intros Hf. revert i. induction l as [|a l IH]; intros i; [done|].
  destruct i as [|i]; csimpl; [by rewrite Hf|]. by rewrite IH.
Qed.

Lemma findIndex_None_key (p : HostAttribute -> bool) name ns (l : list HostAttribute) :
  (∀ a, attr_key a = (name, ns) -> p a = true) ->
  Js.findIndex p l = None -> (name, ns) ∉ attr_key <$> l.
Proof.
  intros Hp Hn (a & Hk & Ha)%list_elem_of_fmap.
  pose proof (findIndex_None _ _ a Hn Ha) as Hpa.
  rewrite Hp in Hpa by done. done.
Qed.

Lemma keys_push_new (p : HostAttribute -> bool) name ns v (l : list HostAttribute) :
  (∀ a, attr_key a = (name, ns) -> p a = true) ->
  NoDup (attr_key <$> l) ->
  Js.findIndex p l = None ->
  NoDup (attr_key <$> Js.push l (mkAttr name ns v)).
Proof.
  intros Hp Hnd Hn. unfold Js.push. rewrite fmap_app. apply NoDup_app.
  split; [done|]. split.
  - intros k Hk Hin. apply list_elem_of_singleton in Hin. subst k.
    by apply (findIndex_None_key p name ns l).
  - apply NoDup_singleton.
Qed.

Lemma same_key_of_key name ns a :
  attr_key a = (name, ns) -> same_key name (Some ns) a = true.
Proof.
  unfold attr_key, same_key. intros [= <- <-]. by rewrite !bool_decide_eq_true_2.
Qed.

Lemma null_key_of_key name a :
  attr_key a = (name, None) ->
  bool_decide (Host.name a = name) && bool_decide (attrNamespace a = None) = true.
Proof.
  unfold attr_key. intros [= <- Hns]. by rewrite !bool_decide_eq_true_2.
Qed.

Lemma values_alter (f : HostAttribute -> HostAttribute) i (l : list HostAttribute) :
  (∀ a, Js.is_string (value (f a)) = true) ->
  Forall (fun a => Js.is_string (value a) = true) l ->
  Forall (fun a => Js.is_string (value a) = true) (alter f i l).
Proof.
  intros Hf Hl. revert i. induction Hl as [|a l Ha Hl IH]; intros i; [done|].
  destruct i as [|i]; csimpl; constructor; auto.
Qed.

Lemma values_push v (l : list HostAttribute) name ns :
  Js.is_string v = true ->
  Forall (fun a => Js.is_string (value a) = true) l ->
  Forall (fun a => Js.is_string (value a) = true) (Js.push l (mkAttr name ns v)).
Proof.
  intros Hv Hl. unfold Js.push. apply Forall_app. split; [done|].
  by apply Forall_singleton.
Qed.

Section Operations.
Variable classNameToTokenList : Js.value -> list string.
Variable tokenListToClassName : list string -> string.

Lemma setAttribute_attributes element name v namespace st :
  ∃ ns,
    hostAttributes (get (setAttribute element name v namespace st) element)
    = match Js.findIndex (same_key name (Some ns)) (hostAttributes (get st element)) with
      | Some i => alter (set_attr_value v) i (hostAttributes (get st element))
      | None => Js.push (hostAttributes (get st element))
                        (mkAttr name ns (Js.VString (Js.String v)))
      end.
Proof.
  unfold setAttribute.
  destruct namespace as [ns|]; simpl; [exists ns|exists None];
    destruct (Js.findIndex _ _); by rewrite get_update_eq.
Qed.

Lemma getClassAttribute_spec element st :
  ∃ i a,
    hostAttributes (get (getClassAttribute element st).1 element) !! i = Some a
    ∧ (getClassAttribute element st).2 = i
    ∧ (unique_attributes st element ->
       unique_attributes (getClassAttribute element st).1 element)
    ∧ (string_values st element -> string_values (getClassAttribute element st).1 element).
Proof.
  unfold getClassAttribute.
  destruct (Js.findIndex _ _) as [i|] eqn:Hi; simpl.
  - destruct (findIndex_Some _ _ _ Hi) as (a & Ha & _). exists i, a. done.
  - exists (length (hostAttributes (get st element))), (mkAttr "class" None (Js.VString "")).
    rewrite get_update_eq. simpl. split; [|split; [done|split]].
    + unfold Js.push. rewrite lookup_app_r by done. by rewrite Nat.sub_diag.
    + unfold unique_attributes. rewrite get_update_eq. simpl. intros Hnd.
      eapply keys_push_new; [|done|exact Hi]. apply null_key_of_key.
    + unfold string_values. rewrite get_update_eq. simpl. by apply values_push.
Qed.

(** Every operation keeps the attributes of the element free of repeated
    keys. *)
Lemma perform_unique element st op :
  unique_attributes st element ->
  unique_attributes (perform classNameToTokenList tokenListToClassName element st op) element.
Proof.
  intros Hu. destruct op as [name v namespace|name namespace|name v important|names|names];
    simpl.
  - unfold unique_attributes in *.
    destruct (setAttribute_attributes element name v namespace st) as (ns & ->).
    destruct (Js.findIndex _ _) as [i|] eqn:Hi.
    + by rewrite keys_alter.
    + eapply keys_push_new; [|done|exact Hi]. apply same_key_of_key.
  - unfold unique_attributes, removeAttribute in *. rewrite get_update_eq. simpl.
    eapply sublist_NoDup; [exact Hu|]. apply fmap_sublist, js_filter_sublist.
  - unfold unique_attributes, setCSSStyleProperty in *.
    destruct (Js.findIndex _ _) as [i|] eqn:Hi; rewrite get_update_eq; simpl.
    + by rewrite keys_alter.
    + eapply keys_push_new; [|done|exact Hi]. apply null_key_of_key.
  - destruct (getClassAttribute_spec element st) as (i & a & _ & _ & Hu' & _).
    destruct (getClassAttribute element st) as [st1 j]. simpl in *.
    unfold unique_attributes in *. rewrite get_update_eq. simpl.
    rewrite keys_alter by done. by apply Hu'.
  - destruct (getClassAttribute_spec element st) as (i & a & _ & _ & Hu' & _).
    destruct (getClassAttribute element st) as [st1 j]. simpl in *.
    unfold unique_attributes in *. rewrite get_update_eq. simpl.
    rewrite keys_alter by done. by apply Hu'.
Qed.

(** Every operation that is handed strings keeps the attribute values
    strings. *)
Lemma perform_strings element st op :
  passes_strings op ->
  string_values st element ->
  string_values (perform classNameToTokenList tokenListToClassName element st op) element.
Proof.
  intros Hop Hs. destruct op as [name v namespace|name namespace|name v important|names|names];
    simpl in *.
  - unfold string_values in *.
    destruct (setAttribute_attributes element name v namespace st) as (ns & ->).
    destruct (Js.findIndex _ _) as [i|].
    + by apply values_alter.
    + by apply values_push.
  - unfold string_values, removeAttribute in *. rewrite get_update_eq. simpl.
    apply Forall_forall. intros a Ha. rewrite Forall_forall in Hs. apply Hs.
    eapply elem_of_sublist; [exact Ha|apply js_filter_sublist].
  - unfold string_values, setCSSStyleProperty in *.
    destruct (Js.findIndex _ _) as [i|]; rewrite get_update_eq; simpl.
    + by apply values_alter.
    + by apply values_push.
  - destruct (getClassAttribute_spec element st) as (i & a & _ & _ & _ & Hs').
    destruct (getClassAttribute element st) as [st1 j]. simpl in *.
    unfold string_values in *. rewrite get_update_eq. simpl.
    apply values_alter; [done|]. by apply Hs'.
  - destruct (getClassAttribute_spec element st) as (i & a & _ & _ & _ & Hs').
    destruct (getClassAttribute element st) as [st1 j]. simpl in *.
    unfold string_values in *. rewrite get_update_eq. simpl.
    apply values_alter; [done|]. by apply Hs'.
Qed.

(** After any sequence of [setAttribute], [removeAttribute],
    [setCSSStyleProperty] and class-list operations on an element whose
    attributes had no repeated key, they have none; and their values are
    strings when they were and [setAttribute] was handed strings only. *)
Theorem attribute_operations_keep_keys_unique element ops st :
  unique_attributes st element ->
  unique_attributes
    (foldl (perform classNameToTokenList tokenListToClassName element) st ops) element
  ∧ (Forall passes_strings ops -> string_values st element ->
     string_values
       (foldl (perform classNameToTokenList tokenListToClassName element) st ops) element).
Proof.
  revert st. induction ops as [|op ops IH]; intros st Hu; simpl; [done|].
  destruct (IH (perform classNameToTokenList tokenListToClassName element st op)
              (perform_unique element st op Hu)) as [IHu IHs].
  split; [done|]. intros Hops Hs. apply Forall_cons in Hops as [Hop Hops].
  apply IHs; [done|]. by apply perform_strings.
Qed.

End Operations.

(** Three operations on the attributes of element 0. *)
Lemma attribute_operations_keep_keys_unique_witness :
  unique_attributes
    (foldl (perform (fun _ => []) (fun _ => "") 0) Scenario.two_elements
       [SetAttribute "id" (Js.VString "a") None;
        SetCSSStyleProperty "color" "red" false;
        ClassListAdd ["x"]]) 0.
Proof.
  refine (proj1 (attribute_operations_keep_keys_unique (fun _ => []) (fun _ => "") 0
                   [SetAttribute "id" (Js.VString "a") None;
                    SetCSSStyleProperty "color" "red" false;
                    ClassListAdd ["x"]] Scenario.two_elements _)).
  unfold unique_attributes.
  replace (hostAttributes (get Scenario.two_elements 0)) with (@nil HostAttribute)
    by (vm_compute; reflexivity).
  constructor.
Defined.

(** [removeAttribute] without a namespace argument, as [setProperty] calls
    it, drops the attributes of that name in every namespace and keeps all
    the others. *)
Theorem removeAttribute_without_namespace st element name a :
  a ∈ hostAttributes (get (removeAttribute element name None st) element)
  ↔ a ∈ hostAttributes (get st element) ∧ Host.name a ≠ name.
Proof.
  unfold removeAttribute. rewrite get_update_eq. simpl.
  rewrite elem_of_js_filter, andb_true_iff, !bool_decide_eq_true. split.
  - intros (Ha & Hn & _). done.
  - intros (Ha & Hn). done.
Qed.

End AttributeInvariants.

(** ** The renderer: attributes read back *)

Module AttributeRoundTrips.
Import Host Renderer Invariants Expected HostFacts JsFacts BooleanFacts AttributeInvariants.

Section Find.
Context {A : Type}.

Lemma find_alter_other (p : A -> bool) (f : A -> A) (l : list A) (i : nat) :
  (∀ a, p (f a) = p a) ->
  (∀ a, l !! i = Some a -> p a = false) ->
  Js.find p (alter f i l) = Js.find p l.
Proof.
  intros Hf. revert i. induction l as [|y l IH]; intros [|i] Hi; simpl; try done.
  - rewrite Hf. by rewrite (Hi y eq_refl).
  - destruct (p y); [done|]. by apply IH.
Qed.

Lemma find_push_other (p : A -> bool) (l : list A) (a : A) :
  p a = false -> Js.find p (l ++ [a]) = Js.find p l.
Proof.
  intros Ha. induction l as [|y l IH]; simpl.
  - by rewrite Ha.
  - by destruct (p y).
Qed.

Lemma find_findIndex (p : A -> bool) (l : list A) (i : nat) :
  Js.findIndex p l = Some i -> Js.find p l = l !! i.
Proof.
  revert i. induction l as [|y l IH]; intros i; simpl; [done|].
  destruct (p y).
  - by intros [= <-].
  - destruct (Js.findIndex p l) as [j|]; simpl; [|done].
    intros [= <-]. by apply IH.
Qed.

Lemma findIndex_push_new (p : A -> bool) (l : list A) (a : A) :
  Js.findIndex p l = None -> p a = true -> Js.findIndex p (l ++ [a]) = Some (length l).
Proof.
  intros Hl Ha. induction l as [|y l IH]; simpl in *.
  - by rewrite Ha.
  - destruct (p y); [done|].
    destruct (Js.findIndex p l); [done|]. by rewrite IH.
Qed.

Lemma findIndex_none (p : A -> bool) (l : list A) :
  (∀ a, a ∈ l -> p a = false) -> Js.findIndex p l = None.
Proof.
  induction l as [|y l IH]; intros Hl; simpl; [done|].
  rewrite (Hl y) by left. rewrite IH; [done|]. intros a Ha. apply Hl. by right.
Qed.

End Find.

Lemma same_key_both name ns name' ns' a :
  same_key name ns a = true -> same_key name' ns' a = true -> name' = name ∧ ns' = ns.
Proof.
  unfold same_key. rewrite !andb_true_iff, !bool_decide_eq_true.
  intros [<- <-] [<- <-]. done.
Qed.

Lemma defaultNull_default ns : defaultNull ns = Some (default None ns).
Proof. by destruct ns. Qed.

Lemma find_same_key name n (l : list HostAttribute) :
  match Js.find (same_key name (Some n)) l with
  | Some a => has_key name n l
  | None => ¬ has_key name n l
  end.
Proof.
  unfold has_key. induction l as [|a l IH]; simpl.
  - apply not_elem_of_nil.
  - destruct (same_key name (Some n) a) eqn:Ha.
    + unfold same_key in Ha. apply andb_true_iff in Ha as [Hn Hs].
      apply bool_decide_eq_true in Hn, Hs. csimpl. unfold attr_key at 1.
      injection Hs as Hs. rewrite Hn, Hs. left.
    + destruct (Js.find _ l).
      * csimpl. by right.
      * csimpl. rewrite not_elem_of_cons. split; [|done].
        intros Hk. rewrite (same_key_of_key name n a) in Ha; done.
Qed.

(** What [getAttribute] finds after a [setAttribute]. *)
Lemma getAttribute_setAttribute_cases st element name v namespace name' namespace' :
  getAttribute element name' namespace' (setAttribute element name v namespace st)
  = if decide (name' = name ∧ default None namespace' = default None namespace) then
      if decide (has_attribute st element name (default None namespace)) then v
      else Js.VString (Js.String v)
    else getAttribute element name' namespace' st.
Proof.
  unfold getAttribute, setAttribute, has_attribute. rewrite !defaultNull_default.
  pose proof (find_same_key name (default None namespace) (hostAttributes (get st element)))
    as Hfind.
  destruct (Js.findIndex _ _) as [i|] eqn:Hi; rewrite get_update_eq;
    unfold with_attributes, hostAttributes at 1.
  - destruct (findIndex_Some _ _ _ Hi) as (a & Ha & Hpa).
    rewrite (find_findIndex _ _ _ Hi), Ha in Hfind.
    case_decide as Hk.
    + destruct Hk as [-> ->].
      rewrite (find_alter _ _ _ i (same_key_set_attr_value name _ v) Hi).
      rewrite Ha. simpl. by rewrite decide_True.
    + rewrite find_alter_other; [done|apply same_key_set_attr_value|].
      intros a' Ha'. rewrite Ha in Ha'. injection Ha' as <-.
      destruct (same_key name' _ a) eqn:Hp'; [|done].
      destruct Hk. destruct (same_key_both _ _ _ _ a Hpa Hp') as [-> [= ->]]. done.
  - rewrite (find_findIndex_None _ _ Hi) in Hfind.
    unfold Js.push. case_decide as Hk.
    + destruct Hk as [-> ->].
      rewrite (find_push_new _ _ _ Hi); [by rewrite decide_False|].
      unfold same_key. simpl. by rewrite !bool_decide_eq_true_2.
    + rewrite find_push_other; [done|].
      unfold same_key. simpl. apply andb_false_iff.
      rewrite !bool_decide_eq_false.
      destruct (decide (name = name')) as [<-|]; [|by left]. right.
      intros Hn'. destruct Hk. split; [done|]. congruence.
Qed.

(** What [setAttribute] does, for every namespace (a namespace left out
    counts as [null]) and every value that is not a number outside the safe
    integers.  Under the name and namespace that were set, [getAttribute]
    then finds the value as it was passed if the attribute was there, and
    its string if it was not; under any other name or namespace it finds
    what was there before.  No attribute is dropped or moved: the keys are
    those of before, followed by the new one if there was none.  No other
    node changes. *)
Theorem getAttribute_after_setAttribute st element name v namespace :
  Js.safe v = true ->
  (∀ name' namespace',
     getAttribute element name' namespace' (setAttribute element name v namespace st)
     = if decide (name' = name ∧ default None namespace' = default None namespace) then
         if decide (has_attribute st element name (default None namespace)) then v
         else Js.VString (Js.String v)
       else getAttribute element name' namespace' st)
  ∧ attr_key <$> hostAttributes (get (setAttribute element name v namespace st) element)
    = (attr_key <$> hostAttributes (get st element))
      ++ (if decide (has_attribute st element name (default None namespace)) then []
          else [(name, default None namespace)])
  ∧ ∀ element', element' ≠ element ->
      get (setAttribute element name v namespace st) element' = get st element'.
Proof.
  intros _.
  split; [intros name' namespace'; apply getAttribute_setAttribute_cases|]. split.
  - pose proof (find_same_key name (default None namespace) (hostAttributes (get st element)))
      as Hfind.
    unfold setAttribute, has_attribute. rewrite defaultNull_default.
    destruct (Js.findIndex _ _) as [i|] eqn:Hi; rewrite get_update_eq; simpl.
    + rewrite (find_findIndex _ _ _ Hi) in Hfind.
      destruct (findIndex_Some _ _ _ Hi) as (a & Ha & _). rewrite Ha in Hfind.
      rewrite decide_True by done. by rewrite keys_alter, app_nil_r.
    + rewrite (find_findIndex_None _ _ Hi) in Hfind.
      rewrite decide_False by done. unfold Js.push. by rewrite fmap_app.
  - intros element' Hne. unfold setAttribute.
    destruct (Js.findIndex _ _); by rewrite get_update_ne.
Qed.

(** [removeAttribute] leaves no attribute of that name, whatever the
    namespace it is given and whatever the namespace then asked for. *)
Theorem getAttribute_after_removeAttribute st element name namespace namespace' :
  getAttribute element name namespace' (removeAttribute element name namespace st) = Js.VNull.
Proof.
  unfold getAttribute, removeAttribute. rewrite get_update_eq. simpl.
  rewrite find_none; [done|].
  intros a [_ Hp]%elem_of_js_filter. apply andb_true_iff in Hp as [Hname _].
  apply bool_decide_eq_true in Hname. unfold same_key.
  by rewrite (bool_decide_eq_false_2 _ Hname).
Qed.

Lemma isStyle_none (l : list HostAttribute) :
  ("style", None) ∉ attr_key <$> l ->
  Js.findIndex (fun attr : HostAttribute =>
                  bool_decide (Host.name attr = "style")
                  && bool_decide (attrNamespace attr = None)) l = None.
Proof.
  intros Hl. apply findIndex_none. intros a Ha.
  apply andb_false_iff. rewrite !bool_decide_eq_false.
  destruct (decide (Host.name a = "style")) as [Hn|]; [|by left]. right.
  intros Hns. apply Hl. apply list_elem_of_fmap. exists a. split; [|done].
  unfold attr_key. by rewrite Hn, Hns.
Qed.

Lemma string_app_assoc (a b c : string) : (a +:+ b) +:+ c = a +:+ b +:+ c.
Proof.
  induction a as [|x a IH]; [done|].
  change (String x ((a +:+ b) +:+ c) = String x (a +:+ b +:+ c)). by rewrite IH.
Qed.

Lemma concat_snoc (sep : string) (l : list string) (x y : string) :
  String.concat sep (l ++ [x; y]) = String.concat sep (l ++ [x]) +:+ sep +:+ y.
Proof.
  induction l as [|z l IH]; [done|].
  change ((z :: l) ++ [x; y]) with (z :: (l ++ [x; y])).
  change ((z :: l) ++ [x]) with (z :: (l ++ [x])).
  destruct l as [|z' l].
  - cbn. by rewrite !string_app_assoc.
  - cbn in *. rewrite IH. by rewrite !string_app_assoc.
Qed.

Lemma setCSSStyleProperty_more element (l : list HostAttribute) pre d ds st :
  ("style", None) ∉ attr_key <$> l ->
  hostAttributes (get st element)
  = l ++ [mkAttr "style" None (Js.VString (declarations (pre ++ [d])))] ->
  hostAttributes
    (get (foldl (fun st d => setCSSStyleProperty element d.1.1 d.1.2 d.2 st) st ds) element)
  = l ++ [mkAttr "style" None (Js.VString (declarations (pre ++ d :: ds)))].
Proof.
  intros Hl. revert pre d st. induction ds as [|d' ds IH]; intros pre d st Hst; simpl; [done|].
  replace (pre ++ d :: d' :: ds) with ((pre ++ [d]) ++ d' :: ds) by by rewrite <- app_assoc.
  apply IH. unfold setCSSStyleProperty. rewrite Hst.
  rewrite (findIndex_push_new _ l (mkAttr "style" None (Js.VString (declarations (pre ++ [d]))))
             (isStyle_none l Hl) eq_refl).
  rewrite get_update_eq. simpl.
  rewrite alter_app_r_alt by done.
  rewrite Nat.sub_diag. simpl. do 3 f_equal.
  unfold declarations. rewrite <- app_assoc. simpl. rewrite !fmap_app. simpl.
  by rewrite concat_snoc.
Qed.

(** The calls of [setCSSStyleProperty] on an element without a [style]
    attribute give it one, after the attributes it has, whose value is the
    declarations in the order of the calls. *)
Theorem setCSSStyleProperty_accumulates element d ds st :
  ¬ has_attribute st element "style" None ->
  hostAttributes
    (get (foldl (fun st d => setCSSStyleProperty element d.1.1 d.1.2 d.2 st) st (d :: ds))
         element)
  = hostAttributes (get st element)
    ++ [mkAttr "style" None (Js.VString (declarations (d :: ds)))].
Proof.
  intros Hl. simpl. apply (setCSSStyleProperty_more element _ [] d ds); [done|].
  unfold setCSSStyleProperty. rewrite (isStyle_none _ Hl).
  rewrite get_update_eq. done.
Qed.

Lemma setCSSStyleProperty_accumulates_witness :
  (¬ has_attribute Scenario.two_elements 0 "style" None)
  ∧ hostAttributes
      (get (foldl (fun st d => setCSSStyleProperty 0 d.1.1 d.1.2 d.2 st) Scenario.two_elements
              [("color", "red", false); ("width", "1px", true)]) 0)
    = [mkAttr "style" None (Js.VString "color: red; width: 1px !important")].
Proof.
  assert (H : ¬ has_attribute Scenario.two_elements 0 "style" None).
  { unfold has_attribute.
    replace (hostAttributes (get Scenario.two_elements 0)) with (@nil HostAttribute)
      by (vm_compute; reflexivity).
    apply not_elem_of_nil. }
  split; [exact H|].
  exact (setCSSStyleProperty_accumulates 0 ("color", "red", false) [("width", "1px", true)]
           Scenario.two_elements H).
Defined.

End AttributeRoundTrips.

(** ** The renderer: properties read back *)

Module PropertyFacts.
Import Host Renderer Invariants Expected HostFacts JsFacts BooleanFacts AttributeInvariants
       AttributeRoundTrips.

Lemma read_write_key key v fields :
  key ∈ fields.*1 -> read_key key (write_key key v fields) = v.
Proof.
  induction fields as [|[k w] fields IH]; csimpl.
  - by intros ?%elem_of_nil.
  - intros Hk. destruct (decide (k = key)) as [->|Hne]; simpl.
    + by rewrite decide_True.
    + rewrite decide_False by done. apply IH.
      apply elem_of_cons in Hk as [Hk|Hk]; [congruence|done].
Qed.

Lemma write_key_keys key v fields : (write_key key v fields).*1 = fields.*1.
Proof.
  induction fields as [|[k w] fields IH]; csimpl; [done|].
  destruct (decide (k = key)); csimpl; [done|]. by rewrite IH.
Qed.

Lemma read_write_key_ne key key' v fields :
  key' ≠ key -> read_key key' (write_key key v fields) = read_key key' fields.
Proof.
  intros Hne. induction fields as [|[k w] fields IH]; simpl; [done|].
  destruct (decide (k = key)) as [->|Hk]; simpl.
  - by rewrite !decide_False by done.
  - destruct (decide (k = key')); [done|]. apply IH.
Qed.

(** What [setAttribute] and [removeAttribute] leave alone on the element. *)
Lemma setAttribute_node st element name v namespace :
  ∃ l, get (setAttribute element name v namespace st) element
       = with_attributes l (get st element).
Proof.
  unfold setAttribute. destruct (Js.findIndex _ _); rewrite get_update_eq; by eexists.
Qed.

Lemma removeAttribute_node st element name namespace :
  ∃ l, get (removeAttribute element name namespace st) element
       = with_attributes l (get st element).
Proof. unfold removeAttribute. rewrite get_update_eq. by eexists. Qed.

Section Properties.
Variable isBooleanAttribute : string -> Js.value -> bool.
Variable isGlobalHtmlAttribute : string -> bool.
Variable isAriaAttribute : string -> bool.
Variable htmlPropertyToAttribute : string -> string.
Variable production : bool.

Abbreviation getProperty :=
  (getProperty isBooleanAttribute isGlobalHtmlAttribute isAriaAttribute
               htmlPropertyToAttribute production).
Abbreviation setProperty :=
  (setProperty isBooleanAttribute isGlobalHtmlAttribute isAriaAttribute
               htmlPropertyToAttribute production).

(** A property that the node has as a key of its own reads back as the
    value that was written, whatever the value and the kind of node; the
    write touches neither attributes nor children nor the console. *)
Theorem own_property_round_trip st node key v :
  key_in key (get st node) = true ->
  (getProperty node key (setProperty node key v st)).2 = v
  ∧ hostAttributes (get (setProperty node key v st) node) = hostAttributes (get st node)
  ∧ hostChildren (get (setProperty node key v st) node) = hostChildren (get st node)
  ∧ console (setProperty node key v st) = console st.
Proof.
  intros Hin.
  assert (Hset : setProperty node key v st
                 = update node (with_stringKeyed (write_key key v (stringKeyed (get st node)))) st).
  { unfold Renderer.setProperty. by rewrite Hin. }
  unfold key_in in Hin. apply bool_decide_eq_true in Hin.
  rewrite Hset. split; [|by rewrite get_update_eq].
  unfold Renderer.getProperty, key_in. rewrite get_update_eq. simpl.
  rewrite write_key_keys, bool_decide_eq_true_2 by done. simpl.
  by apply read_write_key.
Qed.

(** The branch that [getProperty] takes depends on the string keys, the type
    and the tag name of the node only. *)
Lemma getProperty_with_attributes st st' node key :
  stringKeyed (get st' node) = stringKeyed (get st node) ->
  hostType (get st' node) = hostType (get st node) ->
  key_in key (get st node) = false ->
  hostType (get st node) = Element ->
  (getProperty node key st').2
  = let attrName := htmlPropertyToAttribute key in
    if isBooleanAttribute attrName (tagName (get st node)) then
      Js.nullish (getAttribute node attrName None st') (Js.VBool false)
    else if isGlobalHtmlAttribute attrName || isAriaAttribute attrName then
      getAttribute node attrName None st'
    else if bool_decide (tagName (get st node) = Js.VString "input")
            && bool_decide (key = "value") then
      Js.nullish (getAttribute node "value" None st') (Js.VString "")
    else Js.VUndefined.
Proof.
  intros Hk Ht Hin He. unfold Renderer.getProperty, key_in, tagName in *.
  rewrite Hk, Ht, Hin, He. rewrite decide_True by done. simpl.
  repeat case_match; done.
Qed.

Lemma setAttribute_keeps st element name v namespace :
  stringKeyed (get (setAttribute element name v namespace st) element)
  = stringKeyed (get st element)
  ∧ hostType (get (setAttribute element name v namespace st) element)
    = hostType (get st element).
Proof. destruct (setAttribute_node st element name v namespace) as [l ->]. done. Qed.

Lemma removeAttribute_keeps_node st element name namespace :
  stringKeyed (get (removeAttribute element name namespace st) element)
  = stringKeyed (get st element)
  ∧ hostType (get (removeAttribute element name namespace st) element)
    = hostType (get st element).
Proof. destruct (removeAttribute_node st element name namespace) as [l ->]. done. Qed.

(** A boolean property reads back as the empty string after [true] was
    written, and as [false] after anything else was. *)
Theorem boolean_property_round_trip st node key v :
  key_in key (get st node) = false ->
  hostType (get st node) = Element ->
  key ≠ "innerHTML" ->
  isBooleanAttribute (htmlPropertyToAttribute key) (tagName (get st node)) = true ->
  (getProperty node key (setProperty node key v st)).2
  = if bool_decide (v = Js.VBool true) then Js.VString "" else Js.VBool false.
Proof.
  intros Hin He Hk Hb.
  rewrite (setProperty_boolean _ _ _ _ _ st node key v Hin He Hk Hb).
  case_bool_decide.
  - destruct (setAttribute_keeps st node (htmlPropertyToAttribute key) (Js.VString "") None)
      as [H1 H2].
    rewrite (getProperty_with_attributes st _ node key H1 H2 Hin He). simpl. rewrite Hb.
    rewrite getAttribute_setAttribute_cases. rewrite decide_True by done.
    simpl default. by case_decide.
  - destruct (removeAttribute_keeps_node st node (htmlPropertyToAttribute key) None)
      as [H1 H2].
    rewrite (getProperty_with_attributes st _ node key H1 H2 Hin He). simpl. rewrite Hb.
    by rewrite getAttribute_removeAttribute.
Qed.

(** A property that stands for a global HTML attribute or an ARIA
    attribute reads back as the value that was written once the attribute
    exists, and as the string of that value when the write created it.
    The value is any but a number outside the safe integers. *)
Theorem reflected_property_round_trip st node key v :
  Js.safe v = true ->
  key_in key (get st node) = false ->
  hostType (get st node) = Element ->
  key ≠ "innerHTML" ->
  isBooleanAttribute (htmlPropertyToAttribute key) (tagName (get st node)) = false ->
  isGlobalHtmlAttribute (htmlPropertyToAttribute key)
  || isAriaAttribute (htmlPropertyToAttribute key) = true ->
  (getProperty node key (setProperty node key v st)).2
  = if decide (has_attribute st node (htmlPropertyToAttribute key) None) then v
    else Js.VString (Js.String v).
Proof.
  intros _ Hin He Hk Hb Hg.
  assert (Hset : setProperty node key v st
                 = setAttribute node (htmlPropertyToAttribute key) v None st).
  { unfold Renderer.setProperty. rewrite Hin, He, decide_True by done.
    rewrite bool_decide_eq_false_2 by done. by rewrite Hb, Hg. }
  rewrite Hset.
  destruct (setAttribute_keeps st node (htmlPropertyToAttribute key) v None) as [H1 H2].
  rewrite (getProperty_with_attributes st _ node key H1 H2 Hin He). simpl. rewrite Hb, Hg.
  rewrite getAttribute_setAttribute_cases. by rewrite decide_True.
Qed.

(** The [value] of an [input] element reads back as the empty string
    after [null] or [undefined] was written, and otherwise as the [value]
    attribute does.  The value is any but a number outside the safe
    integers. *)
Theorem input_value_round_trip st node v :
  Js.safe v = true ->
  key_in "value" (get st node) = false ->
  hostType (get st node) = Element ->
  tagName (get st node) = Js.VString "input" ->
  htmlPropertyToAttribute "value" = "value" ->
  isBooleanAttribute "value" (Js.VString "input") = false ->
  isGlobalHtmlAttribute "value" || isAriaAttribute "value" = false ->
  (getProperty node "value" (setProperty node "value" v st)).2
  = match v with
    | Js.VNull | Js.VUndefined => Js.VString ""
    | _ => if decide (has_attribute st node "value" None) then v
           else Js.VString (Js.String v)
    end.
Proof.
  intros _ Hin He Htag Hattr Hb Hg.
  assert (Hset : setProperty node "value" v st
                 = match v with
                   | Js.VNull | Js.VUndefined => removeAttribute node "value" None st
                   | _ => setAttribute node "value" v None st
                   end).
  { unfold Renderer.setProperty. rewrite Hin, He, decide_True by done.
    rewrite Hattr, Htag, Hb, Hg. simpl. done. }
  rewrite Hset.
  assert (Hget : ∀ st', stringKeyed (get st' node) = stringKeyed (get st node) ->
                        hostType (get st' node) = hostType (get st node) ->
                        (getProperty node "value" st').2
                        = Js.nullish (getAttribute node "value" None st') (Js.VString "")).
  { intros st' H1 H2.
    rewrite (getProperty_with_attributes st _ node "value" H1 H2 Hin He). simpl.
    rewrite Hattr, Htag, Hb, Hg. done. }
  destruct v.
  1,2: destruct (removeAttribute_keeps_node st node "value" None) as [H1 H2];
       rewrite (Hget _ H1 H2); by rewrite getAttribute_removeAttribute.
  all: match goal with
       | |- context [setAttribute ?n "value" ?v None ?s] =>
           destruct (setAttribute_keeps s n "value" v None) as [H1 H2];
           rewrite (Hget _ H1 H2), getAttribute_setAttribute_cases;
           rewrite decide_True by done; simpl default; by case_decide
       end.
Qed.

End Properties.
End PropertyFacts.

(** ** The renderer: siblings, and nodes that were removed *)

Module SiblingFacts.
Import Host Renderer Invariants HostFacts JsFacts TreeFacts OwnershipFacts.

Lemma indexOf_first (l1 l2 : list ref) (x : ref) :
  x ∉ l1 -> Js.indexOf (l1 ++ x :: l2) x = Z.of_nat (length l1).
Proof.
  intros Hx. destruct (indexOf_in (l1 ++ x :: l2) x) as (k & Hk & Hl & Hn).
  { apply elem_of_app. right. left. }
  rewrite Hk. f_equal.
  destruct (decide (k < length l1)) as [Hlt|Hge].
  - rewrite lookup_app_l in Hl by done. exfalso. apply Hx. by eapply list_elem_of_lookup_2.
  - destruct (decide (k = length l1)) as [->|Hne]; [done|].
    exfalso. apply Hn. rewrite take_app_ge by lia.
    apply elem_of_app. right.
    replace (k - length l1) with (S (k - length l1 - 1)) by lia. left.
Qed.

(** [remove] of a node that is among the children takes out its first
    occurrence. *)
Lemma remove_present st node parent l1 l2 :
  hostChildren (get st parent) = l1 ++ node :: l2 ->
  node ∉ l1 ->
  hostChildren (get (remove node parent st) parent) = l1 ++ l2.
Proof.
  intros Hc Hn. unfold remove. rewrite get_update_eq. simpl. rewrite Hc.
  rewrite indexOf_first by done.
  rewrite splice_delete_at by (rewrite length_app; simpl; lia).
  rewrite take_app_length.
  replace (S (length l1)) with (length (l1 ++ [node])) by (rewrite length_app; simpl; lia).
  rewrite (cons_middle node l1 l2), app_assoc. by rewrite drop_app_length.
Qed.

Lemma remove_frame st node parent x :
  hostParent (get (remove node parent st) x) = hostParent (get st x)
  ∧ hostType (get (remove node parent st) x) = hostType (get st x)
  ∧ (x ≠ parent -> get (remove node parent st) x = get st x).
Proof.
  unfold remove. rewrite get_update.
  destruct (decide (parent = x)) as [->|Hne]; simpl; done.
Qed.

(** [remove] of a node that is not among the children of [parent] takes
    out the last child of [parent]. *)
Theorem remove_of_absent_node_drops_last_child st node parent l c :
  hostChildren (get st parent) = l ++ [c] ->
  node ∉ l ++ [c] ->
  hostChildren (get (remove node parent st) parent) = l.
Proof.
  intros Hc Hn. unfold remove. rewrite get_update_eq. simpl. rewrite Hc.
  rewrite (indexOf_notin _ _ Hn), splice_minus_one.
  rewrite length_app. simpl.
  replace (length l + 1 - 1) with (length l) by lia. by rewrite take_app_length.
Qed.

(** [nextSibling] of a node among the children of its parent. *)
Lemma nextSibling_listed st node parent l1 l2 :
  hostParent (get st node) = Some parent ->
  hostChildren (get st parent) = l1 ++ node :: l2 ->
  node ∉ l1 ->
  nextSibling node st = head l2.
Proof.
  intros Hp Hc Hn. unfold nextSibling. rewrite Hp, Hc, indexOf_first by done.
  unfold Js.at_index.
  destruct (Z.ltb_spec (Z.of_nat (length l1) + 1) 0) as [Hlt|_]; [lia|].
  replace (Z.to_nat (Z.of_nat (length l1) + 1)) with (length l1 + 1) by lia.
  rewrite lookup_app_r by lia.
  replace (length l1 + 1 - length l1) with 1 by lia. simpl. by destruct l2.
Qed.

(** [nextSibling] of a node that has a parent but is not among its
    children is the first child of that parent. *)
Lemma nextSibling_of_unlisted_node st node parent :
  hostParent (get st node) = Some parent ->
  node ∉ hostChildren (get st parent) ->
  nextSibling node st = head (hostChildren (get st parent)).
Proof.
  intros Hp Hn. unfold nextSibling. rewrite Hp, (indexOf_notin _ _ Hn).
  unfold Js.at_index. simpl. by destruct (hostChildren (get st parent)).
Qed.

(** The node that [remove] took out keeps its parent link: it still
    counts as connected, and it reports the first of the remaining children
    as its next sibling. *)
Theorem removed_node_stays_connected st node parent l1 l2 :
  hostParent (get st node) = Some parent ->
  hostChildren (get st parent) = l1 ++ node :: l2 ->
  node ∉ l1 ++ l2 ->
  isConnected node (remove node parent st) = true
  ∧ hostChildren (get (remove node parent st) parent) = l1 ++ l2
  ∧ nextSibling node (remove node parent st) = head (l1 ++ l2).
Proof.
  intros Hp Hc Hn.
  assert (Hn1 : node ∉ l1) by (intros ?; apply Hn, elem_of_app; by left).
  pose proof (remove_present st node parent l1 l2 Hc Hn1) as Hc'.
  destruct (remove_frame st node parent node) as (Hp' & _ & _). rewrite Hp in Hp'.
  split; [|split; [done|]].
  - unfold isConnected. rewrite Hp'. done.
  - rewrite (nextSibling_of_unlisted_node _ node parent Hp') by by rewrite Hc'.
    by rewrite Hc'.
Qed.

(** Where [insert] puts the node: before the anchor when the anchor is
    among the children, and last otherwise. *)
Lemma nextSibling_inserted st node parent anchor :
  node ∉ hostChildren (get st parent) ->
  nextSibling node (insert node parent anchor st)
  = match anchor with
    | Some a => if decide (a ∈ hostChildren (get st parent)) then Some a else None
    | None => None
    end.
Proof.
  intros Hn.
  pose proof (insert_parent st node parent anchor node) as Hp.
  rewrite decide_True in Hp by done.
  pose proof (insert_children_parent st node parent anchor) as Hc. simpl in Hc.
  set (c := hostChildren (get st parent)) in *.
  assert (Hlast : nextSibling node (insert node parent anchor st) = None
                  ∨ hostChildren (get (insert node parent anchor st) parent) ≠ Js.push c node).
  { destruct (decide (hostChildren (get (insert node parent anchor st) parent)
                      = Js.push c node)) as [Hpush|]; [left|by right].
    unfold Js.push in Hpush.
    replace (c ++ [node]) with (c ++ node :: []) in Hpush by done.
    by rewrite (nextSibling_listed _ node parent c [] Hp Hpush Hn). }
  destruct anchor as [a|].
  - destruct (decide (a ∈ c)) as [Ha|Ha].
    + destruct (indexOf_in c a Ha) as (k & Hk & Hl & _).
      rewrite Hk in Hc. rewrite decide_False in Hc by lia.
      rewrite splice_insert_at in Hc by (apply lookup_lt_Some in Hl; lia).
      rewrite (nextSibling_listed _ node parent (take k c) (drop k c) Hp Hc).
      * rewrite <- (take_drop_middle c k a Hl) at 1.
        rewrite drop_app_length'; [done|]. rewrite length_take.
        apply lookup_lt_Some in Hl. lia.
      * intros Hin. apply Hn. eapply elem_of_sublist; [exact Hin|apply sublist_take].
    + rewrite (indexOf_notin c a Ha) in Hc. rewrite decide_True in Hc by done.
      by destruct Hlast.
  - rewrite decide_True in Hc by done. by destruct Hlast.
Qed.

(** [insert] of a node that is not yet among the children of the
    destination makes the destination its parent and adds it to the
    children, keeping the others: before the anchor when the anchor is among
    them, and last otherwise. *)
Theorem nextSibling_after_insert st node parent anchor :
  node ∉ hostChildren (get st parent) ->
  hostParent (get (insert node parent anchor st) node) = Some parent
  ∧ isConnected node (insert node parent anchor st) = true
  ∧ hostChildren (get (insert node parent anchor st) parent)
    ≡ₚ node :: hostChildren (get st parent)
  ∧ nextSibling node (insert node parent anchor st)
    = match anchor with
      | Some a => if decide (a ∈ hostChildren (get st parent)) then Some a else None
      | None => None
      end.
Proof.
  intros Hn.
  assert (Hp : hostParent (get (insert node parent anchor st) node) = Some parent).
  { rewrite insert_parent. by rewrite decide_True. }
  split; [done|]. split; [unfold isConnected; by rewrite Hp|]. split.
  - rewrite insert_children_parent.
    destruct (inserted_shape (hostChildren (get st parent)) anchor node) as (k & _ & Hshape).
    simpl in *. rewrite Hshape. rewrite <- Permutation_middle. by rewrite take_drop.
  - by apply nextSibling_inserted.
Qed.

(** [insert] keeps single ownership when the node is not yet among the
    children of the destination. *)
Lemma insert_single_owner_unlisted st node parent anchor :
  single_owner st ->
  node ∉ hostChildren (get st parent) ->
  single_owner (insert node parent anchor st).
Proof.
  intros Hso Hnotin.
  intros q. destruct (decide (q = parent)) as [->|Hq].
  - rewrite insert_children_parent.
    destruct (inserted_shape (hostChildren (get st parent)) anchor node) as (k & Hk & Hshape).
    simpl in *. rewrite Hshape. clear Hshape.
    destruct (Hso parent) as [Hnd Hpar]. split.
    + rewrite <- (take_drop k (hostChildren (get st parent))) in Hnd, Hnotin.
      apply NoDup_app in Hnd as (Hnd1 & Hdisj & Hnd2).
      apply NoDup_app. split; [done|]. split.
      * intros x Hx [->|Hx2]%elem_of_cons.
        -- apply Hnotin. apply elem_of_app. by left.
        -- by apply (Hdisj x).
      * apply NoDup_cons. split; [|done].
        intros Hin. apply Hnotin. apply elem_of_app. by right.
    + intros n Hn. rewrite insert_parent.
      destruct (decide (n = node)) as [->|Hne]; [done|].
      apply Hpar.
      rewrite <- (take_drop k (hostChildren (get st parent))).
      apply elem_of_app in Hn as [Hn|Hn]; [apply elem_of_app; by left|].
      apply elem_of_cons in Hn as [->|Hn]; [congruence|apply elem_of_app; by right].
  - rewrite insert_children_other by done.
    destruct (Hso q) as [Hnd Hpar].
    destruct (decide (hostParent (get st node) = Some q)) as [Hold|Hold].
    + split.
      * eapply sublist_NoDup; [exact Hnd|apply splice_indexOf_sublist].
      * intros n Hn. rewrite insert_parent.
        destruct (decide (n = node)) as [->|Hne].
        -- exfalso. by apply (splice_indexOf_notin _ node Hnd).
        -- apply Hpar. eapply elem_of_sublist; [exact Hn|apply splice_indexOf_sublist].
    + split; [done|]. intros n Hn. rewrite insert_parent.
      destruct (decide (n = node)) as [->|Hne]; [|by apply Hpar].
      exfalso. apply Hold. by apply Hpar.
Qed.

Lemma remove_single_owner st node parent :
  single_owner st -> single_owner (remove node parent st).
Proof.
  intros Hso q. destruct (Hso q) as [Hnd Hpar].
  assert (Hsub : hostChildren (get (remove node parent st) q)
                 `sublist_of` hostChildren (get st q)).
  { unfold remove. rewrite get_update. destruct (decide (parent = q)) as [->|]; [|done].
    simpl. apply splice_indexOf_sublist. }
  split.
  - by eapply sublist_NoDup.
  - intros n Hn. destruct (remove_frame st node parent n) as (-> & _).
    apply Hpar. by eapply elem_of_sublist.
Qed.

(** Moving a child inside its parent by [remove] and then [insert]
    keeps single ownership, keeps the children the parent had, and puts the
    node before the anchor. *)
Theorem remove_then_insert_moves_within_parent st node parent anchor :
  single_owner st ->
  node ∈ hostChildren (get st parent) ->
  let st' := insert node parent anchor (remove node parent st) in
  single_owner st'
  ∧ hostChildren (get st' parent) ≡ₚ hostChildren (get st parent)
  ∧ hostParent (get st' node) = Some parent
  ∧ nextSibling node st'
    = match anchor with
      | Some a => if decide (a ∈ hostChildren (get st parent) ∧ a ≠ node) then Some a
                  else None
      | None => None
      end.
Proof.
  intros Hso Hin st'.
  destruct (Hso parent) as [Hnd Hpar].
  apply list_elem_of_split in Hin as (l1 & l2 & Hc).
  assert (Hn12 : node ∉ l1 ++ l2).
  { rewrite Hc in Hnd. apply NoDup_app in Hnd as (_ & Hdisj & Hnd2).
    apply NoDup_cons in Hnd2 as [Hn2 _].
    intros [H1|H2]%elem_of_app; [|done]. apply (Hdisj node H1). left. }
  assert (Hn1 : node ∉ l1) by (intros ?; apply Hn12, elem_of_app; by left).
  pose proof (remove_present st node parent l1 l2 Hc Hn1) as Hc1.
  assert (Hn' : node ∉ hostChildren (get (remove node parent st) parent)) by by rewrite Hc1.
  split; [|split; [|split]].
  - apply insert_single_owner_unlisted; [by apply remove_single_owner|done].
  - subst st'. rewrite insert_children_parent.
    destruct (inserted_shape (hostChildren (get (remove node parent st) parent)) anchor node)
      as (k & Hk & Hshape).
    simpl in *. rewrite Hshape, Hc1, Hc.
    rewrite <- !Permutation_middle. by rewrite take_drop.
  - subst st'. rewrite insert_parent. by rewrite decide_True.
  - subst st'. rewrite (nextSibling_inserted _ _ _ _ Hn'). destruct anchor as [a|]; [|done].
    rewrite Hc1, Hc.
    destruct (decide (a ∈ l1 ++ l2)) as [Ha|Ha].
    + rewrite decide_True; [done|]. split.
      * apply elem_of_app in Ha as [Ha|Ha]; apply elem_of_app; [by left|right; by right].
      * intros ->. done.
    + rewrite decide_False; [done|]. intros [Ha' Hne]. apply Ha.
      apply elem_of_app in Ha' as [Ha'|Ha']; apply elem_of_app; [by left|right].
      apply elem_of_cons in Ha' as [->|Ha']; done.
Qed.

End SiblingFacts.

(** ** The renderer: the listeners that a dispatch runs *)

Module TraceFacts.
Import Host Renderer Invariants ExpectedEvents HostFacts JsFacts DispatchFacts.

Lemma with_eventListeners_id (n : HostNode) : with_eventListeners (hostEventListeners n) n = n.
Proof. by destruct n. Qed.





Section Trace.
Variable body : nat -> list ProxyCall.




Lemma filter_all {A} (P : A -> Prop) `{∀ x, Decision (P x)} (l : list A) :
  (∀ x, x ∈ l -> P x) -> filter P l = l.
Proof.
  induction l as [|x l IH]; intros Hl; [done|].
  rewrite filter_cons, decide_True by (apply Hl; left).
  rewrite IH; [done|]. intros y Hy. apply Hl. by right.
Qed.

Lemma set_delete_filter (s : list Listener) (l : Listener) :
  Js.set_delete s l = filter (fun x => x ≠ l) s.
Proof.
  unfold Js.set_delete. rewrite js_filter_stdpp.
  apply filter_ext_elem. intros x _. by rewrite bool_decide_eq_true.
Qed.

Lemma heard_sublist cbs : heard body cbs `sublist_of` cbs.
Proof.
  induction cbs as [|cb cbs IH]; simpl; [done|].
  apply sublist_skip. destruct (stops_immediately body cb); [apply sublist_nil_l|done].
Qed.







Lemma trace_nodes st t nodes m l : (m, l) ∈ trace body st t nodes -> m ∈ nodes.
Proof.
  induction nodes as [|n nodes IH]; simpl; [by intros ?%elem_of_nil|].
  intros [Hin|Hin]%elem_of_app.
  - apply list_elem_of_fmap in Hin as (x & [= -> ->] & _). left.
  - right. destruct (existsb _ _); [by apply elem_of_nil in Hin|by apply IH].
Qed.

Lemma trace_listeners st t nodes m l :
  (m, l) ∈ trace body st t nodes ->
  hostType (get st m) = Element ∧ l ∈ listeners_at st m t.
Proof.
  induction nodes as [|n nodes IH]; simpl; [by intros ?%elem_of_nil|].
  intros [Hin|Hin]%elem_of_app.
  - apply list_elem_of_fmap in Hin as (x & [= -> ->] & Hx).
    case_decide; [|by apply elem_of_nil in Hx]. split; [done|].
    eapply elem_of_sublist; [exact Hx|apply heard_sublist].
  - destruct (existsb _ _); [by apply elem_of_nil in Hin|by apply IH].
Qed.



End Trace.
End TraceFacts.

(** ** The renderer: listener sets, and what a dispatch invokes *)

Module ListenerFacts.
Import Host Renderer Invariants ExpectedEvents HostFacts JsFacts DispatchFacts TraceFacts.

Lemma set_delete_set_add (s : list Listener) (l : Listener) :
  Js.set_delete (Js.set_add s l) l = Js.set_delete s l.
Proof.
  unfold Js.set_add. destruct (decide (l ∈ s)); [done|].
  rewrite !set_delete_filter, filter_app, filter_cons, decide_False by (by intros H; apply H).
  by rewrite filter_nil, app_nil_r.
Qed.

Lemma set_delete_notin (s : list Listener) (l : Listener) : l ∉ s -> Js.set_delete s l = s.
Proof.
  intros Hl. rewrite set_delete_filter. apply filter_all. intros x Hx ->. done.
Qed.

Lemma set_add_idem (s : list Listener) (l : Listener) :
  Js.set_add (Js.set_add s l) l = Js.set_add s l.
Proof.
  unfold Js.set_add at 1. rewrite decide_True; [done|]. apply elem_of_set_add. by right.
Qed.

Lemma saved_plain node type callback options st :
  plain options ->
  saved node type callback options st
  = if iterable st node type then Some (UserFn callback) else None.
Proof. intros [->|[->| ->]]; unfold saved; simpl; by destruct (iterable st node type). Qed.


(** A set that [addEventListener] finds or makes is there afterwards, and
    a call that throws makes none. *)
Lemma addEventListener_iterable node type callback options st :
  hostType (get st node) = Element ->
  capturing options = false ->
  iterable (addEventListener node type callback options st).1 node type
  = iterable st node type.
Proof.
  intros Hel Hc. rewrite (addEventListener_shape _ _ _ _ _ Hel). unfold saved. rewrite Hc.
  destruct (iterable st node type) eqn:Hit; simpl.
  - unfold iterable. rewrite get_update_eq. simpl. rewrite lookup_insert_eq.
    by rewrite bool_decide_eq_true_2 by by eexists.
  - rewrite <- Hit. unfold iterable, get. by destruct options as [ | [ | ] | [ | ] [ | ] ].
Qed.

(** The listener sets behave as sets: a callback that is added twice is
    held once, and [removeEventListener] takes it out again, leaving the set
    as it was when the callback was not in it.  The calls return where the
    listener table gives a set or nothing for the type; where it gives an
    inherited member they throw, and the sets are as they were. *)
Theorem addEventListener_then_removeEventListener st node type callback options options' :
  hostType (get st node) = Element ->
  plain options -> plain options' ->
  let added := (addEventListener node type callback options st).1 in
  (∀ m t, listeners_at (addEventListener node type callback options' added).1 m t
          = listeners_at added m t)
  ∧ (∀ m t, listeners_at (removeEventListener node type (UserFn callback) added).1 m t
            = if decide (m = node ∧ t = type)
              then Js.set_delete (listeners_at st m t) (UserFn callback)
              else listeners_at st m t)
  ∧ (UserFn callback ∉ listeners_at st node type ->
     ∀ m t, listeners_at (removeEventListener node type (UserFn callback) added).1 m t
            = listeners_at st m t)
  ∧ (addEventListener node type callback options st).2
    = (if iterable st node type then Js.Return tt else Js.Throw add_is_not_a_function)
  ∧ (removeEventListener node type (UserFn callback) added).2
    = (if iterable st node type then Js.Return tt else Js.Throw delete_is_not_a_function).
Proof.
  intros Hel Hp Hp' added.
  assert (Hcap : ∀ o, plain o -> capturing o = false) by (by intros o [->|[->| ->]]).
  assert (Hel' : hostType (get added node) = Element).
  { subst added. by rewrite addEventListener_type. }
  assert (Hit' : iterable added node type = iterable st node type).
  { subst added. apply addEventListener_iterable; [done|by apply Hcap]. }
  assert (Hadd : ∀ m t, listeners_at added m t
                        = if iterable st node type then
                            if decide (m = node ∧ t = type)
                            then Js.set_add (listeners_at st m t) (UserFn callback)
                            else listeners_at st m t
                          else listeners_at st m t).
  { intros m t. subst added. rewrite addEventListener_listeners by done.
    rewrite (saved_plain _ _ _ _ _ Hp). by destruct (iterable st node type). }
  assert (Hrem : ∀ m t, listeners_at (removeEventListener node type (UserFn callback) added).1 m t
                        = if decide (m = node ∧ t = type)
                          then Js.set_delete (listeners_at st m t) (UserFn callback)
                          else listeners_at st m t).
  { intros m t. rewrite removeEventListener_listeners, Hadd.
    destruct (iterable st node type) eqn:Hit.
    - destruct (decide (m = node ∧ t = type)) as [[-> ->]|Hne].
      + rewrite decide_True by done. apply set_delete_set_add.
      + rewrite decide_False; [done|]. intros (-> & -> & _). by apply Hne.
    - destruct (decide (m = node ∧ t = type)) as [[-> ->]|Hne].
      + by rewrite decide_True.
      + rewrite decide_False; [done|]. intros (-> & -> & _). by apply Hne. }
  split; [|split; [exact Hrem|split; [|split]]].
  - intros m t. rewrite addEventListener_listeners by done.
    rewrite (saved_plain _ _ _ _ _ Hp'), Hit'.
    destruct (iterable st node type) eqn:Hit; [|done].
    rewrite Hadd. case_decide; [|done]. apply set_add_idem.
  - intros Hnotin m t. rewrite Hrem. case_decide as Hk; [|done].
    destruct Hk as [-> ->]. by apply set_delete_notin.
  - rewrite addEventListener_ended, (bool_decide_eq_true_2 _ Hel), (Hcap _ Hp).
    by destruct (iterable st node type).
  - rewrite removeEventListener_ended, (bool_decide_eq_true_2 _ Hel'), Hit'.
    by destruct (iterable st node type).
Qed.

(** A registration with [once], for a type that is not the name of a
    member that the listener table inherits, returns and puts a closure of
    its own in the set: [removeEventListener] with a function the
    application holds leaves it there, and a second registration of the
    same callback adds a second closure. *)
Theorem once_registration_is_a_private_closure st node type callback :
  hostType (get st node) = Element ->
  closures_fresh st ->
  Js.inherited type = false ->
  let once := (addEventListener node type callback (Options false true) st).1 in
  let w := OnceFn (nextClosure st) node type callback in
  (addEventListener node type callback (Options false true) st).2 = Js.Return tt
  ∧ listeners_at once node type = listeners_at st node type ++ [w]
  ∧ (∀ f, w ∈ listeners_at (removeEventListener node type (UserFn f) once).1 node type)
  ∧ listeners_at (addEventListener node type callback (Options false true) once).1 node type
    = listeners_at st node type ++ [w; OnceFn (S (nextClosure st)) node type callback].
Proof.
  intros Hel Hfresh Hinh once w.
  assert (Hit : ∀ s, iterable s node type = true).
  { intros s. unfold iterable. by rewrite Hinh, orb_true_r. }
  assert (Hsaved : ∀ s, saved node type callback (Options false true) s
                        = Some (OnceFn (nextClosure s) node type callback)).
  { intros s. unfold saved. by rewrite Hit. }
  assert (Hw : w ∉ listeners_at st node type).
  { intros Hin. apply Hfresh in Hin. lia. }
  assert (Honce : listeners_at once node type = listeners_at st node type ++ [w]).
  { subst once. rewrite addEventListener_listeners by done. rewrite Hsaved.
    rewrite decide_True by done. unfold Js.set_add. by rewrite decide_False. }
  assert (Hel' : hostType (get once node) = Element).
  { subst once. by rewrite addEventListener_type. }
  assert (Hnext : nextClosure once = S (nextClosure st)).
  { subst once. by rewrite addEventListener_nextClosure. }
  split.
  { rewrite addEventListener_ended. by rewrite Hit, andb_false_r. }
  split; [done|]. split.
  - intros f. rewrite removeEventListener_listeners, decide_True by done.
    apply elem_of_set_delete. split; [|done]. rewrite Honce. apply elem_of_app. right. left.
  - rewrite addEventListener_listeners by done. rewrite Hsaved.
    rewrite decide_True by done. rewrite Hnext, Honce.
    unfold Js.set_add. rewrite decide_False.
    + by rewrite <- app_assoc.
    + intros [Hin|Hin]%elem_of_app.
      * apply Hfresh in Hin. lia.
      * apply list_elem_of_singleton in Hin. subst w. injection Hin. lia.
Qed.

Section Dispatch.
Variable body : nat -> list ProxyCall.








End Dispatch.
End ListenerFacts.

(** ** The renderer: the registry of custom elements *)

Module CustomElementFacts.
Import Host Renderer CustomElements HostFacts.

Section Registry.
Variable HTML_NAMESPACE : string.
Variable StringToLowerCase : string -> string.

Abbreviation registerCustomElement := (registerCustomElement StringToLowerCase).
Abbreviation defineCustomElement := (defineCustomElement StringToLowerCase).
Abbreviation defineAll := (defineAll StringToLowerCase).
Abbreviation HTMLElementImpl := (HTMLElementImpl HTML_NAMESPACE).

Lemma registerCustomElement_spec name ctor reg :
  (StringToLowerCase name = name ∧ getCustomElement name reg = None
   ∧ registerCustomElement name ctor reg
     = (mkRegistry (<[name := ctor]> (registry reg)) (<[ctor := name]> (reverseRegistry reg)),
        Js.Return tt))
  ∨ (¬ (StringToLowerCase name = name ∧ getCustomElement name reg = None)
     ∧ registerCustomElement name ctor reg = (reg, Js.Throw invalid_registration)).
Proof.
  unfold CustomElements.registerCustomElement, getCustomElement.
  destruct (bool_decide (name ≠ StringToLowerCase name)) eqn:Hl; simpl.
  - right. apply bool_decide_eq_true in Hl. split; [|done]. intros [H _]. by apply Hl.
  - apply bool_decide_eq_false in Hl. apply dec_stable in Hl.
    destruct (registry reg !! name) as [c|] eqn:Hreg.
    + right. rewrite bool_decide_eq_true_2 by by eexists. split; [|done]. by intros [_ ?].
    + left. rewrite bool_decide_eq_false_2 by by intros [? ?]. done.
Qed.

Lemma registerCustomElement_keeps name ctor reg n c :
  getCustomElement n reg = Some c ->
  getCustomElement n (registerCustomElement name ctor reg).1 = Some c.
Proof.
  intros Hn. destruct (registerCustomElement_spec name ctor reg)
    as [(_ & Hfree & ->)|(_ & ->)]; [|done].
  unfold getCustomElement in *. simpl. rewrite lookup_insert_ne; [done|]. congruence.
Qed.

Lemma defineAll_keeps calls reg n c :
  getCustomElement n reg = Some c -> getCustomElement n (defineAll calls reg) = Some c.
Proof.
  revert reg. induction calls as [|[name ctor] calls IH]; intros reg Hn; [done|].
  simpl. apply IH. by apply registerCustomElement_keeps.
Qed.

(** [defineCustomElement] succeeds exactly on a name that is in lower
    case and not yet registered, and then registers it; otherwise it throws
    and leaves the tables as they were.  A registered name keeps its
    constructor through every later call. *)
Theorem registered_names_are_never_overwritten name ctor reg :
  ((defineCustomElement name ctor reg).2 = Js.Return tt
   ↔ StringToLowerCase name = name ∧ getCustomElement name reg = None)
  ∧ ((defineCustomElement name ctor reg).2 = Js.Return tt ->
     getCustomElement name (defineCustomElement name ctor reg).1 = Some ctor)
  ∧ ((defineCustomElement name ctor reg).2 ≠ Js.Return tt ->
     defineCustomElement name ctor reg = (reg, Js.Throw invalid_registration))
  ∧ (∀ n c calls,
       getCustomElement n reg = Some c -> getCustomElement n (defineAll calls reg) = Some c).
Proof.
  unfold CustomElements.defineCustomElement.
  destruct (registerCustomElement_spec name ctor reg) as [(Hl & Hfree & ->)|(Hno & ->)]; simpl.
  - split; [done|]. split; [|split; [done|]].
    + intros _. unfold getCustomElement. simpl. by rewrite lookup_insert_eq.
    + intros n c calls. apply defineAll_keeps.
  - split; [split; [done|]; intros H; by destruct Hno|].
    split; [done|]. split; [done|].
    intros n c calls. apply defineAll_keeps.
Qed.

Lemma registerCustomElement_consistent name ctor reg :
  consistent StringToLowerCase reg ->
  consistent StringToLowerCase (registerCustomElement name ctor reg).1.
Proof.
  intros [Hrev Hlow].
  destruct (registerCustomElement_spec name ctor reg) as [(Hl & Hfree & ->)|(_ & ->)];
    [|done].
  unfold getCustomElement in Hfree. split; simpl.
  - intros c n. destruct (decide (c = ctor)) as [->|Hc].
    + rewrite lookup_insert_eq. intros [= <-]. by rewrite lookup_insert_eq.
    + rewrite lookup_insert_ne by done. intros Hn.
      rewrite lookup_insert_ne; [by apply Hrev|].
      intros <-. apply Hrev in Hn. congruence.
  - intros n c. destruct (decide (n = name)) as [->|Hn].
    + done.
    + rewrite lookup_insert_ne by done. apply Hlow.
Qed.

Lemma defineAll_consistent calls reg :
  consistent StringToLowerCase reg -> consistent StringToLowerCase (defineAll calls reg).
Proof.
  revert reg. induction calls as [|[name ctor] calls IH]; intros reg Hc; [done|].
  simpl. apply IH. by apply registerCustomElement_consistent.
Qed.

Lemma consistent_empty : consistent StringToLowerCase CustomElements.empty.
Proof. split; intros ? ?; simpl; by rewrite lookup_empty. Qed.

Lemma registerCustomElement_history name ctor reg (P : string -> nat -> Prop) :
  (∀ n c, registry reg !! n = Some c -> P n c) ->
  P name ctor ->
  ∀ n c, registry (registerCustomElement name ctor reg).1 !! n = Some c -> P n c.
Proof.
  intros Hreg HP n c.
  destruct (registerCustomElement_spec name ctor reg) as [(_ & _ & ->)|(_ & ->)];
    [|apply Hreg].
  simpl. destruct (decide (n = name)) as [->|Hn].
  - rewrite lookup_insert_eq. by intros [= <-].
  - rewrite lookup_insert_ne by done. apply Hreg.
Qed.

Lemma defineAll_history calls reg n c :
  registry (defineAll calls reg) !! n = Some c ->
  registry reg !! n = Some c ∨ (n, c) ∈ calls.
Proof.
  revert reg. induction calls as [|[name ctor] calls IH]; intros reg; simpl; [by left|].
  intros H. apply IH in H as [H|H]; [|right; by right].
  apply (registerCustomElement_history name ctor reg
           (fun n c => registry reg !! n = Some c ∨ (n, c) ∈ (name, ctor) :: calls))
    with (n := n) (c := c); [| |exact H].
  - intros n' c' Hn. by left.
  - right. left.
Qed.

(** After any series of [defineCustomElement] calls on the empty
    tables, constructing through a constructor either gives a new element,
    whose tag name is a name that was defined with that constructor, is not
    empty, is in lower case and is registered to that constructor; or it
    throws and leaves the store as it was. *)
Theorem constructor_builds_an_element_of_its_registered_tag calls constructor st :
  let reg := defineAll calls CustomElements.empty in
  match HTMLElementImpl constructor reg st with
  | (st', Js.Return element) =>
      ∃ tag,
        (tag, constructor) ∈ calls
        ∧ tag ≠ ""
        ∧ StringToLowerCase tag = tag
        ∧ getCustomElement tag reg = Some constructor
        ∧ element = nextRef st
        ∧ get st' element
          = mkNode Element [("tagName", Js.VString tag)] HTML_NAMESPACE None None [] [] ∅
                   Js.VUndefined
        ∧ ∀ x, x ≠ element -> get st' x = get st x
  | (st', Js.Throw message) => st' = st ∧ message = invalid_construction
  end.
Proof.
  intros reg.
  pose proof (defineAll_consistent calls _ consistent_empty) as [Hrev Hlow].
  fold reg in Hrev, Hlow.
  unfold CustomElements.HTMLElementImpl.
  destruct (reverseRegistry reg !! constructor) as [tag|] eqn:Htag; [|done].
  case_bool_decide as Hne; [done|]. simpl.
  exists tag. pose proof (Hrev _ _ Htag) as Hreg.
  split.
  { destruct (defineAll_history calls _ _ _ Hreg) as [H|H]; [|done].
    simpl in H. by rewrite lookup_empty in H. }
  split; [done|]. split; [by apply (Hlow tag constructor)|]. split; [done|].
  split; [done|]. unfold get. simpl. split.
  - by rewrite lookup_total_insert_eq.
  - intros x Hx. by rewrite lookup_total_insert_ne.
Qed.

End Registry.
End CustomElementFacts.

(** ** The compiler: the diagnostics on the console *)

Module DiagnosticFacts.
Import CompileTemplate CompileFacts.

Section Console.
Variable Root Options CompilationMode : Type.
Variable parse : string -> Options -> option Root * list CompilerDiagnostic.

(** [compileTemplate] writes every diagnostic of the parser to the
    console, once and in order, whether it then fails or not; and when the
    parser gives no root or a diagnostic is fatal or an error, it fails
    without running any later stage. *)
Theorem compileTemplate_logs_every_warning
    (generate : Root -> string -> Options -> CompilationMode -> Js.completion string)
    (src filename : string) (options : Options) (mode : CompilationMode) :
  (compileTemplate Root Options CompilationMode parse generate src filename options mode).1
  = (fun w => "Cannot compile: " +:+ message w) <$> (parse src options).2
  ∧ ((parse src options).1 = None ∨ existsb blocking (parse src options).2 = true ->
     ∀ generate',
       compileTemplate Root Options CompilationMode parse generate' src filename options mode
       = ((fun w => "Cannot compile: " +:+ message w) <$> (parse src options).2,
          Js.Throw failure)).
Proof.
  assert (H : ∀ g,
             compileTemplate Root Options CompilationMode parse g src filename options mode
             = ((fun w => "Cannot compile: " +:+ message w) <$> (parse src options).2,
                match (parse src options).1 with
                | Some root =>
                    if existsb blocking (parse src options).2 then Js.Throw failure
                    else g root filename options mode
                | None => Js.Throw failure
                end)).
  { intros g. unfold compileTemplate.
    destruct (parse src options) as [root warnings]. simpl.
    rewrite not_root, no_warnings.
    destruct root as [root|]; simpl.
    - destruct warnings as [|w warnings]; [done|].
      rewrite forWarnings_spec. simpl. rewrite orb_false_r.
      destruct (blocking w || existsb blocking warnings); done.
    - rewrite forWarnings_spec. simpl. by rewrite ?orb_true_r. }
  split; [by rewrite H|].
  intros Hfail g. rewrite H. f_equal.
  destruct ((parse src options).1); [|done].
  destruct Hfail as [?| ->]; done.
Qed.

End Console.
End DiagnosticFacts.

(** ** The compiler: the attributes that are lowered *)

Module LoweringFacts.
Import ComponentTransformer ExpectedLowering JsFacts.

Section Lowering.
Variable EsLowered TransformerContext : Type.
Variable isValidIdentifier : string -> bool.
Variable normalizeStyleAttributeValue : string -> string.
Variable normalizeClassAttributeValue : string -> string.
Variable expressionIrToEs : IrExpression -> TransformerContext -> EsLowered.

Abbreviation mapAttrs :=
  (mapAttrs EsLowered TransformerContext isValidIdentifier normalizeStyleAttributeValue
            normalizeClassAttributeValue expressionIrToEs).
Abbreviation lowerAttr :=
  (lowerAttr EsLowered TransformerContext isValidIdentifier normalizeStyleAttributeValue
             normalizeClassAttributeValue expressionIrToEs).
Abbreviation getChildAttrsOrProps :=
  (getChildAttrsOrProps EsLowered TransformerContext isValidIdentifier
                        normalizeStyleAttributeValue normalizeClassAttributeValue
                        expressionIrToEs).

Lemma lowerAttr_spec cxt a :
  if lowerable a then
    ∃ p, lowerAttr cxt a = Js.Return p
         ∧ match p with
           | Some p =>
               empty_class normalizeClassAttributeValue a = false
               ∧ key p = (if isValidIdentifier (name a) then KeyIdentifier (name a)
                          else KeyLiteral (name a))
           | None => empty_class normalizeClassAttributeValue a = true
           end
  else lowerAttr cxt a
       = Js.Throw ("Unimplemented child attr IR node type: " +:+ node_type (value a)).
Proof.
  unfold lowerable, ComponentTransformer.lowerAttr, empty_class.
  destruct a as [n v t]. simpl.
  destruct v as [[s|b|z]|i|o p|ty]; simpl; try done.
  - destruct (bool_decide (n = "style")) eqn:Hs.
    + apply bool_decide_eq_true in Hs. subst n. eexists. split; [done|]. simpl. done.
    + destruct (bool_decide (n = "class")) eqn:Hc; simpl.
      * destruct (bool_decide (normalizeClassAttributeValue s = "")) eqn:He;
          eexists; (split; [done|]); simpl; done.
      * eexists. split; [done|]. simpl. done.
  - destruct (bool_decide (n = "class")) eqn:Hc; eexists; (split; [done|]); simpl; done.
  - eexists. split; [done|]. simpl. by rewrite andb_false_r.
  - eexists. split; [done|]. simpl. by rewrite andb_false_r.
Qed.

(** [getChildAttrsOrProps] throws exactly when an attribute has a value
    that is not a string or boolean literal, an identifier or a member
    expression, and names the type of the first such value; otherwise it
    gives one property per attribute, in order and under the attribute's
    name, but for the [class] attributes that would render empty. *)
Theorem getChildAttrsOrProps_lowers_every_supported_attribute attrs cxt :
  match Js.find (fun a => negb (lowerable a)) attrs with
  | Some a =>
      getChildAttrsOrProps attrs cxt
      = Js.Throw ("Unimplemented child attr IR node type: " +:+ node_type (value a))
  | None =>
      ∃ props,
        getChildAttrsOrProps attrs cxt = Js.Return props
        ∧ key <$> props
          = (fun a => if isValidIdentifier (name a) then KeyIdentifier (name a)
                      else KeyLiteral (name a))
            <$> filter (fun a => empty_class normalizeClassAttributeValue a = false) attrs
  end.
Proof.
  unfold ComponentTransformer.getChildAttrsOrProps.
  induction attrs as [|a attrs IH]; simpl.
  - exists []. done.
  - pose proof (lowerAttr_spec cxt a) as Ha.
    destruct (lowerable a); simpl.
    + destruct Ha as (p & -> & Hp).
      destruct (Js.find _ attrs) as [bad|].
      * destruct (mapAttrs cxt attrs); [discriminate|done].
      * destruct IH as (props & Hm & Hk).
        destruct (mapAttrs cxt attrs) as [ps|]; [|discriminate].
        injection Hm as <-. eexists. split; [done|].
        rewrite filter_cons. destruct p as [p|].
        -- destruct Hp as [-> Hkey]. rewrite decide_True by done. csimpl. by rewrite Hkey, Hk.
        -- rewrite Hp. rewrite decide_False by done. done.
    + by rewrite Ha.
Qed.

End Lowering.
End LoweringFacts.

(** ** The renderer: the stores that its calls build *)

Module ApiFacts.
Import Host Renderer Invariants ExpectedEvents Api.
Import HostFacts JsFacts TreeFacts OwnershipFacts DispatchFacts AttributeInvariants TraceFacts.

(** *** The two ways in which the functions change the store *)

Lemma update_dom r f st x :
  is_Some (heap st !! r) ->
  is_Some (heap (update r f st) !! x) ↔ is_Some (heap st !! x).
Proof.
  intros Hr. simpl. destruct (decide (r = x)) as [->|Hne].
  - rewrite lookup_insert_eq. split; [done|by eexists].
  - by rewrite lookup_insert_ne.
Qed.

Lemma element_in_heap st r : hostType (get st r) = Element -> is_Some (heap st !! r).
Proof.
  unfold get. rewrite lookup_total_alt. destruct (heap st !! r); [by eexists|done].
Qed.

Lemma node_ok_default st r : node_ok st r inhabitant.
Proof.
  split; simpl; try done.
  - intros c Hc. by apply elem_of_nil in Hc.
  - intros t c node type f. rewrite lookup_empty. simpl. by intros ?%elem_of_nil.
  - constructor.
Qed.

Lemma node_ok_mono st st' r n :
  nextRef st <= nextRef st' ->
  nextClosure st <= nextClosure st' ->
  (∀ p, p < nextRef st -> hostType (get st' p) = hostType (get st p)) ->
  node_ok st r n -> node_ok st' r n.
Proof.
  intros Hr Hc Ht [H1 H2 H3 H4 H5 H6 H7]. split; try done.
  - intros c Hin. apply H1 in Hin. lia.
  - intros p Hp. destruct (H3 p Hp) as [Hlt Hcont]. split; [lia|]. by rewrite Ht.
  - intros s Hs. apply H4 in Hs. lia.
  - intros t c node type f Hin. destruct (H5 _ _ _ _ _ Hin) as (? & ? & ?).
    split; [done|]. split; [done|lia].
Qed.

Lemma wf_update r f st :
  well_formed st ->
  r < nextRef st ->
  hostType (f (get st r)) = hostType (get st r) ->
  node_ok st r (f (get st r)) ->
  well_formed (update r f st).
Proof.
  intros [Hdom Hok] Hr Hty Hnew. split.
  - intros x. rewrite update_dom by by apply Hdom. apply Hdom.
  - intros x. rewrite get_update.
    apply (node_ok_mono st); [done|done| |].
    + intros p _. rewrite get_update. case_decide; by subst.
    + case_decide; [by subst|apply Hok].
Qed.

Lemma wf_alloc n st :
  well_formed st ->
  node_ok st (nextRef st) n ->
  well_formed (alloc n st).1.
Proof.
  intros [Hdom Hok] Hnew. split.
  - intros x. simpl. destruct (decide (nextRef st = x)) as [<-|Hne].
    + rewrite lookup_insert_eq. split; [lia|by eexists].
    + rewrite lookup_insert_ne by done. rewrite Hdom. lia.
  - intros x. rewrite get_alloc.
    apply (node_ok_mono st); [simpl; lia|done| |].
    + intros p Hp. rewrite get_alloc. rewrite decide_False by lia. done.
    + case_decide; [by subst|apply Hok].
Qed.

Lemma wf_log msg st : well_formed st -> well_formed (log msg st).
Proof.
  intros [Hdom Hok]. split; [done|]. intros x.
  apply (node_ok_mono st); [done|done|done|apply Hok].
Qed.

Lemma wf_empty : well_formed Host.empty.
Proof.
  split.
  - intros r. simpl. rewrite lookup_empty. split; [by intros [? ?]|lia].
  - intros r. unfold get. simpl. rewrite lookup_total_empty. apply node_ok_default.
Qed.

Lemma created_lt st r : created st r = true -> r < nextRef st.
Proof. apply bool_decide_eq_true. Qed.

Lemma wf_element st r : well_formed st -> hostType (get st r) = Element -> r < nextRef st.
Proof. intros [Hdom _] Hel. by apply Hdom, element_in_heap. Qed.

(** *** Changes of one field of a node *)

Lemma ok_with_children st r n c :
  node_ok st r n ->
  (∀ x, x ∈ c -> x < nextRef st) ->
  (c ≠ [] -> container (hostType n) = true) ->
  node_ok st r (with_children c n).
Proof. intros [H1 H2 H3 H4 H5 H6 H7] Hc Hcont. split; done. Qed.

Lemma ok_with_parent st r n p :
  node_ok st r n ->
  p < nextRef st -> container (hostType (get st p)) = true ->
  node_ok st r (with_parent (Some p) n).
Proof.
  intros [H1 H2 H3 H4 H5 H6 H7] Hp Hcont. split; try done.
  simpl. by intros ? [= <-].
Qed.

Lemma ok_with_shadowRoot st r n s :
  node_ok st r n -> s < nextRef st -> node_ok st r (with_shadowRoot (Some s) n).
Proof.
  intros [H1 H2 H3 H4 H5 H6 H7] Hs. split; try done. simpl. by intros ? [= <-].
Qed.

Lemma ok_with_value st r n v : node_ok st r n -> node_ok st r (with_value v n).
Proof. intros [H1 H2 H3 H4 H5 H6 H7]. split; done. Qed.

Lemma ok_with_stringKeyed st r n k : node_ok st r n -> node_ok st r (with_stringKeyed k n).
Proof. intros [H1 H2 H3 H4 H5 H6 H7]. split; done. Qed.

Lemma ok_with_attributes st r n l :
  node_ok st r n ->
  hostType n = Element ->
  NoDup (attr_key <$> l) ->
  node_ok st r (with_attributes l n).
Proof. intros [H1 H2 H3 H4 H5 H6 H7] Hel Hl. split; done. Qed.

Lemma ok_with_eventListeners st r n e :
  node_ok st r n ->
  (∀ t c node type f, OnceFn c node type f ∈ default [] (e !! t) ->
                      node = r ∧ type = t ∧ c < nextClosure st) ->
  (hostType n ≠ Element -> ∀ t, default [] (e !! t) = []) ->
  node_ok st r (with_eventListeners e n).
Proof.
  intros [H1 H2 H3 H4 H5 H6 H7] He Hne. split; try done. simpl.
  intros Hty. split; [by apply Hne|by apply H6].
Qed.

(** The nodes that the functions create. *)
Lemma ok_leaf st r t k ns v p :
  (match p with
   | Some p => p < nextRef st ∧ container (hostType (get st p)) = true
   | None => True
   end) ->
  node_ok st r (mkNode t k ns p None [] [] ∅ v).
Proof.
  intros Hp. split; simpl.
  - intros c Hc. by apply elem_of_nil in Hc.
  - done.
  - intros q ->. done.
  - done.
  - intros t' c node type f. rewrite lookup_empty. simpl. by intros ?%elem_of_nil.
  - intros _. split; [|done]. intros t'. by rewrite lookup_empty.
  - constructor.
Qed.

(** *** The tree *)

Lemma splice_insert_elem (c : list ref) (anchor : option ref) (node x : ref) :
  x ∈ (let anchorIndex :=
         match anchor with
         | None => (-1)%Z
         | Some a => Js.indexOf c a
         end in
       if decide (anchorIndex = (-1)%Z) then Js.push c node
       else Js.splice c anchorIndex 0 [node]) ->
  x ∈ c ∨ x = node.
Proof.
  destruct (inserted_shape c anchor node) as (k & _ & Hshape). simpl in *.
  rewrite Hshape. intros [Hx|Hx]%elem_of_app.
  - left. eapply elem_of_sublist; [exact Hx|apply sublist_take].
  - apply elem_of_cons in Hx as [->|Hx]; [by right|left].
    eapply elem_of_sublist; [exact Hx|apply sublist_drop].
Qed.

Lemma wf_insert node parent anchor st :
  well_formed st ->
  node < nextRef st -> parent < nextRef st ->
  container (hostType (get st parent)) = true ->
  well_formed (insert node parent anchor st).
Proof.
  intros Hwf Hn Hp Hcont. unfold insert.
  set (st1 := match hostParent (get st node) with
              | Some np =>
                  if decide (np ≠ parent) then
                    update np (with_children
                      (Js.splice (hostChildren (get st np))
                                 (Js.indexOf (hostChildren (get st np)) node) 1 [])) st
                  else st
              | None => st
              end).
  assert (H1 : well_formed st1
               ∧ nextRef st1 = nextRef st
               ∧ ∀ x, hostType (get st1 x) = hostType (get st x)).
  { subst st1. destruct (hostParent (get st node)) as [np|] eqn:Hnp; [|done].
    destruct (decide (np ≠ parent)); [|done].
    destruct (ok_parent _ _ _ (proj2 Hwf node) np Hnp) as [Hlt Hc].
    split; [|split; [done|]].
    - apply wf_update; [done|done|done|].
      apply ok_with_children; [apply Hwf| |done].
      intros x Hx. apply (ok_children _ _ _ (proj2 Hwf np)).
      eapply elem_of_sublist; [exact Hx|apply splice_indexOf_sublist].
    - intros x. rewrite get_update. case_decide; by subst. }
  destruct H1 as (Hwf1 & Hr1 & Ht1).
  set (st2 := update node (with_parent (Some parent)) st1).
  assert (H2 : well_formed st2
               ∧ nextRef st2 = nextRef st
               ∧ ∀ x, hostType (get st2 x) = hostType (get st x)).
  { subst st2. split; [|split; [done|]].
    - apply wf_update; [done|lia|done|].
      apply ok_with_parent; [apply Hwf1|lia|by rewrite Ht1].
    - intros x. rewrite get_update. case_decide; [|done].
      subst. simpl. apply Ht1. }
  destruct H2 as (Hwf2 & Hr2 & Ht2).
  assert (Hnew : ∀ c', (∀ x, x ∈ c' -> x ∈ hostChildren (get st2 parent) ∨ x = node) ->
                       well_formed (update parent (with_children c') st2)).
  { intros c' Hc'. apply wf_update; [done|lia|done|].
    apply ok_with_children; [apply Hwf2| |by rewrite Ht2].
    intros x Hx. destruct (Hc' x Hx) as [Hold| ->]; [|lia].
    by apply (ok_children _ _ _ (proj2 Hwf2 parent)). }
  pose proof (splice_insert_elem (hostChildren (get st2 parent)) anchor node) as Hin.
  simpl in Hin.
  destruct (decide (_ = (-1)%Z)) as [Heq|Hne]; apply Hnew; intros x Hx; by apply Hin.
Qed.

Lemma wf_remove node parent st :
  well_formed st ->
  parent < nextRef st ->
  container (hostType (get st parent)) = true ->
  well_formed (remove node parent st).
Proof.
  intros Hwf Hp Hcont. unfold remove. apply wf_update; [done|done|done|].
  apply ok_with_children; [apply Hwf| |done].
  intros x Hx. apply (ok_children _ _ _ (proj2 Hwf parent)).
  eapply elem_of_sublist; [exact Hx|apply splice_indexOf_sublist].
Qed.

(** A new node, put under an element in place of the children it had. *)
Lemma wf_only_child node t v st :
  well_formed st ->
  hostType (get st node) = Element ->
  well_formed (update node (with_children [nextRef st])
                 (alloc (mkNode t [] "" (Some node) None [] [] ∅ v) st).1).
Proof.
  intros Hwf Hel.
  pose proof (wf_element _ _ Hwf Hel) as Hlt.
  set (n := mkNode t [] "" (Some node) None [] [] ∅ v).
  assert (Hwf1 : well_formed (alloc n st).1).
  { apply wf_alloc; [done|]. apply ok_leaf. split; [done|]. by rewrite Hel. }
  assert (Hget : get (alloc n st).1 node = get st node).
  { rewrite get_alloc. rewrite decide_False by lia. done. }
  apply wf_update; [done|simpl; lia|done|].
  apply ok_with_children; [apply Hwf1| |by rewrite Hget, Hel].
  intros x Hx. apply list_elem_of_singleton in Hx. subst x. simpl. lia.
Qed.

Lemma wf_attachShadow element mode delegatesFocus st :
  well_formed st ->
  hostType (get st element) = Element ->
  well_formed (attachShadow element mode delegatesFocus st).1.
Proof.
  intros Hwf Hel. pose proof (wf_element _ _ Hwf Hel) as Hlt.
  unfold attachShadow. simpl.
  match goal with
  | |- well_formed (update _ _ (mkStore (<[_ := ?n]> _) _ _ _)) =>
      change (well_formed (update element (with_shadowRoot (Some (nextRef st))) (alloc n st).1));
      assert (Hwf1 : well_formed (alloc n st).1)
        by (apply wf_alloc; [done|]; apply ok_leaf; split; [done|]; by rewrite Hel)
  end.
  apply wf_update; [done|simpl; lia|done|].
  apply ok_with_shadowRoot; [apply Hwf1|simpl; lia].
Qed.

Lemma wf_setText node content st :
  well_formed st -> node < nextRef st -> well_formed (setText node content st).
Proof.
  intros Hwf Hlt. unfold setText. destruct (hostType (get st node)) eqn:Hty; try done.
  - apply wf_update; [done|done|done|]. apply ok_with_value, Hwf.
  - by apply wf_only_child.
Qed.

(** *** Attributes *)

Section Attributes.
Variable classNameToTokenList : Js.value -> list string.
Variable tokenListToClassName : list string -> string.

Lemma perform_shape element st op :
  ∃ l, perform classNameToTokenList tokenListToClassName element st op
       = update element (with_attributes l) st.
Proof.
  destruct op as [name v namespace|name namespace|name v important|names|names]; simpl.
  - unfold setAttribute. destruct (Js.findIndex _ _); by eexists.
  - unfold removeAttribute. by eexists.
  - unfold setCSSStyleProperty. destruct (Js.findIndex _ _); by eexists.
  - unfold getClassAttribute. destruct (Js.findIndex _ _); [by eexists|].
    rewrite update_update. eexists. by apply update_ext.
  - unfold getClassAttribute. destruct (Js.findIndex _ _); [by eexists|].
    rewrite update_update. eexists. by apply update_ext.
Qed.

Lemma wf_perform element st op :
  well_formed st ->
  hostType (get st element) = Element ->
  well_formed (perform classNameToTokenList tokenListToClassName element st op).
Proof.
  intros Hwf Hel. pose proof (wf_element _ _ Hwf Hel) as Hlt.
  pose proof (perform_unique classNameToTokenList tokenListToClassName element st op
                (ok_attributes _ _ _ (proj2 Hwf element))) as Hu.
  destruct (perform_shape element st op) as [l Hl]. rewrite Hl in *.
  unfold unique_attributes in Hu. rewrite get_update_eq in Hu. simpl in Hu.
  apply wf_update; [done|done|done|].
  apply ok_with_attributes; [apply Hwf|done|done].
Qed.

End Attributes.

Section Properties.
Variable isBooleanAttribute : string -> Js.value -> bool.
Variable isGlobalHtmlAttribute : string -> bool.
Variable isAriaAttribute : string -> bool.
Variable htmlPropertyToAttribute : string -> string.
Variable production : bool.

Lemma wf_getProperty node key st :
  well_formed st ->
  well_formed (getProperty isBooleanAttribute isGlobalHtmlAttribute isAriaAttribute
                 htmlPropertyToAttribute production node key st).1.
Proof.
  intros Hwf. unfold getProperty.
  repeat case_match; simpl; try done; by apply wf_log.
Qed.

Lemma wf_setProperty node key v st :
  well_formed st ->
  node < nextRef st ->
  well_formed (setProperty isBooleanAttribute isGlobalHtmlAttribute isAriaAttribute
                 htmlPropertyToAttribute production node key v st).
Proof.
  intros Hwf Hlt. unfold setProperty.
  destruct (key_in key (get st node)).
  { apply wf_update; [done|done|done|]. apply ok_with_stringKeyed, Hwf. }
  destruct (decide (hostType (get st node) = Element)) as [Hel|Hel].
  2: { destruct production; [done|by apply wf_log]. }
  destruct (bool_decide (key = "innerHTML")).
  { by apply wf_only_child. }
  assert (Hset : ∀ name v ns, well_formed (setAttribute node name v ns st)).
  { intros name v' ns.
    apply (wf_perform (fun _ => []) (fun _ => "") node st (SetAttribute name v' ns)); done. }
  assert (Hrem : ∀ name ns, well_formed (removeAttribute node name ns st)).
  { intros name ns.
    apply (wf_perform (fun _ => []) (fun _ => "") node st (RemoveAttribute name ns)); done. }
  repeat case_match; try done; by apply wf_log.
Qed.

End Properties.

(** *** Listeners *)

(** The store [st'] has the objects of [st], which differ in their
    listener sets at most. *)
Abbreviation same_objects st st' :=
  ((∀ x, is_Some (heap st' !! x) ↔ is_Some (heap st !! x))
   ∧ nextRef st' = nextRef st
   ∧ ∀ x, get st' x = with_eventListeners (hostEventListeners (get st' x)) (get st x)).

Lemma same_objects_refl st : same_objects st st.
Proof. split; [done|]. split; [done|]. intros x. by rewrite with_eventListeners_id. Qed.

Lemma same_objects_trans st1 st2 st3 :
  same_objects st1 st2 -> same_objects st2 st3 -> same_objects st1 st3.
Proof.
  intros (H1 & H2 & H3) (G1 & G2 & G3).
  split; [intros x; by rewrite G1|]. split; [congruence|].
  intros x. rewrite (G3 x), (H3 x). done.
Qed.

Lemma same_objects_update node (F : HostNode -> gmap string (list Listener)) st :
  hostType (get st node) = Element ->
  same_objects st (update node (fun n => with_eventListeners (F n) n) st).
Proof.
  intros Hel. split; [|split; [done|]].
  - intros x. apply update_dom. by apply element_in_heap.
  - intros x. rewrite get_update. case_decide; [by subst|]. by rewrite with_eventListeners_id.
Qed.

Lemma same_objects_type st st' x :
  same_objects st st' -> hostType (get st' x) = hostType (get st x).
Proof. intros (_ & _ & H). by rewrite (H x). Qed.

Lemma removeEventListener_same_objects node type l st :
  same_objects st (removeEventListener node type l st).1.
Proof.
  rewrite removeEventListener_store. destruct (decide _) as [|Hel]; [apply same_objects_refl|].
  apply dec_stable in Hel.
  destruct (_ !! type); [|apply same_objects_refl].
  by apply (same_objects_update node).
Qed.

Lemma addEventListener_same_objects node type callback options st :
  same_objects st (addEventListener node type callback options st).1.
Proof.
  destruct (decide (hostType (get st node) = Element)) as [Hel|Hel].
  2: { rewrite addEventListener_not_element by done. apply same_objects_refl. }
  rewrite (addEventListener_shape _ _ _ _ _ Hel).
  set (st0 := match options with
              | Options false true =>
                  mkStore (heap st) (nextRef st) (S (nextClosure st)) (console st)
              | _ => st
              end).
  assert (H0 : same_objects st st0 ∧ hostType (get st0 node) = Element).
  { subst st0. destruct options as [ | [ | ] | [ | ] [ | ] ];
      try (split; [apply same_objects_refl|done]).
    split; [|done]. split; [done|]. split; [done|]. intros x.
    change (get (mkStore (heap st) (nextRef st) (S (nextClosure st)) (console st)) x)
      with (get st x).
    by rewrite with_eventListeners_id. }
  destruct H0 as [H0 Hel0].
  destruct (saved node type callback options st) as [l|]; cbn [fst]; [|done].
  eapply same_objects_trans; [exact H0|].
  by apply (same_objects_update node
              (fun n => <[type := Js.set_add (listeners_at st node type) l]>
                          (hostEventListeners n))).
Qed.

Lemma removeEventListener_nextClosure node type l st :
  nextClosure (removeEventListener node type l st).1 = nextClosure st.
Proof.
  rewrite removeEventListener_store. destruct (decide _); [done|]. by destruct (_ !! type).
Qed.

Section Dispatch.
Variable body : nat -> list ProxyCall.

Lemma invoke_same_objects l fl st :
  same_objects st (invoke body l fl st).1.2
  ∧ nextClosure (invoke body l fl st).1.2 = nextClosure st.
Proof.
  destruct l as [f|c node type f]; simpl; [split; [apply same_objects_refl|done]|].
  pose proof (removeEventListener_same_objects node type (OnceFn c node type f) st) as H1.
  pose proof (removeEventListener_nextClosure node type (OnceFn c node type f) st) as H2.
  by destruct (removeEventListener node type (OnceFn c node type f) st).
Qed.

Lemma forCallbacks_same_objects cur cbs fl st inv :
  same_objects st (forCallbacks body cur cbs fl st inv).1.1.2
  ∧ nextClosure (forCallbacks body cur cbs fl st inv).1.1.2 = nextClosure st.
Proof.
  revert fl st inv. induction cbs as [|cb cbs IH]; intros fl st inv; simpl.
  - split; [apply same_objects_refl|done].
  - destruct (stopImmediately fl); [apply IH|].
    pose proof (invoke_same_objects cb fl st) as [H1 H2].
    destruct (invoke body cb fl st) as [[fl1 st1] [[]|message]]; simpl in H1, H2.
    + destruct (IH fl1 st1 (inv ++ [(cur, cb)])) as [G1 G2].
      split; [|congruence]. eapply same_objects_trans; [exact H1|exact G1].
    + done.
Qed.

Lemma doWhile_same_objects k ev cur fl st inv st' inv' ended :
  doWhile body k ev cur fl st inv = Some (st', inv', ended) ->
  same_objects st st' ∧ nextClosure st' = nextClosure st.
Proof.
  revert cur fl st inv. induction k as [|k IH]; intros cur fl st inv; [done|].
  rewrite doWhile_S.
  assert (H1 : same_objects st (atCurrentNode body ev cur fl st inv).1.1.2
               ∧ nextClosure (atCurrentNode body ev cur fl st inv).1.1.2 = nextClosure st).
  { unfold atCurrentNode. destruct (decide _); [|split; [apply same_objects_refl|done]].
    destruct (_ !! eventType ev); [apply forCallbacks_same_objects|].
    destruct (Js.inherited _); split; done || apply same_objects_refl. }
  destruct (atCurrentNode body ev cur fl st inv) as [[[fl1 st1] inv1] [[]|message]];
    simpl in H1; destruct H1 as [H1 H2].
  - destruct (hostParent (get st1 cur)) as [next|].
    + destruct (_ && _).
      * intros H. apply IH in H as [G1 G2]. split; [|congruence].
        eapply same_objects_trans; [exact H1|exact G1].
      * by intros [= <- <- <-].
    + by intros [= <- <- <-].
  - by intros [= <- <- <-].
Qed.

End Dispatch.

(** A store that has the objects of a well-formed one, differing in the
    listener sets at most, is well formed when the closures in those sets
    are where they belong and were numbered, and only elements have
    listeners. *)
Lemma wf_listeners st st' :
  well_formed st ->
  same_objects st st' ->
  nextClosure st <= nextClosure st' ->
  wrappers_local st' -> closures_fresh st' ->
  (∀ x t, hostType (get st x) ≠ Element -> listeners_at st' x t = []) ->
  well_formed st'.
Proof.
  intros [Hdom Hok] (Hdom' & Hr & Hget) Hc Hw Hf Hne. split.
  - intros x. by rewrite Hdom', Hr.
  - intros x. rewrite Hget.
    apply ok_with_eventListeners.
    + apply (node_ok_mono st); [lia|done| |apply Hok].
      intros p _. by rewrite Hget.
    + intros t c node type f Hin.
      destruct (Hw x t c node type f Hin) as [-> ->]. split; [done|]. split; [done|].
      by apply (Hf x t c x t f).
    + intros Hty t. by apply Hne.
Qed.

Lemma wf_wrappers_local st : well_formed st -> wrappers_local st.
Proof.
  intros [_ Hok] m t c node type f Hin.
  by destruct (ok_listeners _ _ _ (Hok m) t c node type f Hin) as (? & ? & _).
Qed.

Lemma wf_closures_fresh st : well_formed st -> closures_fresh st.
Proof.
  intros [_ Hok] m t c node type f Hin.
  by destruct (ok_listeners _ _ _ (Hok m) t c node type f Hin) as (_ & _ & ?).
Qed.

Lemma wf_silent st x t :
  well_formed st -> hostType (get st x) ≠ Element -> listeners_at st x t = [].
Proof. intros [_ Hok] Hty. destruct (ok_element _ _ _ (Hok x) Hty) as [H _]. apply H. Qed.

Lemma wf_addEventListener node type callback options st :
  well_formed st -> well_formed (addEventListener node type callback options st).1.
Proof.
  intros Hwf.
  destruct (decide (hostType (get st node) = Element)) as [Hel|Hel].
  2: { by rewrite addEventListener_not_element. }
  apply (wf_listeners st); [done|apply addEventListener_same_objects| | | |].
  - rewrite addEventListener_nextClosure by done. repeat case_match; lia.
  - by apply wrappers_local_addEventListener, wf_wrappers_local.
  - by apply closures_fresh_addEventListener, wf_closures_fresh.
  - intros x t Hty. rewrite addEventListener_listeners by done.
    destruct (saved _ _ _ _ _); [|by apply wf_silent].
    case_decide as Hx; [|by apply wf_silent]. destruct Hx as [-> _]. done.
Qed.

Lemma wf_shrink st st' :
  well_formed st ->
  same_objects st st' ->
  nextClosure st' = nextClosure st ->
  (∀ m t, listeners_at st' m t `sublist_of` listeners_at st m t) ->
  well_formed st'.
Proof.
  intros Hwf Hso Hc Hsub.
  assert (Hin : ∀ m t x, x ∈ listeners_at st' m t -> x ∈ listeners_at st m t).
  { intros m t x Hx. eapply elem_of_sublist; [exact Hx|apply Hsub]. }
  apply (wf_listeners st); [done|done|lia| | |].
  - by apply (wrappers_local_subset st), wf_wrappers_local.
  - apply (closures_fresh_subset st); [done|lia|by apply wf_closures_fresh].
  - intros x t Hty. pose proof (Hsub x t) as Hs.
    rewrite (wf_silent st x t Hwf Hty) in Hs. by apply sublist_nil_r in Hs.
Qed.

Lemma wf_removeEventListener node type l st :
  well_formed st -> well_formed (removeEventListener node type l st).1.
Proof.
  intros Hwf. apply (wf_shrink st); [done|apply removeEventListener_same_objects| |].
  - apply removeEventListener_nextClosure.
  - intros m t. rewrite removeEventListener_listeners.
    case_decide; [apply set_delete_sublist|done].
Qed.

Lemma wf_dispatchEvent (body : nat -> list ProxyCall) k target ev st :
  well_formed st ->
  well_formed match dispatchEvent body k target ev st with
              | Some r => after r
              | None => st
              end.
Proof.
  intros Hwf. unfold dispatchEvent. destruct (decide _); [done|].
  destruct (doWhile _ _ _ _ _ _ _) as [[[st' inv'] ended]|] eqn:Hdo; [|done].
  destruct (doWhile_spec body _ _ _ _ _ _ _ _ _ Hdo) as (new & _ & (_ & _ & Hsub) & _).
  destruct (doWhile_same_objects body _ _ _ _ _ _ _ _ _ Hdo) as [Hso Hc].
  assert (well_formed st') by by apply (wf_shrink st).
  by destruct ended.
Qed.

(** *** Every call *)

Section Calls.
Variable HTML_NAMESPACE : string.
Variable isBooleanAttribute : string -> Js.value -> bool.
Variable isGlobalHtmlAttribute : string -> bool.
Variable isAriaAttribute : string -> bool.
Variable htmlPropertyToAttribute : string -> string.
Variable classNameToTokenList : Js.value -> list string.
Variable tokenListToClassName : list string -> string.
Variable production : bool.
Variable body : nat -> list ProxyCall.

Abbreviation call :=
  (call HTML_NAMESPACE isBooleanAttribute isGlobalHtmlAttribute isAriaAttribute
        htmlPropertyToAttribute classNameToTokenList tokenListToClassName production body).
Abbreviation calls :=
  (calls HTML_NAMESPACE isBooleanAttribute isGlobalHtmlAttribute isAriaAttribute
         htmlPropertyToAttribute classNameToTokenList tokenListToClassName production body).

Lemma wf_call st c :
  well_formed st -> well_typed st c = true -> well_formed (call st c).
Proof.
  intros Hwf Hty. destruct c; simpl in *.
  - apply wf_alloc; [done|]. by apply ok_leaf.
  - apply wf_alloc; [done|]. by apply ok_leaf.
  - apply wf_alloc; [done|]. by apply ok_leaf.
  - apply wf_alloc; [done|]. by apply ok_leaf.
  - apply andb_true_iff in Hty as [Hty _]. apply andb_true_iff in Hty as [Hty Hc].
    apply andb_true_iff in Hty as [Hn Hp].
    apply wf_insert; [done|by apply created_lt|by apply created_lt|done].
  - apply andb_true_iff in Hty as [Hty Hc]. apply andb_true_iff in Hty as [Hn Hp].
    apply wf_remove; [done|by apply created_lt|done].
  - apply andb_true_iff in Hty as [_ Hel]. apply bool_decide_eq_true in Hel.
    by apply wf_attachShadow.
  - by apply wf_getProperty.
  - apply wf_setProperty; [done|by apply created_lt].
  - apply wf_setText; [done|by apply created_lt].
  - apply andb_true_iff in Hty as [_ Hel]. apply bool_decide_eq_true in Hel.
    by apply wf_perform.
  - by apply wf_addEventListener.
  - by apply wf_removeEventListener.
  - by apply wf_dispatchEvent.
Qed.

Lemma wf_calls cs st st' :
  well_formed st -> calls cs st = Some st' -> well_formed st'.
Proof.
  revert st. induction cs as [|c cs IH]; intros st Hwf; simpl.
  - by intros [= <-].
  - destruct (well_typed st c) eqn:Hty; [|done]. apply IH. by apply wf_call.
Qed.

(** Every store that well-typed calls build from the empty one is well
    formed; in particular the closures built for [once] are where they
    belong and were numbered, which is what the statements about
    [dispatchEvent] ask of the store, and no element has two attributes of
    the same name and namespace. *)
Theorem calls_keep_the_store_well_formed cs st :
  calls cs Host.empty = Some st ->
  well_formed st
  ∧ wrappers_local st
  ∧ closures_fresh st
  ∧ (∀ element, unique_attributes st element)
  ∧ (∀ p c, c ∈ hostChildren (get st p) ->
            created st c = true ∧ created st p = true
            ∧ container (hostType (get st p)) = true).
Proof.
  intros Hcs. pose proof (wf_calls cs _ _ wf_empty Hcs) as Hwf.
  split; [done|]. split; [by apply wf_wrappers_local|].
  split; [by apply wf_closures_fresh|]. split.
  - intros element. apply (ok_attributes _ _ _ (proj2 Hwf element)).
  - intros p c Hc. pose proof (proj2 Hwf p) as Hok.
    assert (Hcont : container (hostType (get st p)) = true).
    { apply (ok_container _ _ _ Hok). intros Hnil. rewrite Hnil in Hc.
      by apply elem_of_nil in Hc. }
    split; [apply bool_decide_eq_true, (ok_children _ _ _ Hok c Hc)|]. split; [|done].
    apply bool_decide_eq_true. apply (proj1 Hwf).
    unfold get in Hcont. rewrite lookup_total_alt in Hcont.
    destruct (heap st !! p) eqn:Hp; [|by vm_compute in Hcont]. eexists. exact Hp.
Qed.

End Calls.

End ApiFacts.

(** ** The renderer: shadow roots, replaced children, and circles *)

Module ShapeFacts.
Import Host Renderer Invariants ExpectedEvents Api.
Import HostFacts JsFacts TreeFacts OwnershipFacts DispatchFacts TraceFacts SiblingFacts ApiFacts.

Section Shapes.
Variable isBooleanAttribute : string -> Js.value -> bool.
Variable isGlobalHtmlAttribute : string -> bool.
Variable isAriaAttribute : string -> bool.
Variable htmlPropertyToAttribute : string -> string.
Variable production : bool.

Abbreviation getProperty :=
  (getProperty isBooleanAttribute isGlobalHtmlAttribute isAriaAttribute
               htmlPropertyToAttribute production).
Abbreviation setProperty :=
  (setProperty isBooleanAttribute isGlobalHtmlAttribute isAriaAttribute
               htmlPropertyToAttribute production).

(** The shadow root that [attachShadow] gives an element has the element
    as its parent without being one of its children, so that its next
    sibling reads as the first child of the element; its [mode] reads back
    as it was given and its [delegatesFocus] as a boolean. *)
Theorem attachShadow_root_is_not_a_child st element mode delegatesFocus :
  well_formed st ->
  hostType (get st element) = Element ->
  let st' := (attachShadow element mode delegatesFocus st).1 in
  let root := (attachShadow element mode delegatesFocus st).2 in
  hostShadowRoot (get st' element) = Some root
  ∧ hostType (get st' root) = ShadowRoot
  ∧ hostParent (get st' root) = Some element
  ∧ hostChildren (get st' element) = hostChildren (get st element)
  ∧ (root ∉ hostChildren (get st' element))
  ∧ nextSibling root st' = head (hostChildren (get st element))
  ∧ (getProperty root "mode" st').2 = Js.VString mode
  ∧ (getProperty root "delegatesFocus" st').2 = Js.VBool (Js.truthy delegatesFocus).
Proof.
  intros Hwf Hel st' root.
  pose proof (wf_element _ _ Hwf Hel) as Hlt.
  assert (Hroot : root = nextRef st) by done.
  assert (Hne : element ≠ root) by (rewrite Hroot; lia).
  assert (Hgr : get st' root
                = mkNode ShadowRoot
                    [("mode", Js.VString mode);
                     ("delegatesFocus", Js.VBool (Js.truthy delegatesFocus))]
                    "" (Some element) None [] [] ∅ Js.VUndefined).
  { subst st' root. unfold attachShadow. simpl. rewrite get_update_ne by done.
    unfold get. simpl. by rewrite lookup_total_insert_eq. }
  assert (Hge : get st' element = with_shadowRoot (Some root) (get st element)).
  { subst st' root. unfold attachShadow. simpl. rewrite get_update_eq.
    unfold get. simpl. by rewrite lookup_total_insert_ne by lia. }
  assert (Hnotin : root ∉ hostChildren (get st' element)).
  { rewrite Hge. simpl. intros Hin.
    apply (ok_children _ _ _ (proj2 Hwf element)) in Hin. lia. }
  rewrite Hgr, Hge. simpl.
  split; [done|]. split; [done|]. split; [done|]. split; [done|].
  split; [by rewrite Hge in Hnotin|]. split.
  - rewrite (nextSibling_of_unlisted_node st' root element); [by rewrite Hge| |done].
    by rewrite Hgr.
  - unfold Renderer.getProperty. rewrite Hgr. done.
Qed.

(** [setText] on an element, and the [innerHTML] property of an element
    that has no key of that name, put one new node in the place of the
    children: a text node, or a raw node, that holds the content as it was
    passed and has the element as its parent.  The former children are
    left as they were, parent link included. *)
Theorem setText_and_innerHTML_replace_the_children st node content :
  well_formed st ->
  hostType (get st node) = Element ->
  (let st' := setText node content st in
   hostChildren (get st' node) = [nextRef st]
   ∧ get st' (nextRef st) = mkNode Text [] "" (Some node) None [] [] ∅ content
   ∧ ∀ c, c ∈ hostChildren (get st node) -> c ≠ node -> get st' c = get st c)
  ∧ (key_in "innerHTML" (get st node) = false ->
     let st' := setProperty node "innerHTML" content st in
     hostChildren (get st' node) = [nextRef st]
     ∧ get st' (nextRef st) = mkNode Raw [] "" (Some node) None [] [] ∅ content
     ∧ ∀ c, c ∈ hostChildren (get st node) -> c ≠ node -> get st' c = get st c).
Proof.
  intros Hwf Hel. pose proof (wf_element _ _ Hwf Hel) as Hlt.
  assert (Hshape : ∀ t,
            let st' := update node (with_children [nextRef st])
                         (alloc (mkNode t [] "" (Some node) None [] [] ∅ content) st).1 in
            hostChildren (get st' node) = [nextRef st]
            ∧ get st' (nextRef st) = mkNode t [] "" (Some node) None [] [] ∅ content
            ∧ ∀ c, c ∈ hostChildren (get st node) -> c ≠ node -> get st' c = get st c).
  { intros t st'. subst st'. split; [by rewrite get_update_eq|]. split.
    - rewrite get_update_ne by lia. by rewrite get_alloc, decide_True.
    - intros c Hc Hne. rewrite get_update_ne by done. rewrite get_alloc.
      apply (ok_children _ _ _ (proj2 Hwf node)) in Hc. rewrite decide_False by lia. done. }
  split.
  - unfold setText. rewrite Hel. apply Hshape.
  - intros Hkey. unfold Renderer.setProperty. rewrite Hkey, decide_True by done.
    simpl. apply Hshape.
Qed.

End Shapes.

Lemma insert_type st node parent anchor x :
  hostType (get (insert node parent anchor st) x) = hostType (get st x).
Proof.
  unfold insert.
  set (st1 := match hostParent (get st node) with
              | Some np =>
                  if decide (np ≠ parent) then
                    update np (with_children
                      (Js.splice (hostChildren (get st np))
                                 (Js.indexOf (hostChildren (get st np)) node) 1 [])) st
                  else st
              | None => st
              end).
  assert (H1 : ∀ y, hostType (get st1 y) = hostType (get st y)).
  { intros y. subst st1. destruct (hostParent (get st node)) as [np|]; [|done].
    destruct (decide (np ≠ parent)); [|done].
    rewrite get_update. case_decide; by subst. }
  set (st2 := update node (with_parent (Some parent)) st1).
  assert (H2 : ∀ y, hostType (get st2 y) = hostType (get st y)).
  { intros y. subst st2. rewrite get_update. case_decide; [subst; simpl|]; apply H1. }
  destruct (decide (_ = (-1)%Z)); rewrite get_update; case_decide; subst; simpl; apply H2.
Qed.

Lemma insert_eventListeners st node parent anchor x :
  hostEventListeners (get (insert node parent anchor st) x) = hostEventListeners (get st x).
Proof.
  unfold insert.
  set (st1 := match hostParent (get st node) with
              | Some np =>
                  if decide (np ≠ parent) then
                    update np (with_children
                      (Js.splice (hostChildren (get st np))
                                 (Js.indexOf (hostChildren (get st np)) node) 1 [])) st
                  else st
              | None => st
              end).
  assert (H1 : ∀ y, hostEventListeners (get st1 y) = hostEventListeners (get st y)).
  { intros y. subst st1. destruct (hostParent (get st node)) as [np|]; [|done].
    destruct (decide (np ≠ parent)); [|done].
    rewrite get_update. case_decide; by subst. }
  set (st2 := update node (with_parent (Some parent)) st1).
  assert (H2 : ∀ y, hostEventListeners (get st2 y) = hostEventListeners (get st y)).
  { intros y. subst st2. rewrite get_update. case_decide; [subst; simpl|]; apply H1. }
  destruct (decide (_ = (-1)%Z)); rewrite get_update; case_decide; subst; simpl; apply H2.
Qed.

Section Cycle.
Variable body : nat -> list ProxyCall.

Lemma forCallbacks_keeps_flags cur cbs fl st inv :
  (∀ l, l ∈ cbs -> stops body l = false) ->
  (forCallbacks body cur cbs fl st inv).1.1.1 = fl.
Proof.
  revert st inv. induction cbs as [|cb cbs IH]; intros st inv Hq; simpl; [done|].
  assert (Hrest : ∀ l, l ∈ cbs -> stops body l = false).
  { intros l Hl. apply Hq. apply elem_of_cons. by right. }
  destruct (stopImmediately fl); [by apply IH|].
  pose proof (invoke_quiet body cb fl st (Hq cb ltac:(by left))) as Hfl.
  destruct (invoke body cb fl st) as [[fl1 st1] [[]|message]]; simpl in Hfl; subst fl1.
  - by apply IH.
  - done.
Qed.

Lemma atCurrentNode_keeps_flags ev cur fl st inv :
  (∀ l, l ∈ listeners_at st cur (eventType ev) -> stops body l = false) ->
  (atCurrentNode body ev cur fl st inv).1.1.1 = fl.
Proof.
  intros Hq. rewrite atCurrentNode_listeners.
  destruct (decide _); [|done]. destruct (iterable _ _ _); [|done].
  by apply forCallbacks_keeps_flags.
Qed.

(** On a node that is its own parent, with listeners that do not stop the
    propagation, the loop does not come to an end other than by an
    exception. *)
Lemma doWhile_on_own_parent k ev node fl st inv st' inv' ended :
  hostParent (get st node) = Some node ->
  hostType (get st node) = Element ->
  stop fl = false ->
  (∀ l, l ∈ listeners_at st node (eventType ev) -> stops body l = false) ->
  doWhile body k ev node fl st inv = Some (st', inv', ended) ->
  ∃ message, ended = Js.Throw message.
Proof.
  revert st inv. induction k as [|k IH]; intros st inv Hp Hel Hs Hq; [done|].
  rewrite doWhile_S.
  pose proof (atCurrentNode_keeps_flags ev node fl st inv Hq) as Hfl.
  destruct (visit_spec body ev node fl st inv)
    as (fl1 & st1 & ls & ended1 & Hat & _ & _ & (Hty & Hpar & Hsub) & _).
  rewrite Hat in Hfl |- *. simpl in Hfl. subst fl1.
  destruct ended1 as [[]|message].
  - rewrite Hpar, Hp, Hs, Hty, Hel. simpl. apply IH; try done.
    + by rewrite Hpar.
    + by rewrite Hty.
    + intros l Hl. apply Hq. eapply elem_of_sublist; [exact Hl|apply Hsub].
  - intros [= <- <- <-]. by eexists.
Qed.

(** There, for an event type that is not the name of a member that the
    listener tables inherit, and with the closures where they belong, no
    number of passes ends the loop. *)
Lemma doWhile_round_and_round k ev node fl st inv :
  hostParent (get st node) = Some node ->
  hostType (get st node) = Element ->
  stop fl = false -> stopImmediately fl = false ->
  (∀ l, l ∈ listeners_at st node (eventType ev) -> stops body l = false) ->
  (∀ c n t f, OnceFn c n t f ∈ listeners_at st node (eventType ev) ->
              n = node ∧ t = eventType ev) ->
  Js.inherited (eventType ev) = false ->
  doWhile body k ev node fl st inv = None.
Proof.
  intros Hp Hel Hs Hi Hq Hw Hinh. revert st inv Hp Hel Hq Hw.
  assert (Hit : ∀ s, iterable s node (eventType ev) = true).
  { intros s. unfold iterable. by rewrite Hinh, orb_true_r. }
  induction k as [|k IH]; intros st inv Hp Hel Hq Hw; [done|].
  rewrite doWhile_S, atCurrentNode_listeners, decide_True, Hit by done.
  destruct (forCallbacks_quiet body node (eventType ev) _ fl st inv Hq Hi Hw (Hit st))
    as (st' & -> & (Hty & Hpar & Hsub) & _).
  rewrite Hpar, Hp, Hs, Hty, Hel. simpl.
  apply IH.
  - by rewrite Hpar.
  - by rewrite Hty.
  - intros l Hl. apply Hq. eapply elem_of_sublist; [exact Hl|apply Hsub].
  - intros c n t f Hin. apply (Hw c n t f). eapply elem_of_sublist; [exact Hin|apply Hsub].
Qed.

(** [insert] does not look for circles: an element can be put under
    itself, and a dispatch on it then never returns unless one of its
    listeners stops the propagation.  For an event type that is not the
    name of a member that the listener table inherits, no number of passes
    ends the loop; for one that is, and for which the table has no set,
    the first pass throws. *)
Theorem dispatchEvent_never_ends_on_a_circle st node ev fuel :
  hostType (get st node) = Element ->
  (∀ l, l ∈ listeners_at st node (eventType ev) -> stops body l = false) ->
  let circle := insert node node None st in
  hostParent (get circle node) = Some node
  ∧ (∀ r, dispatchEvent body fuel node ev circle = Some r ->
          ∃ message, returned r = Js.Throw message)
  ∧ (Js.inherited (eventType ev) = false ->
     (∀ c n t f, OnceFn c n t f ∈ listeners_at st node (eventType ev) ->
                 n = node ∧ t = eventType ev) ->
     dispatchEvent body fuel node ev circle = None)
  ∧ (iterable st node (eventType ev) = false ->
     dispatchEvent body (S fuel) node ev circle
     = Some (mkDispatched circle [] (Js.Throw callbacks_is_not_iterable))).
Proof.
  intros Hel Hq circle.
  assert (Hp : hostParent (get circle node) = Some node).
  { subst circle. rewrite insert_parent. by rewrite decide_True. }
  assert (Hty : hostType (get circle node) = Element).
  { subst circle. by rewrite insert_type. }
  assert (Hls : ∀ t, listeners_at circle node t = listeners_at st node t).
  { intros t. subst circle. apply listeners_at_insert. }
  assert (Hq' : ∀ l, l ∈ listeners_at circle node (eventType ev) -> stops body l = false).
  { intros l. rewrite Hls. apply Hq. }
  split; [done|]. unfold dispatchEvent. rewrite decide_False by (by intros H; apply H).
  split; [|split].
  - intros r.
    destruct (doWhile body fuel ev node (mkFlags false false) circle [])
      as [[[st' inv'] ended]|] eqn:Hdo; [|done].
    destruct (doWhile_on_own_parent _ _ _ (mkFlags false false) _ _ _ _ _ Hp Hty eq_refl Hq' Hdo)
      as [message ->].
    intros [= <-]. by eexists.
  - intros Hinh Hw. rewrite doWhile_round_and_round; try done.
    intros c n t f. rewrite Hls. apply Hw.
  - intros Hit. rewrite decide_False by (by intros H; apply H).
    rewrite doWhile_S, atCurrentNode_listeners, decide_True by done.
    assert (Hit' : iterable circle node (eventType ev) = false).
    { rewrite <- Hit. unfold iterable. subst circle. by rewrite insert_eventListeners. }
    by rewrite Hit'.
Qed.

End Cycle.
End ShapeFacts.

(** ** Runs on the concrete stores *)

Module ExampleRuns.
Import Host Renderer Invariants Expected ExpectedEvents Api Examples.
Import HostFacts JsFacts TreeFacts OwnershipFacts TreeRuns DispatchFacts DispatchRuns.
Import AttributeRoundTrips PropertyFacts SiblingFacts TraceFacts ListenerFacts ApiFacts ShapeFacts.

Lemma two_elements_well_formed : well_formed Scenario.two_elements.
Proof.
  apply (wf_calls Scenario.xhtml isBooleanAttribute isGlobalHtmlAttribute isAriaAttribute
           htmlPropertyToAttribute (fun _ => []) (fun _ => "") true Scenario.quiet
           two_creations Host.empty); [apply wf_empty|reflexivity].
Qed.

Lemma parent_and_child_single_owner : single_owner Scenario.parent_and_child.
Proof.
  apply insert_single_owner; [apply two_elements_single_owner|].
  vm_compute. discriminate.
Qed.


Lemma own_property_round_trip_witness :
  (getProperty isBooleanAttribute isGlobalHtmlAttribute isAriaAttribute
               htmlPropertyToAttribute true 0 "tagName"
     (setProperty isBooleanAttribute isGlobalHtmlAttribute isAriaAttribute
                  htmlPropertyToAttribute true 0 "tagName" (Js.VString "p")
                  Scenario.two_elements)).2
  = Js.VString "p".
Proof.
  exact (proj1 (own_property_round_trip isBooleanAttribute isGlobalHtmlAttribute
                  isAriaAttribute htmlPropertyToAttribute true Scenario.two_elements
                  0 "tagName" (Js.VString "p") ltac:(vm_compute; reflexivity))).
Defined.

Lemma boolean_property_round_trip_witness :
  (getProperty isBooleanAttribute isGlobalHtmlAttribute isAriaAttribute
               htmlPropertyToAttribute true 0 "hidden"
     (setProperty isBooleanAttribute isGlobalHtmlAttribute isAriaAttribute
                  htmlPropertyToAttribute true 0 "hidden" (Js.VBool true)
                  Scenario.two_elements)).2
  = Js.VString "".
Proof.
  exact (boolean_property_round_trip isBooleanAttribute isGlobalHtmlAttribute
           isAriaAttribute htmlPropertyToAttribute true Scenario.two_elements
           0 "hidden" (Js.VBool true)
           ltac:(vm_compute; reflexivity) ltac:(vm_compute; reflexivity)
           ltac:(discriminate) ltac:(vm_compute; reflexivity)).
Defined.

Lemma reflected_property_round_trip_witness :
  (getProperty isBooleanAttribute isGlobalHtmlAttribute isAriaAttribute
               htmlPropertyToAttribute true 0 "title"
     (setProperty isBooleanAttribute isGlobalHtmlAttribute isAriaAttribute
                  htmlPropertyToAttribute true 0 "title" (Js.VNumber 5)
                  Scenario.two_elements)).2
  = Js.VString "5".
Proof.
  exact (reflected_property_round_trip isBooleanAttribute isGlobalHtmlAttribute
           isAriaAttribute htmlPropertyToAttribute true Scenario.two_elements
           0 "title" (Js.VNumber 5) ltac:(vm_compute; reflexivity)
           ltac:(vm_compute; reflexivity) ltac:(vm_compute; reflexivity)
           ltac:(discriminate) ltac:(vm_compute; reflexivity)
           ltac:(vm_compute; reflexivity)).
Defined.

Lemma input_value_round_trip_witness :
  (getProperty isBooleanAttribute isGlobalHtmlAttribute isAriaAttribute
               htmlPropertyToAttribute true 0 "value"
     (setProperty isBooleanAttribute isGlobalHtmlAttribute isAriaAttribute
                  htmlPropertyToAttribute true 0 "value" (Js.VNumber 7) one_input)).2
  = Js.VString "7".
Proof.
  exact (input_value_round_trip isBooleanAttribute isGlobalHtmlAttribute
           isAriaAttribute htmlPropertyToAttribute true one_input 0 (Js.VNumber 7)
           ltac:(vm_compute; reflexivity)
           ltac:(vm_compute; reflexivity) ltac:(vm_compute; reflexivity)
           ltac:(vm_compute; reflexivity) ltac:(vm_compute; reflexivity)
           ltac:(vm_compute; reflexivity) ltac:(vm_compute; reflexivity)).
Defined.

Lemma getAttribute_after_setAttribute_witness :
  getAttribute 0 "title" None (setAttribute 0 "title" (Js.VNumber 5) None Scenario.two_elements)
  = Js.VString "5"
  ∧ getAttribute 0 "title" None
      (setAttribute 0 "title" (Js.VNumber 5) None
         (setAttribute 0 "title" (Js.VString "a") None Scenario.two_elements))
    = Js.VNumber 5.
Proof.
  split.
  - exact (proj1 (getAttribute_after_setAttribute Scenario.two_elements 0 "title"
                    (Js.VNumber 5) None ltac:(vm_compute; reflexivity))
             "title" None).
  - exact (proj1 (getAttribute_after_setAttribute
                    (setAttribute 0 "title" (Js.VString "a") None Scenario.two_elements)
                    0 "title" (Js.VNumber 5) None ltac:(vm_compute; reflexivity))
             "title" None).
Defined.

Lemma remove_of_absent_node_drops_last_child_witness :
  hostChildren (get (remove 0 0 Scenario.parent_and_child) 0) = [].
Proof.
  refine (remove_of_absent_node_drops_last_child Scenario.parent_and_child 0 0 [] 1 _ _).
  - vm_compute. reflexivity.
  - simpl. intros H. apply list_elem_of_singleton in H. discriminate.
Defined.

Lemma removed_node_stays_connected_witness :
  isConnected 1 (remove 1 0 Scenario.parent_and_child) = true
  ∧ hostChildren (get (remove 1 0 Scenario.parent_and_child) 0) = []
  ∧ nextSibling 1 (remove 1 0 Scenario.parent_and_child) = None.
Proof.
  refine (removed_node_stays_connected Scenario.parent_and_child 1 0 [] [] _ _ _).
  - vm_compute. reflexivity.
  - vm_compute. reflexivity.
  - simpl. apply not_elem_of_nil.
Defined.

Lemma nextSibling_after_insert_witness :
  hostParent (get (insert 1 0 None Scenario.two_elements) 1) = Some 0
  ∧ nextSibling 1 (insert 1 0 None Scenario.two_elements) = None.
Proof.
  destruct (nextSibling_after_insert Scenario.two_elements 1 0 None) as (H1 & _ & _ & H4).
  - rewrite two_elements_children. apply not_elem_of_nil.
  - split; [exact H1|exact H4].
Defined.

Lemma remove_then_insert_moves_within_parent_witness :
  single_owner (insert 1 0 None (remove 1 0 Scenario.parent_and_child))
  ∧ hostParent (get (insert 1 0 None (remove 1 0 Scenario.parent_and_child)) 1) = Some 0.
Proof.
  destruct (remove_then_insert_moves_within_parent Scenario.parent_and_child 1 0 None
              parent_and_child_single_owner) as (H1 & _ & H3 & _).
  - replace (hostChildren (get Scenario.parent_and_child 0)) with [1]
      by (vm_compute; reflexivity).
    left.
  - split; [exact H1|exact H3].
Defined.

Lemma addEventListener_then_removeEventListener_witness :
  listeners_at (removeEventListener 0 "click" (UserFn 7)
                  (addEventListener 0 "click" 7 OptionsOmitted Scenario.two_elements).1).1
               0 "click"
  = listeners_at Scenario.two_elements 0 "click".
Proof.
  refine (proj1 (proj2 (proj2 (addEventListener_then_removeEventListener
                                 Scenario.two_elements
                                 0 "click" 7 OptionsOmitted OptionsOmitted _ _ _)))
            _ 0 "click").
  - vm_compute. reflexivity.
  - by left.
  - by left.
  - replace (listeners_at Scenario.two_elements 0 "click") with (@nil Listener)
      by (vm_compute; reflexivity).
    apply not_elem_of_nil.
Defined.

Lemma once_registration_is_a_private_closure_witness :
  OnceFn 0 0 "click" 7
  ∈ listeners_at (removeEventListener 0 "click" (UserFn 7)
                    (addEventListener 0 "click" 7 (Options false true)
                       Scenario.two_elements).1).1 0 "click".
Proof.
  exact (proj1 (proj2 (proj2 (once_registration_is_a_private_closure Scenario.two_elements
                                0 "click" 7 ltac:(vm_compute; reflexivity)
                                two_elements_closures_fresh
                                ltac:(vm_compute; reflexivity)))) 7).
Defined.





Lemma calls_keep_the_store_well_formed_witness :
  ∃ st, Examples.calls session Host.empty = Some st ∧ well_formed st.
Proof.
  destruct (Examples.calls session Host.empty) as [st|] eqn:Hrun.
  - exists st. split; [reflexivity|].
    exact (proj1 (calls_keep_the_store_well_formed Scenario.xhtml isBooleanAttribute
                    isGlobalHtmlAttribute isAriaAttribute htmlPropertyToAttribute
                    (fun _ => []) (fun _ => "") true Scenario.quiet session st Hrun)).
  - vm_compute in Hrun. discriminate Hrun.
Defined.

Lemma attachShadow_root_is_not_a_child_witness :
  nextSibling (attachShadow 0 "open" Js.VUndefined Scenario.parent_and_child).2
    (attachShadow 0 "open" Js.VUndefined Scenario.parent_and_child).1
  = Some 1.
Proof.
  assert (Hwf : well_formed Scenario.parent_and_child).
  { apply wf_insert; [apply two_elements_well_formed|vm_compute; lia|vm_compute; lia|].
    vm_compute. reflexivity. }
  destruct (attachShadow_root_is_not_a_child isBooleanAttribute isGlobalHtmlAttribute
              isAriaAttribute htmlPropertyToAttribute true Scenario.parent_and_child
              0 "open" Js.VUndefined Hwf ltac:(vm_compute; reflexivity))
    as (_ & _ & _ & _ & _ & Hnext & _).
  rewrite Hnext. vm_compute. reflexivity.
Defined.

Lemma setText_and_innerHTML_replace_the_children_witness :
  hostChildren (get (setText 0 (Js.VString "x") Scenario.two_elements) 0) = [2].
Proof.
  destruct (setText_and_innerHTML_replace_the_children isBooleanAttribute
              isGlobalHtmlAttribute isAriaAttribute htmlPropertyToAttribute true
              Scenario.two_elements 0 (Js.VString "x") two_elements_well_formed
              ltac:(vm_compute; reflexivity)) as ((Hc & _) & _).
  exact Hc.
Defined.

Lemma dispatchEvent_never_ends_on_a_circle_witness :
  dispatchEvent Scenario.quiet 1000 0 (mkEvent "click" false)
    (insert 0 0 None Scenario.two_elements) = None.
Proof.
  refine (proj1 (proj2 (proj2 (dispatchEvent_never_ends_on_a_circle Scenario.quiet
                                 Scenario.two_elements
                                 0 (mkEvent "click" false) 1000 _ _))) _ _).
  - vm_compute. reflexivity.
  - intros l _. reflexivity.
  - vm_compute. reflexivity.
  - intros c n t f Hin. rewrite two_elements_listeners in Hin. by apply elem_of_nil in Hin.
Defined.

End ExampleRuns.
